(** * rfwave/attention.py: a shallow embedding and its verified properties

    The Python module builds rotary-embedding tables, length masks, position
    indices and (cross-)attention layers on top of a tensor framework.  The
    embedding below keeps the shape of the source:

    - a tensor is a shape together with its elements in row-major order;
    - a Python exception is a [Raise] in the [result] type;
    - Python integers are [Z], tensor dimensions are [nat];
    - [torch.float32] scalars are [spec_float] values at precision 24;
    - scalar kernels of the framework that have no definition in the
      repository (exp, cos, ...) are fields of a type class. *)

From Stdlib Require Import List ZArith Lia Bool Arith PeanoNat.
From Stdlib Require Import SpecFloat.
From Stdlib Require Import QArith Reals Qreals Lra.
Import ListNotations.

Close Scope Q_scope.
Open Scope nat_scope.

Set Implicit Arguments.

(** ** Exceptions *)

Inductive exn : Type :=
| AssertionError
| ValueError
| RuntimeError
| IndexError
| TypeError
| ZeroDivisionError.

Inductive result (A : Type) : Type :=
| Ok (a : A)
| Raise (e : exn).

Arguments Ok {A} a.
Arguments Raise {A} e.

Definition bind {A B : Type} (m : result A) (k : A -> result B) : result B :=
  match m with
  | Ok a => k a
  | Raise e => Raise e
  end.

Notation "x <- m ;; k" := (bind m (fun x => k))
  (at level 61, m at next level, right associativity).
Notation "' p <- m ;; k" := (bind m (fun x => match x with p => k end))
  (at level 61, p pattern, m at next level, right associativity).

Definition raises {A : Type} (m : result A) : Prop :=
  exists e, m = Raise e.

(** ** Tensors *)

Record tensor (A : Type) : Type := mkT { shape : list nat; data : list A }.

Arguments mkT {A} shape data.

Class Default (A : Type) : Type := { dflt : A }.

#[export] Instance Default_bool : Default bool := { dflt := false }.
#[export] Instance Default_Z : Default Z := { dflt := 0%Z }.
#[export] Instance Default_nat : Default nat := { dflt := 0 }.

Definition numel (s : list nat) : nat := fold_right Nat.mul 1 s.

Definition ndim {A} (t : tensor A) : nat := length (shape t).

(** A tensor is well formed when it stores one element per index. *)
Definition wf {A} (t : tensor A) : Prop := length (data t) = numel (shape t).

(** Row-major position of a multi-index. *)
Fixpoint offset (s idx : list nat) : nat :=
  match s, idx with
  | _ :: s', i :: idx' => i * numel s' + offset s' idx'
  | _, _ => 0
  end.

Fixpoint in_range (s idx : list nat) : bool :=
  match s, idx with
  | [], [] => true
  | d :: s', i :: idx' => (i <? d) && in_range s' idx'
  | _, _ => false
  end.

(** Checked access [t[idx]]. *)
Definition get {A} (t : tensor A) (idx : list nat) : option A :=
  if in_range (shape t) idx then nth_error (data t) (offset (shape t) idx)
  else None.

(** Access as a kernel does it, after the shapes were checked. *)
Definition at_ {A} `{Default A} (t : tensor A) (idx : list nat) : A :=
  nth (offset (shape t) idx) (data t) dflt.

(** All multi-indices of a shape, in row-major order. *)
Fixpoint indices (s : list nat) : list (list nat) :=
  match s with
  | [] => [[]]
  | d :: s' => flat_map (fun i => map (cons i) (indices s')) (seq 0 d)
  end.

Definition tabulate {A} (s : list nat) (f : list nat -> A) : tensor A :=
  mkT s (map f (indices s)).

Definition tmap {A B} (f : A -> B) (t : tensor A) : tensor B :=
  mkT (shape t) (map f (data t)).

Definition shape_eqb (s1 s2 : list nat) : bool :=
  if list_eq_dec Nat.eq_dec s1 s2 then true else false.

(** *** Framework operations used by the module *)

(** [torch.arange(n)]: a negative bound is refused. *)
Definition arange (n : Z) : result (tensor Z) :=
  if (n <? 0)%Z then Raise RuntimeError
  else Ok (mkT [Z.to_nat n] (map Z.of_nat (seq 0 (Z.to_nat n)))).

(** [t.unsqueeze(dim)] for [0 <= dim <= t.ndim]. *)
Definition unsqueeze {A} (dim : nat) (t : tensor A) : result (tensor A) :=
  if dim <=? ndim t
  then Ok (mkT (firstn dim (shape t) ++ 1 :: skipn dim (shape t)) (data t))
  else Raise IndexError.

(** Broadcasting of two shapes, aligned at the last dimension. *)
Definition bdim (a b : nat) : option nat :=
  if a =? b then Some a
  else if a =? 1 then Some b
  else if b =? 1 then Some a
  else None.

Fixpoint bshape_rev (r1 r2 : list nat) : option (list nat) :=
  match r1, r2 with
  | [], r => Some r
  | r, [] => Some r
  | a :: r1', b :: r2' =>
      match bdim a b, bshape_rev r1' r2' with
      | Some d, Some r => Some (d :: r)
      | _, _ => None
      end
  end.

Definition broadcast_shapes (s1 s2 : list nat) : option (list nat) :=
  option_map (@rev nat) (bshape_rev (rev s1) (rev s2)).

(** Index into an operand of shape [s] for the result index [idx]: the
    leading dimensions the operand lacks are dropped and its dimensions of
    size one are read at 0. *)
Fixpoint bindex_aligned (s idx : list nat) : list nat :=
  match s, idx with
  | d :: s', i :: idx' => (if d =? 1 then 0 else i) :: bindex_aligned s' idx'
  | _, _ => []
  end.

Definition bindex (s idx : list nat) : list nat :=
  bindex_aligned s (skipn (length idx - length s) idx).

(** An elementwise binary operation with broadcasting. *)
Definition broadcast2 {A B C} `{Default A} `{Default B}
    (f : A -> B -> C) (a : tensor A) (b : tensor B) : result (tensor C) :=
  match broadcast_shapes (shape a) (shape b) with
  | Some s =>
      Ok (tabulate s (fun idx =>
            f (at_ a (bindex (shape a) idx)) (at_ b (bindex (shape b) idx))))
  | None => Raise RuntimeError
  end.

(** [t.max()] of an integer tensor; an empty tensor has no maximum. *)
Definition t_max (t : tensor Z) : result Z :=
  match data t with
  | [] => Raise RuntimeError
  | z :: zs => Ok (fold_left Z.max zs z)
  end.

(** [~mask] *)
Definition logical_not (t : tensor bool) : tensor bool := tmap negb t.

(** [t.masked_fill_(mask, value)]: [mask] is broadcast to the shape of
    [t], which the in-place update cannot change. *)
Definition masked_fill {A} `{Default A}
    (t : tensor A) (mask : tensor bool) (value : A) : result (tensor A) :=
  r <- broadcast2 (fun x (m : bool) => if m then value else x) t mask ;;
  if shape_eqb (shape r) (shape t) then Ok r else Raise RuntimeError.

(** ** float32 scalars *)

Definition f32 : Type := spec_float.

Definition f32_zero : f32 := S754_zero false.
Definition f32_neg_inf : f32 := S754_infinity true.

#[export] Instance Default_f32 : Default f32 := { dflt := f32_zero }.

Definition is_finite_negative (x : f32) : bool :=
  match x with
  | S754_finite true _ _ => true
  | _ => false
  end.

(** ** Masking utilities *)

(** [sequence_mask(length, max_length=None)] *)
Definition sequence_mask (length : tensor Z) (max_length : option Z)
  : result (tensor bool) :=
  max_length <- match max_length with
                | None => t_max length
                | Some m => Ok m
                end ;;
  x <- arange max_length ;;
  x0 <- unsqueeze 0 x ;;
  l1 <- unsqueeze 1 length ;;
  broadcast2 Z.ltb x0 l1.

(** [torch.zeros_like(t, dtype=torch.float)] *)
Definition zeros_like {A} (t : tensor A) : tensor f32 :=
  tmap (fun _ => f32_zero) t.

(** [score_mask(length, max_length=None)] *)
Definition score_mask (length : tensor Z) (max_length : option Z)
  : result (tensor f32) :=
  seq_mask <- sequence_mask length max_length ;;
  let sco_mask := zeros_like seq_mask in
  sco_mask <- masked_fill sco_mask (logical_not seq_mask) f32_neg_inf ;;
  u <- unsqueeze 1 sco_mask ;;
  unsqueeze 2 u.

(** [torch.zeros( *size)]: called without a size it is refused. *)
Definition zeros (size : list nat) : result (tensor f32) :=
  match size with
  | [] => Raise TypeError
  | _ => Ok (mkT size (repeat f32_zero (numel size)))
  end.

(** [score_mask_from_bool_mask(bool_mask)] *)
Definition score_mask_from_bool_mask (bool_mask : tensor bool)
  : result (tensor f32) :=
  phone_mask <- zeros (shape bool_mask) ;;
  phone_mask <- masked_fill phone_mask bool_mask f32_neg_inf ;;
  phone_mask <- unsqueeze 1 phone_mask ;;
  unsqueeze 2 phone_mask.

(** A vector as a rank-1 tensor. *)
Definition vec {A} (l : list A) : tensor A := mkT [length l] l.


(** ** More framework operations *)

(** A dimension argument, possibly negative, for a tensor of rank [n]. *)
Definition norm_dim (dim : Z) (n : nat) : result nat :=
  if ((- Z.of_nat n <=? dim) && (dim <? Z.of_nat n))%Z
  then Ok (Z.to_nat (if (dim <? 0)%Z then dim + Z.of_nat n else dim))
  else Raise IndexError.

(** Size inference of [reshape]: at most one entry is -1, and it stands
    for the only size that keeps the number of elements. *)
Definition infer_size (s : list Z) (n : nat) : result (list nat) :=
  if existsb (fun d => d <? -1)%Z s then Raise RuntimeError
  else
    let newsize := numel (map Z.to_nat (filter (fun d => 0 <=? d)%Z s)) in
    match length (filter (fun d => d =? -1)%Z s) with
    | 0 => if n =? newsize then Ok (map Z.to_nat s) else Raise RuntimeError
    | 1 =>
        if (0 <? newsize) && (n mod newsize =? 0)
        then Ok (map (fun d => if (d =? -1)%Z then n / newsize
                               else Z.to_nat d) s)
        else Raise RuntimeError
    | _ => Raise RuntimeError
    end.

(** [t.reshape(s)] *)
Definition reshape {A} (s : list Z) (t : tensor A) : result (tensor A) :=
  s' <- infer_size s (numel (shape t)) ;;
  Ok (mkT s' (data t)).

(** [t.view(s)] with sizes that are all given. *)
Definition view {A} (s : list nat) (t : tensor A) : result (tensor A) :=
  reshape (map Z.of_nat s) t.

(** [t.select(d, i)]: dimension [d] is removed, read at [i]. *)
Definition select {A} `{Default A} (d i : nat) (t : tensor A) : tensor A :=
  tabulate (firstn d (shape t) ++ skipn (S d) (shape t))
    (fun idx => at_ t (firstn d idx ++ i :: skipn d idx)).

(** [t.unbind(dim)] *)
Definition unbind {A} `{Default A} (dim : Z) (t : tensor A)
  : result (list (tensor A)) :=
  d <- norm_dim dim (ndim t) ;;
  Ok (map (fun i => select d i t) (seq 0 (nth d (shape t) 0))).

(** Unpacking of a tuple into two names. *)
Definition unpack2 {X} (l : list X) : result (X * X) :=
  match l with
  | [a; b] => Ok (a, b)
  | _ => Raise ValueError
  end.

Definition unpack3 {X} (l : list X) : result (X * X * X) :=
  match l with
  | [a; b; c] => Ok (a, b, c)
  | _ => Raise ValueError
  end.

(** [t.narrow(d, start, len)] *)
Definition narrow {A} `{Default A} (d start len : nat) (t : tensor A)
  : tensor A :=
  tabulate (firstn d (shape t) ++ len :: skipn (S d) (shape t))
    (fun idx => at_ t (firstn d idx ++ (start + nth d idx 0)
                                    :: skipn (S d) idx)).

(** [torch.chunk(t, chunks, dim)]: pieces of size ceil(size/chunks), the
    last one shorter, and as few of them as cover the dimension. *)
Definition chunk {A} `{Default A} (t : tensor A) (chunks : nat) (dim : Z)
  : result (list (tensor A)) :=
  if (ndim t =? 0) || (chunks =? 0) then Raise RuntimeError
  else
    d <- norm_dim dim (ndim t) ;;
    let dim_size := nth d (shape t) 0 in
    let split_size := (dim_size + chunks - 1) / chunks in
    if split_size =? 0 then Ok (repeat (narrow d 0 0 t) chunks)
    else
      let num_splits := Nat.max ((dim_size + split_size - 1) / split_size) 1 in
      Ok (map (fun i => narrow d (i * split_size)
                          (Nat.min split_size (dim_size - i * split_size)) t)
              (seq 0 num_splits)).

(** [torch.stack(ts, dim)] *)
Definition stack {A} `{Default A} (ts : list (tensor A)) (dim : Z)
  : result (tensor A) :=
  match ts with
  | [] => Raise RuntimeError
  | t0 :: _ =>
      if forallb (fun t => shape_eqb (shape t) (shape t0)) ts then
        d <- norm_dim dim (S (ndim t0)) ;;
        Ok (tabulate (firstn d (shape t0) ++ length ts :: skipn d (shape t0))
              (fun idx => at_ (nth (nth d idx 0) ts t0)
                              (firstn d idx ++ skipn (S d) idx)))
      else Raise RuntimeError
  end.

(** [t.flatten(start_dim)] *)
Definition flatten {A} (start_dim : nat) (t : tensor A) : result (tensor A) :=
  if start_dim <? ndim t
  then Ok (mkT (firstn start_dim (shape t)
                  ++ [numel (skipn start_dim (shape t))]) (data t))
  else Raise IndexError.

(** [torch.cat([a, b], dim)] *)
Definition cat2 {A} `{Default A} (a b : tensor A) (dim : Z)
  : result (tensor A) :=
  d <- norm_dim dim (ndim a) ;;
  let da := nth d (shape a) 0 in
  let db := nth d (shape b) 0 in
  if shape_eqb (firstn d (shape a) ++ skipn (S d) (shape a))
               (firstn d (shape b) ++ skipn (S d) (shape b))
     && (ndim a =? ndim b)
  then Ok (tabulate (firstn d (shape a) ++ (da + db) :: skipn (S d) (shape a))
             (fun idx =>
                let i := nth d idx 0 in
                if i <? da then at_ a idx
                else at_ b (firstn d idx ++ (i - da) :: skipn (S d) idx)))
  else Raise RuntimeError.

(** [torch.arange(start, stop, step)] *)
Definition arange3 (start stop step : Z) : result (tensor Z) :=
  if (step =? 0)%Z then Raise RuntimeError
  else if (((0 <? step) && (stop <? start))
           || ((step <? 0) && (start <? stop)))%Z then Raise RuntimeError
  else
    let n := Z.to_nat ((stop - start + step - Z.sgn step) / step) in
    Ok (mkT [n] (map (fun k => start + Z.of_nat k * step)%Z (seq 0 n))).

(** [t[:k]]: a slice of the first dimension. *)
Definition slice_to {A} (k : Z) (t : tensor A) : result (tensor A) :=
  match shape t with
  | [] => Raise IndexError
  | n :: rest =>
      let m := if (k <? 0)%Z then Z.to_nat (Z.of_nat n + k)
               else Nat.min (Z.to_nat k) n in
      Ok (mkT (m :: rest) (firstn (m * numel rest) (data t)))
  end.

(** ** float32 arithmetic and 64-bit integers *)

Definition prec32 : Z := 24.
Definition emax32 : Z := 128.

Definition f32_mul : f32 -> f32 -> f32 := SFmul prec32 emax32.
Definition f32_add : f32 -> f32 -> f32 := SFadd prec32 emax32.
Definition f32_sub : f32 -> f32 -> f32 := SFsub prec32 emax32.

(** The float32 nearest to an integer. *)
Definition f32_of_Z (z : Z) : f32 := binary_normalize prec32 emax32 z 0 false.

Definition f32_one : f32 := f32_of_Z 1.

(** A Python float is a binary64 number. *)
Definition f64 : Type := spec_float.

(** Rounding of a Python float to float32. *)
Definition f32_of_f64 (x : f64) : f32 :=
  match x with
  | S754_finite s m e => binary_round prec32 emax32 s m e
  | _ => x
  end.

Definition int64_min : Z := - 2 ^ 63.
Definition int64_max : Z := 2 ^ 63 - 1.

Definition in_int64 (z : Z) : bool := (int64_min <=? z)%Z && (z <=? int64_max)%Z.

(** Two's-complement wrap-around of 64-bit arithmetic. *)
Definition wrap64 (z : Z) : Z := ((z + 2 ^ 63) mod 2 ^ 64 - 2 ^ 63)%Z.

(** [.long()] of a float32: truncation toward zero.  For NaN, infinities
    and values out of range the conversion is left unspecified by the
    framework; the x86-64 conversion returns the least 64-bit integer. *)
Definition f32_to_long (x : f32) : Z :=
  match x with
  | S754_zero _ => 0%Z
  | S754_finite s m e =>
      let z := cond_Zopp s (Z.shiftl (Zpos m) e) in
      if in_int64 z then z else int64_min
  | _ => int64_min
  end.

(** A Python integer passed where a 64-bit scalar is expected. *)
Definition to_int64 (z : Z) : result Z :=
  if in_int64 z then Ok z else Raise RuntimeError.

(** ** Position indices *)

(** The [scale] argument: a Python float (the default is [1.]) or a
    float32 tensor with one entry per batch element. *)
Inductive scale_arg : Type :=
| ScaleFloat (x : f64)
| ScaleTensor (t : tensor f32).

(** [torch.ones_like(t, dtype=torch.float32)] *)
Definition ones_like {A} (t : tensor A) : tensor f32 :=
  tmap (fun _ => f32_one) t.

(** [scale * t] for a float32 tensor [t] *)
Definition scale_mul (scale : scale_arg) (t : tensor f32)
  : result (tensor f32) :=
  match scale with
  | ScaleFloat x => Ok (tmap (fun y => f32_mul (f32_of_f64 x) y) t)
  | ScaleTensor s => broadcast2 f32_mul s t
  end.

(** [torch.arange(n, dtype=torch.float32)] *)
Definition arange_f32 (n : Z) : result (tensor f32) :=
  x <- arange n ;; Ok (tmap f32_of_Z x).

(** [x < c] for an integer tensor and a Python integer *)
Definition lt_scalar (x : tensor Z) (c : Z) : result (tensor bool) :=
  c <- to_int64 c ;; Ok (tmap (fun v => v <? c)%Z x).

(** [torch.where(cond, x, c)] for a Python integer [c] *)
Definition where_scalar (cond : tensor bool) (x : tensor Z) (c : Z)
  : result (tensor Z) :=
  c <- to_int64 c ;;
  broadcast2 (fun (b : bool) v => if b then v else c) cond x.

(** [t.size(d)] for [d >= 0] *)
Definition size {A} (t : tensor A) (d : nat) : result nat :=
  match nth_error (shape t) d with
  | Some n => Ok n
  | None => Raise IndexError
  end.

(** [torch.zeros([n], dtype=torch.long)] and [torch.ones([n],
    dtype=torch.long)] *)
Definition zeros_long (n : nat) : tensor Z := mkT [n] (repeat 0%Z n).
Definition ones_long (n : nat) : tensor Z := mkT [n] (repeat 1%Z n).

(** [t * c] for a 64-bit integer tensor and a Python integer *)
Definition mul_scalar_long (t : tensor Z) (c : Z) : result (tensor Z) :=
  c <- to_int64 c ;; Ok (tmap (fun v => wrap64 (v * c)) t).

(** [_get_start(tensor, start)] *)
Definition _get_start {A} (t : tensor A) (start : option (tensor Z))
  : result (tensor Z) :=
  match start with
  | None => n <- size t 0 ;; Ok (zeros_long n)
  | Some start => Ok start
  end.

(** [_get_len(tensor, length)] *)
Definition _get_len {A} (t : tensor A) (length : option (tensor Z))
  : result (tensor Z) :=
  match length with
  | None =>
      n <- size t 0 ;;
      len <- size t 2 ;;
      mul_scalar_long (ones_long n) (Z.of_nat len)
  | Some length => Ok length
  end.

(** [get_pos_embed_indices(start, length, max_pos, scale=1.)] *)
Definition get_pos_embed_indices
    (start : tensor Z) (length : Z) (max_pos : Z) (scale : scale_arg)
  : result (tensor Z) :=
  scale <- scale_mul scale (ones_like start) ;;
  start1 <- unsqueeze 1 start ;;
  ar <- arange_f32 length ;;
  ar0 <- unsqueeze 0 ar ;;
  scale1 <- unsqueeze 1 scale ;;
  steps <- broadcast2 f32_mul ar0 scale1 ;;
  let steps := tmap f32_to_long steps in
  pos <- broadcast2 (fun a b => wrap64 (a + b)) start1 steps ;;
  cond <- lt_scalar pos max_pos ;;
  pos <- where_scalar cond pos (max_pos - 1) ;;
  Ok pos.

(** The Python float [1.], the default of [scale]. *)
Definition f64_one : f64 := binary_normalize 53 1024 1 0 false.

(** ** Scalar arithmetic of float tensors

    The tensor code of the module is written once, over the arithmetic of
    its elements.  [Arith] is what the rotary embedding and the linear maps
    need; [Kernels] adds the scalar functions that the framework and the
    math library supply. *)

Class Arith (F : Type) : Type := {
  f_zero : F;
  f_one : F;
  f_add : F -> F -> F;
  f_sub : F -> F -> F;
  f_mul : F -> F -> F
}.

Class Kernels (F : Type) : Type := {
  f_of_Z : Z -> F;          (* conversion of an integer *)
  f_of_Q : Q -> F;          (* a decimal literal *)
  f_div : F -> F -> F;
  f_pow : F -> F -> F;
  f_exp : F -> F;
  f_sqrt : F -> F;
  f_rsqrt : F -> F;
  f_cos : F -> F;
  f_sin : F -> F;
  f_silu : F -> F
}.

#[export] Instance Default_Arith {F} `{Arith F} : Default F := { dflt := f_zero }.

#[export] Instance Arith_Z : Arith Z := {
  f_zero := 0%Z;
  f_one := 1%Z;
  f_add := Z.add;
  f_sub := Z.sub;
  f_mul := Z.mul
}.

(** Exact real arithmetic, the reference reading of the float kernels. *)
#[export] Instance Arith_R : Arith R := {
  f_zero := 0%R;
  f_one := 1%R;
  f_add := Rplus;
  f_sub := Rminus;
  f_mul := Rmult
}.

#[export] Instance Kernels_R : Kernels R := {
  f_of_Z := IZR;
  f_of_Q := Q2R;
  f_div := Rdiv;
  f_pow := Rpower;
  f_exp := exp;
  f_sqrt := sqrt;
  f_rsqrt := fun x => (/ sqrt x)%R;
  f_cos := cos;
  f_sin := sin;
  f_silu := fun x => (x / (1 + exp (- x)))%R
}.

Section Rotary.

Context {F : Type} `{Arith F}.

(** Elementwise operations of two tensors. *)
Definition mul (a b : tensor F) : result (tensor F) := broadcast2 f_mul a b.
Definition add (a b : tensor F) : result (tensor F) := broadcast2 f_add a b.
Definition sub (a b : tensor F) : result (tensor F) := broadcast2 f_sub a b.

(** [assert cond] *)
Definition assert (cond : bool) : result unit :=
  if cond then Ok tt else Raise AssertionError.

(** [reshape_for_broadcast(freqs_cis, x)] *)
Definition reshape_for_broadcast (freqs_cis x : tensor F)
  : result (tensor F) :=
  let ndim := ndim x in
  _ <- assert (1 <? ndim) ;;
  if ndim =? 4 then
    _ <- assert (shape_eqb (shape freqs_cis)
                   [nth 0 (shape x) 0; nth 1 (shape x) 0;
                    last (shape x) 0]) ;;
    let shape :=
      map (fun '(i, d) =>
             if (i =? 0) || (i =? 1) || (i =? ndim - 1) then d else 1)
          (combine (seq 0 ndim) (shape x)) in
    view shape freqs_cis
  else if ndim =? 3 then
    _ <- assert (shape_eqb (shape freqs_cis) (shape x)) ;;
    Ok freqs_cis
  else Raise ValueError.

(** [apply_rotary_emb(x, freqs_cis)].  The tensors are float32 already,
    so that [.float()] and [.type_as(x)] leave them as they are. *)
Definition apply_rotary_emb (x : tensor F) (freqs_cis : option (tensor F))
  : result (tensor F) :=
  match freqs_cis with
  | None => Ok x
  | Some freqs_cis =>
      xr <- reshape (map Z.of_nat (removelast (shape x)) ++ [-1; 2]%Z) x ;;
      parts <- unbind (-1) xr ;;
      '(x_r, x_i) <- unpack2 parts ;;
      chunks <- chunk freqs_cis 2 (-1) ;;
      '(freqs_cos, freqs_sin) <- unpack2 chunks ;;
      freqs_cos <- reshape_for_broadcast freqs_cos x_r ;;
      freqs_sin <- reshape_for_broadcast freqs_sin x_r ;;
      rc <- mul x_r freqs_cos ;;
      is_ <- mul x_i freqs_sin ;;
      x_out_r <- sub rc is_ ;;
      rs <- mul x_r freqs_sin ;;
      ic <- mul x_i freqs_cos ;;
      x_out_i <- add rs ic ;;
      st <- stack [x_out_r; x_out_i] (-1) ;;
      flatten (ndim x_out_r - 1) st
  end.

End Rotary.

Section Precompute.

Context {F : Type} `{Arith F} `{Kernels F}.

(** [a / b] of two Python integers *)
Definition py_truediv (a b : Z) : result F :=
  if (b =? 0)%Z then Raise ZeroDivisionError
  else Ok (f_div (f_of_Z a) (f_of_Z b)).

(** [torch.outer(a, b)] *)
Definition outer (a b : tensor F) : result (tensor F) :=
  match shape a, shape b with
  | [n], [m] =>
      Ok (tabulate [n; m]
            (fun idx => f_mul (at_ a [nth 0 idx 0]) (at_ b [nth 1 idx 0])))
  | _, _ => Raise RuntimeError
  end.

(** [precompute_freqs_cis(dim, end, theta=10000.0,
    theta_rescale_factor=1.)].  [f_pow] is the power of a positive base;
    Python itself refuses a zero base with a negative exponent and leaves
    the reals for a negative base with a fractional exponent. *)
Definition precompute_freqs_cis
    (dim end_ : Z) (theta theta_rescale_factor : F) : result (tensor F) :=
  e <- py_truediv dim (dim - 2) ;;
  let theta := f_mul theta (f_pow theta_rescale_factor e) in
  ar <- arange3 0 dim 2 ;;
  ar <- slice_to (dim / 2) ar ;;
  let freqs :=
    tmap (fun i => f_div f_one
                     (f_pow theta (f_div (f_of_Z i) (f_of_Z dim)))) ar in
  t <- arange end_ ;;
  freqs <- outer (tmap f_of_Z t) freqs ;;
  let freqs_cos := tmap f_cos freqs in
  let freqs_sin := tmap f_sin freqs in
  cat2 freqs_cos freqs_sin (-1).

End Precompute.

(** ** Modules

    A module is a record of its attributes.  A method runs in a state
    monad over the module ([self]) and the random generator of the
    framework, and returns a result or raises. *)

Section Modules.

Context {F : Type} `{Arith F} `{Kernels F}.

(** The generator: a tape of uniform draws (for the initialisers), a tape
    of coin flips (for dropout) and the position reached on them. *)
Record Rng : Type := mkRng {
  uniform_tape : nat -> F;
  bernoulli_tape : nat -> Q -> bool;
  cursor : nat
}.

Definition advance (n : nat) (g : Rng) : Rng :=
  mkRng (uniform_tape g) (bernoulli_tape g) (cursor g + n).

Definition M (S A : Type) : Type := S -> Rng -> result A * S * Rng.

Definition ret {S A} (a : A) : M S A := fun s g => (Ok a, s, g).

Definition bindM {S A B} (m : M S A) (k : A -> M S B) : M S B :=
  fun s g =>
    match m s g with
    | (Ok a, s', g') => k a s' g'
    | (Raise e, s', g') => (Raise e, s', g')
    end.

(** A computation that touches neither the module nor the generator. *)
Definition lift {S A} (r : result A) : M S A := fun s g => (r, s, g).

(** Reading an attribute: [self.x]. *)
Definition attr {S A} (proj : S -> A) : M S A := fun s g => (Ok (proj s), s, g).

(** Calling a method of the submodule held in an attribute. *)
Definition call {S T A} (proj : S -> T) (upd : T -> S -> S) (m : M T A)
  : M S A :=
  fun s g => let '(r, t', g') := m (proj s) g in (r, upd t' s, g').

Notation "x <-- m ;; k" := (bindM m (fun x => k))
  (at level 61, m at next level, right associativity).
Notation "' p <-- m ;; k" := (bindM m (fun x => match x with p => k end))
  (at level 61, p pattern, m at next level, right associativity).

(** A fresh tensor filled from the uniform tape. *)
Definition fresh {S} (s : list nat) : M S (tensor F) :=
  fun st g =>
    (Ok (mkT s (map (fun i => uniform_tape g (cursor g + i))
                    (seq 0 (numel s)))),
     st, advance (numel s) g).

(** A Python integer used as a tensor size. *)
Definition size_of_Z (z : Z) : result nat :=
  if (z <? 0)%Z then Raise RuntimeError else Ok (Z.to_nat z).

(** [torch.ones(n)] *)
Definition ones (n : Z) : result (tensor F) :=
  n <- size_of_Z n ;; Ok (mkT [n] (repeat f_one n)).

Definition zeros_F (n : Z) : result (tensor F) :=
  n <- size_of_Z n ;; Ok (mkT [n] (repeat f_zero n)).

(** *** Reductions and products of the framework *)

(** Sum of [g 0], ..., [g (n-1)], from the left. *)
Definition sum_upto (n : nat) (g : nat -> F) : F :=
  fold_left (fun acc k => f_add acc (g k)) (seq 0 n) f_zero.

(** [t.mean(-1, keepdim=True)] *)
Definition mean_last_keepdim (t : tensor F) : result (tensor F) :=
  match rev (shape t) with
  | [] => Ok t
  | d :: rpre =>
      Ok (tabulate (rev rpre ++ [1])
            (fun idx =>
               f_div (sum_upto d (fun k => at_ t (removelast idx ++ [k])))
                     (f_of_Z (Z.of_nat d))))
  end.

(** [t.softmax(dim)] *)
Definition softmax (t : tensor F) (dim : Z) : result (tensor F) :=
  d <- norm_dim dim (ndim t) ;;
  Ok (tabulate (shape t)
        (fun idx =>
           f_div (f_exp (at_ t idx))
                 (sum_upto (nth d (shape t) 0)
                    (fun k => f_exp (at_ t (firstn d idx ++ k
                                              :: skipn (S d) idx)))))).

(** [F.linear(x, weight, bias)]: [x @ weight.T + bias] *)
Definition F_linear (x weight : tensor F) (bias : option (tensor F))
  : result (tensor F) :=
  match rev (shape x), shape weight with
  | n :: rpre, [out; n'] =>
      if (n =? n')
         && match bias with
            | Some b => shape_eqb (shape b) [out]
            | None => true
            end
      then
        Ok (tabulate (rev rpre ++ [out])
              (fun idx =>
                 let o := last idx 0 in
                 let dot := sum_upto n (fun k =>
                              f_mul (at_ x (removelast idx ++ [k]))
                                    (at_ weight [o; k])) in
                 match bias with
                 | Some b => f_add dot (at_ b [o])
                 | None => dot
                 end))
      else Raise RuntimeError
  | _, _ => Raise RuntimeError
  end.

(** [a @ b] for operands of rank at least 2 (the only use here); the
    leading dimensions are broadcast. *)
Definition matmul (a b : tensor F) : result (tensor F) :=
  match rev (shape a), rev (shape b) with
  | m :: n :: rba, p :: m' :: rbb =>
      match bshape_rev rba rbb with
      | Some rbatch =>
          if m =? m' then
            let batch := rev rbatch in
            let nb := length batch in
            Ok (tabulate (batch ++ [n; p])
                  (fun idx =>
                     let ib := firstn nb idx in
                     let i := nth nb idx 0 in
                     let j := nth (S nb) idx 0 in
                     sum_upto m (fun k =>
                       f_mul (at_ a (bindex (rev rba) ib ++ [i; k]))
                             (at_ b (bindex (rev rbb) ib ++ [k; j])))))
          else Raise RuntimeError
      | None => Raise RuntimeError
      end
  | _, _ => Raise RuntimeError
  end.

Fixpoint index_of (d : nat) (l : list nat) : nat :=
  match l with
  | [] => 0
  | x :: l' => if x =? d then 0 else S (index_of d l')
  end.

Definition is_permutation (dims : list nat) (n : nat) : bool :=
  (length dims =? n)
  && forallb (fun d => existsb (Nat.eqb d) dims) (seq 0 n).

(** [t.permute(dims)] *)
Definition permute (dims : list nat) (t : tensor F) : result (tensor F) :=
  if is_permutation dims (ndim t) then
    Ok (tabulate (map (fun d => nth d (shape t) 0) dims)
          (fun idx => at_ t (map (fun d => nth (index_of d dims) idx 0)
                                 (seq 0 (ndim t)))))
  else Raise RuntimeError.

(** [t.transpose(dim0, dim1)] *)
Definition transpose (dim0 dim1 : Z) (t : tensor F) : result (tensor F) :=
  a <- norm_dim dim0 (ndim t) ;;
  b <- norm_dim dim1 (ndim t) ;;
  permute (map (fun d => if d =? a then b else if d =? b then a else d)
               (seq 0 (ndim t))) t.

(** [F.dropout(x, p, training)]: the kept elements are divided by
    [1 - p]; one coin is flipped per element. *)
Definition F_dropout {S} (x : tensor F) (p : Q) (training : bool)
  : M S (tensor F) :=
  fun s g =>
    if Qle_bool 0 p && Qle_bool p 1 then
      if Qeq_bool p 0 || negb training || (numel (shape x) =? 0)
      then (Ok x, s, g)
      else if Qeq_bool p 1
      then (Ok (tmap (fun v => f_mul v f_zero) x), s, g)
      else
        let n := length (data x) in
        let noise :=
          map (fun i =>
                 f_div (if bernoulli_tape g (cursor g + i) (1 - p)%Q
                        then f_one else f_zero)
                       (f_of_Q (1 - p)%Q))
              (seq 0 n) in
        (Ok (mkT (shape x)
               (map (fun '(v, w) => f_mul v w) (combine (data x) noise))),
         s, advance n g)
    else (Raise ValueError, s, g).

(** [F.scaled_dot_product_attention(q, k, v, attn_mask, dropout_p)], as
    the framework documents it: softmax(q @ k.T / sqrt(d) + attn_mask),
    dropout, times v.  The bias is added in place. *)
Definition F_scaled_dot_product_attention {S}
    (q k v : tensor F) (attn_mask : option (tensor F)) (dropout_p : Q)
  : M S (tensor F) :=
  let scale_factor :=
    f_div f_one (f_sqrt (f_of_Z (Z.of_nat (last (shape q) 0)))) in
  kt <-- lift (transpose (-2) (-1) k) ;;
  w <-- lift (matmul q kt) ;;
  let w := tmap (fun x => f_mul x scale_factor) w in
  w <-- lift (match attn_mask with
              | Some m =>
                  r <- add w m ;;
                  if shape_eqb (shape r) (shape w) then Ok r
                  else Raise RuntimeError
              | None => Ok w
              end) ;;
  w <-- lift (softmax w (-1)) ;;
  w <-- F_dropout w dropout_p true ;;
  lift (matmul w v).

(** *** [nn.Linear], [nn.Dropout], [nn.LayerNorm] *)

Record Linear : Type := mkLinear {
  Linear_weight : tensor F;
  Linear_bias : option (tensor F)
}.

(** [nn.Linear(in_features, out_features, bias)] *)
Definition Linear_init (in_features out_features : Z) (bias : bool)
  : M unit Linear :=
  i <-- lift (size_of_Z in_features) ;;
  o <-- lift (size_of_Z out_features) ;;
  w <-- fresh [o; i] ;;
  if bias then b <-- fresh [o] ;; ret (mkLinear w (Some b))
  else ret (mkLinear w None).

Definition Linear_forward (x : tensor F) : M Linear (tensor F) :=
  w <-- attr Linear_weight ;;
  b <-- attr Linear_bias ;;
  lift (F_linear x w b).

Record Dropout : Type := mkDropout {
  Dropout_p : Q;
  Dropout_training : bool
}.

(** [nn.Dropout(p)] *)
Definition Dropout_init (p : Q) : M unit Dropout :=
  if Qle_bool 0 p && Qle_bool p 1 then ret (mkDropout p true)
  else lift (Raise ValueError).

Definition Dropout_forward (x : tensor F) : M Dropout (tensor F) :=
  p <-- attr Dropout_p ;;
  training <-- attr Dropout_training ;;
  F_dropout x p training.

Record LayerNorm : Type := mkLayerNorm {
  LayerNorm_normalized_shape : nat;
  LayerNorm_eps : F;
  LayerNorm_weight : tensor F;
  LayerNorm_bias : tensor F
}.

(** [nn.LayerNorm(n)]: unit weight, zero bias, [eps = 1e-5]. *)
Definition LayerNorm_init (n : Z) : M unit LayerNorm :=
  w <-- lift (ones n) ;;
  b <-- lift (zeros_F n) ;;
  ret (mkLayerNorm (Z.to_nat n) (f_of_Q (1 # 100000)) w b).

(** [(x - E[x]) / sqrt(Var[x] + eps) * weight + bias] over the last
    dimension, which must be the normalized one. *)
Definition LayerNorm_forward (x : tensor F) : M LayerNorm (tensor F) :=
  n <-- attr LayerNorm_normalized_shape ;;
  eps <-- attr LayerNorm_eps ;;
  w <-- attr LayerNorm_weight ;;
  b <-- attr LayerNorm_bias ;;
  lift (_ <- (if (0 <? ndim x) && (last (shape x) 0 =? n) then Ok tt
              else Raise RuntimeError) ;;
        mean <- mean_last_keepdim x ;;
        xc <- sub x mean ;;
        sq <- mul xc xc ;;
        var <- mean_last_keepdim sq ;;
        let std := tmap (fun v => f_sqrt (f_add v eps)) var in
        y <- broadcast2 f_div xc std ;;
        y <- mul y w ;;
        add y b).

(** *** [RMSNorm] *)

Record RMSNorm : Type := mkRMSNorm {
  RMSNorm_eps : F;
  RMSNorm_weight : tensor F
}.

(** [RMSNorm.__init__(dim, eps=1e-6)] *)
Definition RMSNorm_init (dim : Z) (eps : F) : M unit RMSNorm :=
  w <-- lift (ones dim) ;;
  ret (mkRMSNorm eps w).

(** [RMSNorm._norm(x)] *)
Definition RMSNorm__norm (x : tensor F) : M RMSNorm (tensor F) :=
  eps <-- attr RMSNorm_eps ;;
  lift (let sq := tmap (fun v => f_mul v v) x in
        m <- mean_last_keepdim sq ;;
        let r := tmap (fun v => f_rsqrt (f_add v eps)) m in
        mul x r).

(** [RMSNorm.forward(x)] *)
Definition RMSNorm_forward (x : tensor F) : M RMSNorm (tensor F) :=
  output <-- RMSNorm__norm x ;;
  w <-- attr RMSNorm_weight ;;
  lift (mul output w).

(** [modulate(x, shift, scale)] *)
Definition modulate (x shift scale : tensor F) : result (tensor F) :=
  sc <- unsqueeze 1 scale ;;
  sh <- unsqueeze 1 shift ;;
  xs <- mul x (tmap (fun v => f_add f_one v) sc) ;;
  add xs sh.

(** *** [FeedForward] *)

Record FeedForward : Type := mkFeedForward {
  FeedForward_w1 : Linear;
  FeedForward_w2 : Linear;
  FeedForward_w3 : Linear;
  FeedForward_dropout : Dropout
}.

Definition set_w1 (l : Linear) (m : FeedForward) : FeedForward :=
  mkFeedForward l (FeedForward_w2 m) (FeedForward_w3 m) (FeedForward_dropout m).
Definition set_w2 (l : Linear) (m : FeedForward) : FeedForward :=
  mkFeedForward (FeedForward_w1 m) l (FeedForward_w3 m) (FeedForward_dropout m).
Definition set_w3 (l : Linear) (m : FeedForward) : FeedForward :=
  mkFeedForward (FeedForward_w1 m) (FeedForward_w2 m) l (FeedForward_dropout m).
Definition set_dropout (d : Dropout) (m : FeedForward) : FeedForward :=
  mkFeedForward (FeedForward_w1 m) (FeedForward_w2 m) (FeedForward_w3 m) d.

(** [a // b] of two Python integers *)
Definition py_floordiv (a b : Z) : result Z :=
  if (b =? 0)%Z then Raise ZeroDivisionError else Ok (a / b)%Z.

(** [a % b] of two Python integers *)
Definition py_mod (a b : Z) : result Z :=
  if (b =? 0)%Z then Raise ZeroDivisionError else Ok (a mod b)%Z.

(** [FeedForward.__init__(dim, hidden_dim, multiple_of=256, drop=0.)].
    [int(2 * hidden_dim / 3)] truncates the quotient; the quotient is a
    binary64 number, which is exact enough for the truncation as long as
    it stays below 2^52. *)
Definition FeedForward_init (dim : Z) (hidden_dim : option Z)
    (multiple_of : Z) (drop : Q) : M unit FeedForward :=
  hidden_dim <-- lift (match hidden_dim with
                       | Some h => Ok h
                       | None =>
                           let h := (4 * dim)%Z in
                           let h := Z.quot (2 * h) 3 in
                           q <- py_floordiv (h + multiple_of - 1) multiple_of ;;
                           Ok (multiple_of * q)%Z
                       end) ;;
  w1 <-- Linear_init dim hidden_dim false ;;
  w2 <-- Linear_init hidden_dim dim false ;;
  w3 <-- Linear_init dim hidden_dim false ;;
  dropout <-- Dropout_init drop ;;
  ret (mkFeedForward w1 w2 w3 dropout).

(** [FeedForward.forward(x)] *)
Definition FeedForward_forward (x : tensor F) : M FeedForward (tensor F) :=
  a <-- call FeedForward_w1 set_w1 (Linear_forward x) ;;
  let a := tmap f_silu a in
  b <-- call FeedForward_w3 set_w3 (Linear_forward x) ;;
  ab <-- lift (mul a b) ;;
  y <-- call FeedForward_w2 set_w2 (Linear_forward ab) ;;
  call FeedForward_dropout set_dropout (Dropout_forward y).

(** *** [CrossAttention] and [Attention] *)

(** The normalisation of queries and keys: [nn.Identity()], or the module
    built by [norm_layer(head_dim)] for one of the two normalisation
    classes in scope, the framework's [LayerNorm] (the default) and the
    [RMSNorm] of this file. *)
Inductive NormModule : Type :=
| Identity
| NormLayerNorm (m : LayerNorm)
| NormRMSNorm (m : RMSNorm).

Inductive norm_class : Type := LayerNormClass | RMSNormClass.

Definition norm_layer_init (norm_layer : norm_class) (n : Z)
  : M unit NormModule :=
  match norm_layer with
  | LayerNormClass => m <-- LayerNorm_init n ;; ret (NormLayerNorm m)
  | RMSNormClass =>
      m <-- RMSNorm_init n (f_of_Q (1 # 1000000)) ;; ret (NormRMSNorm m)
  end.

Definition NormModule_forward (x : tensor F) : M NormModule (tensor F) :=
  fun s g =>
    match s with
    | Identity => (Ok x, s, g)
    | NormLayerNorm m =>
        let '(r, m', g') := LayerNorm_forward x m g in (r, NormLayerNorm m', g')
    | NormRMSNorm m =>
        let '(r, m', g') := RMSNorm_forward x m g in (r, NormRMSNorm m', g')
    end.

Record CrossAttention : Type := mkCrossAttention {
  CrossAttention_num_heads : Z;
  CrossAttention_head_dim : Z;
  CrossAttention_scale : F;
  CrossAttention_q : Linear;
  CrossAttention_kv : Linear;
  CrossAttention_q_norm : NormModule;
  CrossAttention_k_norm : NormModule;
  CrossAttention_attn_drop : Dropout;
  CrossAttention_proj : Linear;
  CrossAttention_proj_drop : Dropout;
  CrossAttention_flash : bool;
  CrossAttention_training : bool
}.

Definition set_q (l : Linear) (m : CrossAttention) : CrossAttention :=
  mkCrossAttention (CrossAttention_num_heads m) (CrossAttention_head_dim m)
    (CrossAttention_scale m) l (CrossAttention_kv m)
    (CrossAttention_q_norm m) (CrossAttention_k_norm m)
    (CrossAttention_attn_drop m) (CrossAttention_proj m)
    (CrossAttention_proj_drop m) (CrossAttention_flash m)
    (CrossAttention_training m).
Definition set_kv (l : Linear) (m : CrossAttention) : CrossAttention :=
  mkCrossAttention (CrossAttention_num_heads m) (CrossAttention_head_dim m)
    (CrossAttention_scale m) (CrossAttention_q m) l
    (CrossAttention_q_norm m) (CrossAttention_k_norm m)
    (CrossAttention_attn_drop m) (CrossAttention_proj m)
    (CrossAttention_proj_drop m) (CrossAttention_flash m)
    (CrossAttention_training m).
Definition set_q_norm (n : NormModule) (m : CrossAttention) : CrossAttention :=
  mkCrossAttention (CrossAttention_num_heads m) (CrossAttention_head_dim m)
    (CrossAttention_scale m) (CrossAttention_q m) (CrossAttention_kv m)
    n (CrossAttention_k_norm m)
    (CrossAttention_attn_drop m) (CrossAttention_proj m)
    (CrossAttention_proj_drop m) (CrossAttention_flash m)
    (CrossAttention_training m).
Definition set_k_norm (n : NormModule) (m : CrossAttention) : CrossAttention :=
  mkCrossAttention (CrossAttention_num_heads m) (CrossAttention_head_dim m)
    (CrossAttention_scale m) (CrossAttention_q m) (CrossAttention_kv m)
    (CrossAttention_q_norm m) n
    (CrossAttention_attn_drop m) (CrossAttention_proj m)
    (CrossAttention_proj_drop m) (CrossAttention_flash m)
    (CrossAttention_training m).
Definition set_attn_drop (d : Dropout) (m : CrossAttention) : CrossAttention :=
  mkCrossAttention (CrossAttention_num_heads m) (CrossAttention_head_dim m)
    (CrossAttention_scale m) (CrossAttention_q m) (CrossAttention_kv m)
    (CrossAttention_q_norm m) (CrossAttention_k_norm m)
    d (CrossAttention_proj m)
    (CrossAttention_proj_drop m) (CrossAttention_flash m)
    (CrossAttention_training m).
Definition set_proj (l : Linear) (m : CrossAttention) : CrossAttention :=
  mkCrossAttention (CrossAttention_num_heads m) (CrossAttention_head_dim m)
    (CrossAttention_scale m) (CrossAttention_q m) (CrossAttention_kv m)
    (CrossAttention_q_norm m) (CrossAttention_k_norm m)
    (CrossAttention_attn_drop m) l
    (CrossAttention_proj_drop m) (CrossAttention_flash m)
    (CrossAttention_training m).
Definition set_proj_drop (d : Dropout) (m : CrossAttention) : CrossAttention :=
  mkCrossAttention (CrossAttention_num_heads m) (CrossAttention_head_dim m)
    (CrossAttention_scale m) (CrossAttention_q m) (CrossAttention_kv m)
    (CrossAttention_q_norm m) (CrossAttention_k_norm m)
    (CrossAttention_attn_drop m) (CrossAttention_proj m)
    d (CrossAttention_flash m)
    (CrossAttention_training m).

(** [n ** -0.5] of a Python integer: a zero base is refused.  (For a
    negative base Python leaves the reals; no forward pass reaches the
    scale of such a module.) *)
Definition py_pow_neg_half (n : Z) : result F :=
  if (n =? 0)%Z then Raise ZeroDivisionError
  else Ok (f_pow (f_of_Z n) (f_of_Q (- (1 # 2)))).

(** [CrossAttention.__init__(dim, num_heads=8, qkv_bias=False,
    qk_norm=False, attn_drop=0., proj_drop=0.,
    norm_layer=nn.LayerNorm)].  [has_sdpa] tells whether the installed
    framework provides [scaled_dot_product_attention]. *)
Definition CrossAttention_init
    (dim num_heads : Z) (qkv_bias qk_norm : bool) (attn_drop proj_drop : Q)
    (norm_layer : norm_class) (has_sdpa : bool) : M unit CrossAttention :=
  r <-- lift (py_mod dim num_heads) ;;
  _ <-- lift (assert (r =? 0)%Z) ;;
  head_dim <-- lift (py_floordiv dim num_heads) ;;
  scale <-- lift (py_pow_neg_half head_dim) ;;
  q <-- Linear_init dim dim qkv_bias ;;
  kv <-- Linear_init dim (2 * dim) qkv_bias ;;
  q_norm <-- (if qk_norm then norm_layer_init norm_layer head_dim
              else ret Identity) ;;
  k_norm <-- (if qk_norm then norm_layer_init norm_layer head_dim
              else ret Identity) ;;
  attn_drop <-- Dropout_init attn_drop ;;
  proj <-- Linear_init dim dim true ;;
  proj_drop <-- Dropout_init proj_drop ;;
  ret (mkCrossAttention num_heads head_dim scale q kv q_norm k_norm
         attn_drop proj proj_drop has_sdpa true).

(** [CrossAttention.forward(q_x, kv_x, q_freqs_cis, k_freqs_cis, mask)] *)
Definition CrossAttention_forward
    (q_x kv_x : tensor F) (q_freqs_cis k_freqs_cis : option (tensor F))
    (mask : option (tensor F)) : M CrossAttention (tensor F) :=
  '(bsz, q_seqlen, ch) <-- lift (unpack3 (shape q_x)) ;;
  '(_, kv_seqlen, _) <-- lift (unpack3 (shape kv_x)) ;;
  num_heads <-- attr CrossAttention_num_heads ;;
  head_dim <-- attr CrossAttention_head_dim ;;
  q <-- call CrossAttention_q set_q (Linear_forward q_x) ;;
  q <-- lift (reshape [Z.of_nat bsz; Z.of_nat q_seqlen; num_heads; head_dim] q) ;;
  kv <-- call CrossAttention_kv set_kv (Linear_forward kv_x) ;;
  kv <-- lift (reshape [Z.of_nat bsz; Z.of_nat kv_seqlen; 2%Z; num_heads;
                        head_dim] kv) ;;
  kv <-- lift (permute [2; 0; 1; 3; 4] kv) ;;
  parts <-- lift (unbind 0 kv) ;;
  '(k, v) <-- lift (unpack2 parts) ;;
  q <-- call CrossAttention_q_norm set_q_norm (NormModule_forward q) ;;
  k <-- call CrossAttention_k_norm set_k_norm (NormModule_forward k) ;;
  q <-- lift (apply_rotary_emb q q_freqs_cis) ;;
  k <-- lift (apply_rotary_emb k k_freqs_cis) ;;
  q <-- lift (transpose 1 2 q) ;;
  k <-- lift (transpose 1 2 k) ;;
  v <-- lift (transpose 1 2 v) ;;
  flash <-- attr CrossAttention_flash ;;
  x <-- (if flash : bool then
           training <-- attr CrossAttention_training ;;
           p <-- attr (fun self => Dropout_p (CrossAttention_attn_drop self)) ;;
           F_scaled_dot_product_attention q k v mask
             (if training : bool then p else 0%Q)
         else
           scale <-- attr CrossAttention_scale ;;
           let q := tmap (fun x => f_mul x scale) q in
           kt <-- lift (transpose (-2) (-1) k) ;;
           attn <-- lift (matmul q kt) ;;
           attn <-- lift (match mask with
                          | Some mask => add attn mask
                          | None => Ok attn
                          end) ;;
           attn <-- lift (softmax attn (-1)) ;;
           attn <-- call CrossAttention_attn_drop set_attn_drop
                      (Dropout_forward attn) ;;
           lift (matmul attn v)) ;;
  x <-- lift (transpose 1 2 x) ;;
  x <-- lift (reshape [Z.of_nat bsz; Z.of_nat q_seqlen; Z.of_nat ch] x) ;;
  x <-- call CrossAttention_proj set_proj (Linear_forward x) ;;
  call CrossAttention_proj_drop set_proj_drop (Dropout_forward x).

(** [class Attention(CrossAttention)]: the same attributes, the
    constructor of the base class. *)
Definition Attention : Type := CrossAttention.

Definition Attention_init := CrossAttention_init.

(** [Attention.forward(x, freqs_cis, mask)] *)
Definition Attention_forward
    (x : tensor F) (freqs_cis : option (tensor F)) (mask : option (tensor F))
  : M Attention (tensor F) :=
  CrossAttention_forward x x freqs_cis freqs_cis mask.

End Modules.

Arguments M F S A : clear implicits.
Arguments Rng F : clear implicits.
Arguments Linear F : clear implicits.
Arguments LayerNorm F : clear implicits.
Arguments RMSNorm F : clear implicits.
Arguments NormModule F : clear implicits.
Arguments FeedForward F : clear implicits.
Arguments CrossAttention F : clear implicits.
Arguments Attention F : clear implicits.
(** * Vocabulary of the statements *)

Definition is_maximum (m : Z) (l : list Z) : Prop :=
  In m l /\ forall z, In z l -> (z <= m)%Z.


Definition zero_or_neg_inf (v : f32) : Prop :=
  v = f32_zero \/ v = f32_neg_inf.


(** The float32 scale of batch element [i], as the caller passed it. *)
Definition scale_at (scale : scale_arg) (i : nat) : option f32 :=
  match scale with
  | ScaleFloat x => Some (f32_of_f64 x)
  | ScaleTensor s => get s [i]
  end.

Definition scale_fits (scale : scale_arg) (batch : nat) : Prop :=
  match scale with
  | ScaleFloat _ => True
  | ScaleTensor s => shape s = [batch] /\ wf s
  end.

(** The position the code assigns to entry (i, j): the start plus the
    truncated float32 product, kept below [max_pos]. *)
Definition pos_entry (st : Z) (sc : f32) (j : nat) (max_pos : Z) : Z :=
  let step := f32_to_long (f32_mul (f32_of_Z (Z.of_nat j)) sc) in
  let p := wrap64 (st + step) in
  if (p <? max_pos)%Z then p else (max_pos - 1)%Z.


(** A table of cosines and sines for [b] batch elements, [s] positions and
    [k] rotated pairs: entry m is the cosine and entry k + m the sine of
    one angle. *)
Definition cis_table (f : tensor R) (b s k : nat) : Prop :=
  forall i j m, i < b -> j < s -> m < k ->
    exists theta, get f [i; j; m] = Some (cos theta) /\
                  get f [i; j; k + m] = Some (sin theta).

(** The frequency of pair [i]: 1 / theta'^(2i/dim) with
    theta' = theta * rescale^(dim/(dim-2)). *)
Definition rotary_freq {F : Type} `{Arith F} `{Kernels F}
    (dim : Z) (theta theta_rescale_factor : F) (i : nat) : F :=
  let e := f_div (f_of_Z dim) (f_of_Z (dim - 2)) in
  let theta' := f_mul theta (f_pow theta_rescale_factor e) in
  f_div f_one
    (f_pow theta' (f_div (f_of_Z (2 * Z.of_nat i)) (f_of_Z dim))).

(** *** Modules *)

Section ModuleVocabulary.

Context {F : Type} `{Arith F} `{Kernels F}.

(** A method leaves the module as it found it, whether it returns or
    raises. *)
Definition preserves_self {S A} (m : M F S A) : Prop :=
  forall (self : S) (g : Rng F), snd (fst (m self g)) = self.

Definition Linear_wf (in_features out_features : nat) (l : Linear F) : Prop :=
  shape (Linear_weight l) = [out_features; in_features] /\
  match Linear_bias l with
  | Some b => shape b = [out_features]
  | None => True
  end.

Definition Dropout_wf (d : Dropout) : Prop :=
  Qle_bool 0 (Dropout_p d) = true /\ Qle_bool (Dropout_p d) 1 = true.

Definition NormModule_wf (n : nat) (m : NormModule F) : Prop :=
  match m with
  | Identity => True
  | NormLayerNorm ln =>
      LayerNorm_normalized_shape ln = n /\
      shape (LayerNorm_weight ln) = [n] /\ shape (LayerNorm_bias ln) = [n]
  | NormRMSNorm r => shape (RMSNorm_weight r) = [n]
  end.

(** The attributes of a [CrossAttention] of width [dim] with [nh] heads of
    size [hd], as the constructor sets them up. *)
Definition CrossAttention_wf (dim nh hd : nat) (m : CrossAttention F) : Prop :=
  0 < nh /\ nh * hd = dim /\
  CrossAttention_num_heads m = Z.of_nat nh /\
  CrossAttention_head_dim m = Z.of_nat hd /\
  Linear_wf dim dim (CrossAttention_q m) /\
  Linear_wf dim (2 * dim) (CrossAttention_kv m) /\
  Linear_wf dim dim (CrossAttention_proj m) /\
  NormModule_wf hd (CrossAttention_q_norm m) /\
  NormModule_wf hd (CrossAttention_k_norm m) /\
  Dropout_wf (CrossAttention_attn_drop m) /\
  Dropout_wf (CrossAttention_proj_drop m).



(** A method call at [self] that returns the same result whatever the
    generator holds, and leaves the module and the generator as they
    were. *)
Definition quiet {S A} (m : M F S A) (self : S) : Prop :=
  exists r, forall g : Rng F, m self g = (r, self, g).

(** A dropout layer that lets its input through: in inference mode, or
    with probability zero. *)
Definition Dropout_inactive (d : Dropout) : Prop :=
  Dropout_training d = false \/ Qeq_bool (Dropout_p d) 0 = true.

End ModuleVocabulary.

(** *** Sample objects for the worked instances *)

(** A generator whose tapes are constant. *)
Definition sample_rng : Rng R :=
  mkRng (fun _ => 0%R) (fun _ _ => true) 0.

Definition sample_linear (n out : nat) (bias : bool) : Linear R :=
  mkLinear (mkT [out; n] (repeat 1%R (out * n)))
           (if bias then Some (mkT [out] (repeat 0%R out)) else None).

(** A [CrossAttention] of width 4 with 2 heads of size 2 and an RMS
    normalisation of the queries. *)
Definition sample_attention (flash training : bool) : CrossAttention R :=
  mkCrossAttention 2 2 (f_pow (f_of_Z 2) (f_of_Q (- (1 # 2))))
    (sample_linear 4 4 false) (sample_linear 4 8 false)
    (NormRMSNorm (mkRMSNorm (f_of_Q (1 # 1000000)) (mkT [2] [1%R; 1%R])))
    Identity
    (mkDropout (1 # 2) training) (sample_linear 4 4 true)
    (mkDropout 0 training) flash training.

(** A table of shape (b, s, 2k) that holds, for batch element i, position
    j and pair m, the cosine and the sine of the angle [theta i j m]. *)
Definition cis_table_of (f : tensor R) (b s k : nat)
    (theta : nat -> nat -> nat -> R) : Prop :=
  wf f /\ shape f = [b; s; 2 * k] /\
  forall i j m, i < b -> j < s -> m < k ->
    get f [i; j; m] = Some (cos (theta i j m)) /\
    get f [i; j; k + m] = Some (sin (theta i j m)).

(** The mean of the squares of row [ip] of [x], a row of [d] entries. *)
Definition mean_square (x : tensor R) (ip : list nat) (d : nat) : R :=
  (sum_upto d (fun k => at_ x (ip ++ [k]) * at_ x (ip ++ [k])) / INR d)%R.


(** * Properties *)

Unset Implicit Arguments.

(** ** The error monad *)

Lemma bind_Ok {A B} (m : result A) (k : A -> result B) a :
  m = Ok a -> bind m k = k a.
Proof. intros ->. reflexivity. Qed.

Lemma bind_inv {A B} (m : result A) (k : A -> result B) b :
  bind m k = Ok b -> exists a, m = Ok a /\ k a = Ok b.
Proof. destruct m as [a|e]; simpl; [eauto | discriminate]. Qed.

(** ** Indices and row-major positions *)

Lemma length_indices s : length (indices s) = numel s.
Proof.
  induction s as [|d s IH]; simpl; [reflexivity|].
  generalize 0 as k.
  induction d as [|d IHd]; intros k; simpl; [reflexivity|].
  rewrite length_app, length_map, IH, IHd. reflexivity.
Qed.

Lemma wf_tabulate {A} s (f : list nat -> A) : wf (tabulate s f).
Proof. unfold wf, tabulate; simpl. now rewrite length_map, length_indices. Qed.

Lemma in_range_cons d s i idx :
  in_range (d :: s) (i :: idx) = true <-> i < d /\ in_range s idx = true.
Proof. simpl. rewrite andb_true_iff, Nat.ltb_lt. tauto. Qed.

Lemma in_range_length s : forall idx,
  in_range s idx = true -> length idx = length s.
Proof.
  induction s as [|d s IH]; intros [|i idx] H; simpl in *;
    try discriminate; [reflexivity|].
  apply andb_true_iff in H as [_ H]. f_equal. auto.
Qed.

Lemma offset_lt s : forall idx,
  in_range s idx = true -> offset s idx < numel s.
Proof.
  induction s as [|d s IH]; intros [|i idx] H; simpl in *;
    try discriminate; [lia|].
  apply andb_true_iff in H as [Hi H]. apply Nat.ltb_lt in Hi.
  specialize (IH _ H). nia.
Qed.

(** In a concatenation of blocks of one length, the element at [i*n + o]
    is the element at [o] of block [i]. *)
Lemma nth_error_blocks {A B} (g : A -> list B) n : forall l i o a,
  (forall x, length (g x) = n) ->
  nth_error l i = Some a -> o < n ->
  nth_error (flat_map g l) (i * n + o) = nth_error (g a) o.
Proof.
  induction l as [|x l IH]; intros i o a Hg Hi Ho.
  - destruct i; discriminate.
  - destruct i as [|i]; simpl in *.
    + injection Hi as ->. rewrite nth_error_app1; [reflexivity|].
      rewrite Hg. exact Ho.
    + rewrite nth_error_app2 by (rewrite Hg; lia).
      rewrite Hg. replace (n + i * n + o - n) with (i * n + o) by lia.
      now apply IH.
Qed.

Lemma nth_error_seq_0 n i : i < n -> nth_error (seq 0 n) i = Some i.
Proof.
  intros H. rewrite nth_error_nth' with (d := 0) by now rewrite length_seq.
  now rewrite seq_nth.
Qed.

Lemma nth_error_indices s : forall idx,
  in_range s idx = true -> nth_error (indices s) (offset s idx) = Some idx.
Proof.
  induction s as [|d s IH]; intros [|i idx] H; simpl in *;
    try discriminate; [reflexivity|].
  apply andb_true_iff in H as [Hi H]. apply Nat.ltb_lt in Hi.
  rewrite nth_error_blocks with (a := i).
  - rewrite nth_error_map, IH by exact H. reflexivity.
  - intros x. now rewrite length_map, length_indices.
  - now apply nth_error_seq_0.
  - now apply offset_lt.
Qed.

Lemma get_tabulate {A} s (f : list nat -> A) idx :
  in_range s idx = true -> get (tabulate s f) idx = Some (f idx).
Proof.
  intros H. unfold get, tabulate; simpl. rewrite H.
  rewrite nth_error_map, nth_error_indices by exact H. reflexivity.
Qed.

Lemma get_in_range {A} (t : tensor A) idx v :
  get t idx = Some v -> in_range (shape t) idx = true.
Proof. unfold get. destruct (in_range (shape t) idx); [reflexivity|discriminate]. Qed.

Lemma get_at {A} `{Default A} (t : tensor A) idx v :
  get t idx = Some v -> at_ t idx = v.
Proof.
  unfold get, at_. destruct (in_range (shape t) idx); [|discriminate].
  intros Hn. now apply nth_error_nth.
Qed.

Lemma get_total {A} (t : tensor A) idx :
  wf t -> in_range (shape t) idx = true -> exists v, get t idx = Some v.
Proof.
  intros Hwf Hr. unfold get. rewrite Hr.
  destruct (nth_error (data t) (offset (shape t) idx)) eqn:E; [eauto|].
  apply nth_error_None in E. apply offset_lt in Hr. unfold wf in Hwf. lia.
Qed.

Lemma get_tmap {A B} (f : A -> B) (t : tensor A) idx :
  get (tmap f t) idx = option_map f (get t idx).
Proof.
  unfold get, tmap; simpl. destruct (in_range (shape t) idx); [|reflexivity].
  apply nth_error_map.
Qed.

Lemma wf_tmap {A B} (f : A -> B) (t : tensor A) : wf t -> wf (tmap f t).
Proof. unfold wf, tmap; simpl. now rewrite length_map. Qed.

Lemma shape_eqb_refl s : shape_eqb s s = true.
Proof. unfold shape_eqb. destruct (list_eq_dec Nat.eq_dec s s); congruence. Qed.

Lemma shape_eqb_eq s1 s2 : shape_eqb s1 s2 = true <-> s1 = s2.
Proof.
  unfold shape_eqb. destruct (list_eq_dec Nat.eq_dec s1 s2); split;
    congruence.
Qed.

(** ** Broadcasting *)

Lemma bdim_same a : bdim a a = Some a.
Proof. unfold bdim. now rewrite Nat.eqb_refl. Qed.

Lemma bdim_1_l b : bdim 1 b = Some b.
Proof.
  unfold bdim. destruct (1 =? b) eqn:E; [|reflexivity].
  apply Nat.eqb_eq in E. now subst.
Qed.

Lemma bdim_1_r a : bdim a 1 = Some a.
Proof.
  unfold bdim. destruct (a =? 1) eqn:E; reflexivity.
Qed.

Lemma bshape_rev_same r : bshape_rev r r = Some r.
Proof.
  induction r as [|a r IH]; simpl; [reflexivity|].
  now rewrite bdim_same, IH.
Qed.

Lemma broadcast_shapes_same s : broadcast_shapes s s = Some s.
Proof.
  unfold broadcast_shapes. rewrite bshape_rev_same. simpl.
  now rewrite rev_involutive.
Qed.

Lemma bindex_aligned_same s : forall idx,
  in_range s idx = true -> bindex_aligned s idx = idx.
Proof.
  induction s as [|d s IH]; intros [|i idx] H; simpl in *;
    try discriminate; [reflexivity|].
  apply andb_true_iff in H as [Hi H]. apply Nat.ltb_lt in Hi.
  rewrite IH by exact H. f_equal.
  destruct (d =? 1) eqn:E; [|reflexivity].
  apply Nat.eqb_eq in E. lia.
Qed.

Lemma bindex_same s idx : in_range s idx = true -> bindex s idx = idx.
Proof.
  intros H. unfold bindex. rewrite (in_range_length _ _ H), Nat.sub_diag.
  simpl. now apply bindex_aligned_same.
Qed.

(** Pointwise reading of an elementwise operation on equal shapes. *)
Lemma broadcast2_same {A B C} `{Default A} `{Default B}
    (f : A -> B -> C) (a : tensor A) (b : tensor B) :
  shape a = shape b ->
  exists r, broadcast2 f a b = Ok r /\ shape r = shape a /\ wf r /\
    forall idx x y, get a idx = Some x -> get b idx = Some y ->
      get r idx = Some (f x y).
Proof.
  intros Hs. unfold broadcast2. rewrite <- Hs, broadcast_shapes_same.
  eexists; split; [reflexivity|]. split; [reflexivity|].
  split; [apply wf_tabulate|].
  intros idx x y Ha Hb. pose proof (get_in_range _ _ _ Ha) as Hr.
  rewrite get_tabulate by exact Hr. rewrite bindex_same by exact Hr.
  now rewrite (get_at _ _ _ Ha), (get_at _ _ _ Hb).
Qed.

Lemma bsel_lt d i : i < d -> (if d =? 1 then 0 else i) = i.
Proof.
  intros H. destruct (d =? 1) eqn:E; [|reflexivity].
  apply Nat.eqb_eq in E. lia.
Qed.

(** ** Masking utilities *)

Lemma arange_Ok n :
  (0 <= n)%Z ->
  arange n = Ok (mkT [Z.to_nat n] (map Z.of_nat (seq 0 (Z.to_nat n)))).
Proof.
  intros H. unfold arange. destruct (n <? 0)%Z eqn:E; [|reflexivity].
  apply Z.ltb_lt in E. lia.
Qed.


Lemma nth_arange_data n k :
  k < n -> nth k (map Z.of_nat (seq 0 n)) 0%Z = Z.of_nat k.
Proof.
  intros H. change 0%Z with (Z.of_nat 0). rewrite map_nth, seq_nth by exact H.
  reflexivity.
Qed.

Lemma get_vector {A} (t : tensor A) n i v :
  shape t = [n] -> get t [i] = Some v -> i < n /\ nth_error (data t) i = Some v.
Proof.
  unfold get. intros ->. simpl. rewrite andb_true_r.
  destruct (i <? n) eqn:E; [|discriminate].
  apply Nat.ltb_lt in E. rewrite Nat.mul_1_r, Nat.add_0_r. auto.
Qed.

(** What [sequence_mask] computes for an explicit width. *)
Lemma sequence_mask_width (length : tensor Z) batch (L : Z) :
  shape length = [batch] -> (0 <= L)%Z ->
  exists m, sequence_mask length (Some L) = Ok m /\
    shape m = [batch; Z.to_nat L] /\ wf m /\
    forall i j li, get length [i] = Some li -> j < Z.to_nat L ->
      get m [i; j] = Some (Z.of_nat j <? li)%Z.
Proof.
  intros Hs HL. destruct length as [s d]. simpl in Hs. subst s.
  unfold sequence_mask. simpl bind. rewrite (arange_Ok _ HL). simpl bind.
  unfold broadcast2, broadcast_shapes. simpl.
  rewrite bdim_1_r, bdim_1_l. simpl.
  eexists. split; [reflexivity|]. split; [reflexivity|].
  split; [apply wf_tabulate|].
  intros i j li Hg Hj.
  apply get_vector with (n := batch) in Hg as [Hi Hn]; [|reflexivity].
  simpl in Hn.
  rewrite get_tabulate.
  2:{ simpl. apply Nat.ltb_lt in Hi, Hj. now rewrite Hi, Hj. }
  unfold bindex, at_. simpl.
  rewrite !bsel_lt by assumption.
  rewrite !Nat.mul_1_r, !Nat.add_0_r.
  rewrite nth_arange_data by exact Hj.
  now rewrite (nth_error_nth _ _ _ Hn).
Qed.

Lemma fold_left_max_spec : forall l z,
  is_maximum (fold_left Z.max l z) (z :: l).
Proof.
  induction l as [|y l IH]; intros z; simpl.
  - split; [now left|]. intros ? [<-|[]]. lia.
  - destruct (IH (Z.max z y)) as [Hin Hle]. split.
    + destruct Hin as [Hin|Hin]; [|now right; right].
      rewrite <- Hin. destruct (Z.max_spec z y) as [[_ ->]|[_ ->]];
        [right; now left|now left].
    + intros w Hw. assert (H : (z <= Z.max z y)%Z /\ (y <= Z.max z y)%Z)
        by lia.
      destruct Hw as [<-|[<-|Hw]].
      * specialize (Hle _ (or_introl eq_refl)). lia.
      * specialize (Hle _ (or_introl eq_refl)). lia.
      * apply Hle. now right.
Qed.

Lemma t_max_spec (t : tensor Z) :
  data t <> [] -> exists m, t_max t = Ok m /\ is_maximum m (data t).
Proof.
  unfold t_max. destruct (data t) as [|z zs]; [congruence|].
  intros _. eexists. split; [reflexivity|]. apply fold_left_max_spec.
Qed.

(** C8. [sequence_mask(lengths, max_length)] on a vector of [batch] integer
    lengths and a width [max_length >= 0] returns a boolean tensor of shape
    (batch, max_length) whose entry (i, j) is True iff j < lengths[i]; and
    [sequence_mask([3, 5], max_length=5)] is
    [[T,T,T,F,F],[T,T,T,T,T]]. *)
Theorem sequence_mask_correct (length : tensor Z) (batch : nat) (L : Z)
    (Hshape : shape length = [batch]) (HL : (0 <= L)%Z) :
  (exists m, sequence_mask length (Some L) = Ok m /\
     shape m = [batch; Z.to_nat L] /\ wf m /\
     forall i j li, get length [i] = Some li -> j < Z.to_nat L ->
       exists b, get m [i; j] = Some b /\
                 (b = true <-> (Z.of_nat j < li)%Z)) /\
  sequence_mask (vec [3; 5]%Z) (Some 5%Z) =
    Ok (mkT [2; 5] [true; true; true; false; false;
                    true; true; true; true; true]).
Proof.
  split; [|reflexivity].
  destruct (sequence_mask_width _ _ _ Hshape HL) as (m & Hm & Hsh & Hwf & Hget).
  exists m. split; [exact Hm|]. split; [exact Hsh|]. split; [exact Hwf|].
  intros i j li Hi Hj. exists (Z.of_nat j <? li)%Z.
  split; [apply Hget; assumption|]. apply Z.ltb_lt.
Qed.

Lemma sequence_mask_correct_witness :
  exists m, sequence_mask (vec [3; 5]%Z) (Some 4%Z) = Ok m /\
    shape m = [2; 4].
Proof.
  destruct (sequence_mask_correct (vec [3; 5]%Z) 2 4%Z eq_refl)
    as [(m & Hm & Hs & _) _]; [lia|].
  exists m. split; [exact Hm|exact Hs].
Defined.

(** C10. With [max_length] omitted, [sequence_mask] uses the maximum of a
    non-empty lengths vector as the width: the result is that of
    [sequence_mask(lengths, max(lengths))], of shape
    (batch, max(lengths)). *)
Theorem sequence_mask_default_width (length : tensor Z) (batch : nat)
    (Hshape : shape length = [batch]) (Hwf : wf length)
    (Hne : 0 < batch) :
  exists mx, is_maximum mx (data length) /\
    sequence_mask length None = sequence_mask length (Some mx) /\
    ((0 <= mx)%Z ->
     exists m, sequence_mask length None = Ok m /\
    shape m = [batch; Z.to_nat mx] /\ wf m).
Proof.
  destruct (t_max_spec length) as (mx & Hmx & Hmax).
  { unfold wf in Hwf. rewrite Hshape in Hwf. simpl in Hwf.
    destruct (data length); [simpl in Hwf; lia|discriminate]. }
  exists mx. split; [exact Hmax|].
  assert (Heq : sequence_mask length None = sequence_mask length (Some mx)).
  { unfold sequence_mask. now rewrite Hmx. }
  split; [exact Heq|].
  intros Hpos. rewrite Heq.
  destruct (sequence_mask_width _ _ _ Hshape Hpos) as (m & Hm & Hs & Hw & _).
  eauto.
Qed.

Lemma sequence_mask_default_width_witness :
  exists mx, is_maximum mx [3; 5]%Z /\
    sequence_mask (vec [3; 5]%Z) None = sequence_mask (vec [3; 5]%Z) (Some mx).
Proof.
  destruct (sequence_mask_default_width (vec [3; 5]%Z) 2 eq_refl eq_refl)
    as (mx & Hmax & Heq & _); [lia|].
  exists mx. split; [exact Hmax|exact Heq].
Defined.

Lemma masked_fill_same {A} `{Default A} (t : tensor A) (mask : tensor bool)
    (value : A) :
  shape t = shape mask ->
  exists r, masked_fill t mask value = Ok r /\ shape r = shape t /\ wf r /\
    forall idx x m, get t idx = Some x -> get mask idx = Some m ->
      get r idx = Some (if m then value else x).
Proof.
  intros Hs. unfold masked_fill.
  destruct (broadcast2_same (fun x (m : bool) => if m then value else x)
              t mask Hs) as (r & Hr & Hsh & Hwf & Hget).
  rewrite Hr. simpl. rewrite Hsh, shape_eqb_refl. eauto 6.
Qed.

(** An in-place fill only writes [value]: every other element was one of
    the tensor (or the padding element of an unchecked read). *)
Lemma masked_fill_Forall {A} `{Default A} (P : A -> Prop)
    (t : tensor A) (mask : tensor bool) (value : A) r :
  masked_fill t mask value = Ok r ->
  Forall P (data t) -> P dflt -> P value -> Forall P (data r).
Proof.
  unfold masked_fill, broadcast2. intros Hr Ht Hd Hv.
  destruct (broadcast_shapes (shape t) (shape mask)) as [s|];
    [|discriminate].
  simpl in Hr. destruct (shape_eqb s (shape t)); [|discriminate].
  injection Hr as <-. simpl. apply Forall_map, Forall_forall.
  intros idx _. destruct (at_ mask _); [exact Hv|].
  unfold at_. destruct (nth_in_or_default (offset (shape t) (bindex (shape t) idx))
                          (data t) dflt) as [Hin| ->]; [|exact Hd].
  rewrite Forall_forall in Ht. now apply Ht.
Qed.

Lemma get_In {A} (t : tensor A) idx v : get t idx = Some v -> In v (data t).
Proof.
  unfold get. destruct (in_range (shape t) idx); [|discriminate].
  apply nth_error_In.
Qed.

(** Two singleton dimensions after the first one do not move elements. *)
Lemma get_unsqueeze_1_2 {A} d0 rest (d : list A) i idx :
  get (mkT (d0 :: 1 :: 1 :: rest) d) (i :: 0 :: 0 :: idx) =
  get (mkT (d0 :: rest) d) (i :: idx).
Proof.
  unfold get. simpl. rewrite !Nat.add_0_r. reflexivity.
Qed.

Lemma unsqueeze_1_2 {A} (t : tensor A) d0 rest :
  shape t = d0 :: rest ->
  (u <- unsqueeze 1 t ;; unsqueeze 2 u) =
  Ok (mkT (d0 :: 1 :: 1 :: rest) (data t)).
Proof.
  intros Hs. unfold unsqueeze, ndim. rewrite Hs. simpl.
  unfold unsqueeze, ndim. simpl. reflexivity.
Qed.

Lemma zeros_Ok d0 rest :
  zeros (d0 :: rest) =
  Ok (mkT (d0 :: rest) (repeat f32_zero (numel (d0 :: rest)))).
Proof. reflexivity. Qed.

Lemma get_repeat {A} s (x : A) idx :
  in_range s idx = true -> get (mkT s (repeat x (numel s))) idx = Some x.
Proof.
  intros H. unfold get. simpl. rewrite H.
  apply offset_lt in H. revert H. generalize (offset s idx) (numel s).
  intros k n. revert k. induction n as [|n IH]; intros [|k] Hk; simpl;
    try lia; [reflexivity|]. apply IH. lia.
Qed.

Lemma zero_or_neg_inf_not_finite v :
  zero_or_neg_inf v -> is_finite_negative v = false.
Proof. intros [-> | ->]; reflexivity. Qed.

Lemma score_mask_width (length : tensor Z) batch (L : Z) :
  shape length = [batch] -> (0 <= L)%Z ->
  exists r, score_mask length (Some L) = Ok r /\
    shape r = [batch; 1; 1; Z.to_nat L] /\ wf r /\
    (forall i j li, get length [i] = Some li -> j < Z.to_nat L ->
       get r [i; 0; 0; j] =
         Some (if (Z.of_nat j <? li)%Z then f32_zero else f32_neg_inf)) /\
    Forall zero_or_neg_inf (data r).
Proof.
  intros Hs HL.
  destruct (sequence_mask_width _ _ _ Hs HL) as (m & Hm & Hsh & Hwf & Hget).
  unfold score_mask. rewrite Hm. simpl bind.
  destruct (masked_fill_same (zeros_like m) (logical_not m) f32_neg_inf
              eq_refl) as (r & Hr & Hrs & Hrw & Hrg).
  rewrite Hr. simpl bind. simpl in Hrs. rewrite Hsh in Hrs.
  rewrite (unsqueeze_1_2 r _ _ Hrs).
  eexists. split; [reflexivity|]. split; [reflexivity|].
  split; [|split].
  - unfold wf in *. simpl. rewrite Hrw, Hrs. simpl. lia.
  - intros i j li Hi Hj. rewrite get_unsqueeze_1_2.
    specialize (Hget i j li Hi Hj).
    assert (Hr' : get r [i; j] =
                  Some (if negb (Z.of_nat j <? li)%Z then f32_neg_inf
                        else f32_zero)).
    { apply Hrg.
      - unfold zeros_like. now rewrite get_tmap, Hget.
      - unfold logical_not. now rewrite get_tmap, Hget. }
    replace (mkT [batch; Z.to_nat L] (data r)) with r
      by (destruct r; simpl in *; now subst).
    rewrite Hr'. now destruct (Z.of_nat j <? li)%Z.
  - simpl. eapply masked_fill_Forall; [exact Hr| | |].
    + unfold zeros_like. simpl. apply Forall_map, Forall_forall.
      intros; now left.
    + now left.
    + now right.
Qed.

Lemma score_mask_from_bool_mask_spec (bool_mask : tensor bool) d0 rest :
  shape bool_mask = d0 :: rest ->
  exists p, score_mask_from_bool_mask bool_mask = Ok p /\
    shape p = d0 :: 1 :: 1 :: rest /\
    (forall i idx b, get bool_mask (i :: idx) = Some b ->
       get p (i :: 0 :: 0 :: idx) =
         Some (if b then f32_neg_inf else f32_zero)) /\
    Forall zero_or_neg_inf (data p).
Proof.
  intros Hs. unfold score_mask_from_bool_mask. rewrite Hs, zeros_Ok.
  cbn [bind].
  destruct (masked_fill_same
              (mkT (d0 :: rest) (repeat f32_zero (numel (d0 :: rest))))
              bool_mask f32_neg_inf (eq_sym Hs)) as (r & Hr & Hrs & Hrw & Hrg).
  rewrite Hr. simpl bind. simpl in Hrs.
  rewrite (unsqueeze_1_2 r _ _ Hrs).
  eexists. split; [reflexivity|]. split; [reflexivity|]. split.
  - intros i idx b Hb. rewrite get_unsqueeze_1_2.
    replace (mkT (d0 :: rest) (data r)) with r
      by (destruct r; simpl in *; now subst).
    apply Hrg; [|exact Hb].
    apply get_repeat. apply get_in_range in Hb. now rewrite Hs in Hb.
  - simpl. eapply masked_fill_Forall; [exact Hr| | |].
    + cbn [data]. apply Forall_forall. intros x Hx.
      apply repeat_spec in Hx. now left.
    + now left.
    + now right.
Qed.

(** C1 (as amended). [score_mask(lengths, max_length)] returns an additive
    bias of shape (batch, 1, 1, max_length) whose entry (i, 0, 0, j) is 0
    exactly when j < lengths[i] and -infinity otherwise.
    [score_mask_from_bool_mask(bool_mask)] inserts the same two singleton
    dimensions and returns -infinity at the positions where [bool_mask] is
    True and 0 where it is False.  Every entry of both outputs is 0 or
    -infinity, never a finite negative number. *)
Theorem score_masks_correct (length : tensor Z) (batch : nat) (L : Z)
    (bool_mask : tensor bool) (d0 : nat) (rest : list nat)
    (Hshape : shape length = [batch]) (HL : (0 <= L)%Z)
    (Hmask : shape bool_mask = d0 :: rest) :
  (exists r, score_mask length (Some L) = Ok r /\
     shape r = [batch; 1; 1; Z.to_nat L] /\ wf r /\
     (forall i j li, get length [i] = Some li -> j < Z.to_nat L ->
        exists v, get r [i; 0; 0; j] = Some v /\
          (v = f32_zero <-> (Z.of_nat j < li)%Z) /\
          (v = f32_neg_inf <-> ~ (Z.of_nat j < li)%Z)) /\
     (forall idx v, get r idx = Some v ->
        zero_or_neg_inf v /\ is_finite_negative v = false)) /\
  (exists p, score_mask_from_bool_mask bool_mask = Ok p /\
     shape p = d0 :: 1 :: 1 :: rest /\
     (forall i idx b, get bool_mask (i :: idx) = Some b ->
        get p (i :: 0 :: 0 :: idx) =
          Some (if b then f32_neg_inf else f32_zero)) /\
     (forall idx v, get p idx = Some v ->
        zero_or_neg_inf v /\ is_finite_negative v = false)).
Proof.
  split.
  - destruct (score_mask_width _ _ _ Hshape HL)
      as (r & Hr & Hs & Hwf & Hget & Hall).
    exists r. split; [exact Hr|]. split; [exact Hs|]. split; [exact Hwf|].
    split.
    + intros i j li Hi Hj. rewrite (Hget i j li Hi Hj).
      eexists. split; [reflexivity|].
      destruct (Z.of_nat j <? li)%Z eqn:E.
      * apply Z.ltb_lt in E. split; split; intros; try easy.
      * apply Z.ltb_ge in E. split; split; intros; try easy; lia.
    + intros idx v Hv. apply get_In in Hv.
      rewrite Forall_forall in Hall. specialize (Hall _ Hv).
      split; [exact Hall|]. now apply zero_or_neg_inf_not_finite.
  - destruct (score_mask_from_bool_mask_spec _ _ _ Hmask)
      as (p & Hp & Hs & Hget & Hall).
    exists p. split; [exact Hp|]. split; [exact Hs|]. split; [exact Hget|].
    intros idx v Hv. apply get_In in Hv.
    rewrite Forall_forall in Hall. specialize (Hall _ Hv).
    split; [exact Hall|]. now apply zero_or_neg_inf_not_finite.
Qed.

Lemma score_masks_correct_witness :
  (exists r, score_mask (vec [3; 5]%Z) (Some 5%Z) = Ok r /\
             shape r = [2; 1; 1; 5]) /\
  (exists p, score_mask_from_bool_mask (mkT [1; 2] [true; false]) = Ok p /\
             shape p = [1; 1; 1; 2]).
Proof.
  destruct (score_masks_correct (vec [3; 5]%Z) 2 5%Z
              (mkT [1; 2] [true; false]) 1 [2] eq_refl)
    as [(r & Hr & Hs & _) (p & Hp & Hps & _)];
    [lia | reflexivity |].
  split; [exists r | exists p]; split; assumption.
Defined.

(** C1 as stated fails on [score_mask_from_bool_mask]: a position the
    mask marks True receives -infinity, not 0. *)
Lemma score_mask_from_bool_mask_counterexample :
  let bool_mask := mkT [1; 2] [true; false] in
  exists p, score_mask_from_bool_mask bool_mask = Ok p /\
    get bool_mask [0; 0] = Some true /\
    get p [0; 0; 0; 0] = Some f32_neg_inf /\
    get p [0; 0; 0; 0] <> Some f32_zero /\
    get bool_mask [0; 1] = Some false /\
    get p [0; 0; 0; 1] = Some f32_zero.
Proof.
  eexists. split; [reflexivity|]. cbv. repeat split; discriminate.
Qed.

(** ** Broadcasting a row against a column *)

Lemma broadcast2_row_col {A B C} `{Default A} `{Default B}
    (f : A -> B -> C) (a : tensor A) (b : tensor B) (n m : nat) :
  shape a = [1; m] -> shape b = [n; 1] ->
  exists r, broadcast2 f a b = Ok r /\ shape r = [n; m] /\ wf r /\
    forall i j x y, get a [0; j] = Some x -> get b [i; 0] = Some y ->
      get r [i; j] = Some (f x y).
Proof.
  intros Ha Hb. unfold broadcast2, broadcast_shapes. rewrite Ha, Hb. simpl.
  rewrite bdim_1_r, bdim_1_l. simpl.
  eexists. split; [reflexivity|]. split; [reflexivity|].
  split; [apply wf_tabulate|].
  intros i j x y Hx Hy.
  pose proof (get_in_range _ _ _ Hx) as Rx.
  pose proof (get_in_range _ _ _ Hy) as Ry.
  rewrite Ha in Rx. rewrite Hb in Ry. simpl in Rx, Ry.
  rewrite andb_true_r in Rx. apply andb_true_iff in Ry as [Ry _].
  rewrite get_tabulate by (simpl; now rewrite Rx, Ry).
  apply Nat.ltb_lt in Rx, Ry.
  unfold bindex. simpl. rewrite !bsel_lt by assumption.
  now rewrite (get_at _ _ _ Hx), (get_at _ _ _ Hy).
Qed.

Lemma broadcast2_col_full {A B C} `{Default A} `{Default B}
    (f : A -> B -> C) (a : tensor A) (b : tensor B) (n m : nat) :
  shape a = [n; 1] -> shape b = [n; m] ->
  exists r, broadcast2 f a b = Ok r /\ shape r = [n; m] /\ wf r /\
    forall i j x y, get a [i; 0] = Some x -> get b [i; j] = Some y ->
      get r [i; j] = Some (f x y).
Proof.
  intros Ha Hb. unfold broadcast2, broadcast_shapes. rewrite Ha, Hb. simpl.
  rewrite bdim_1_l, bdim_same. simpl.
  eexists. split; [reflexivity|]. split; [reflexivity|].
  split; [apply wf_tabulate|].
  intros i j x y Hx Hy.
  pose proof (get_in_range _ _ _ Hy) as Ry.
  rewrite Hb in Ry. rewrite get_tabulate by exact Ry.
  simpl in Ry. rewrite andb_true_r in Ry.
  apply andb_true_iff in Ry as [Ri Rj]. apply Nat.ltb_lt in Ri, Rj.
  unfold bindex. simpl. rewrite !bsel_lt by assumption.
  now rewrite (get_at _ _ _ Hx), (get_at _ _ _ Hy).
Qed.

Lemma unsqueeze_0_vector {A} (t : tensor A) n :
  shape t = [n] ->
  exists u, unsqueeze 0 t = Ok u /\ shape u = [1; n] /\
    forall j, get u [0; j] = get t [j].
Proof.
  intros Hs. unfold unsqueeze, ndim. rewrite Hs. simpl.
  eexists. split; [reflexivity|]. split; [reflexivity|].
  intros j. unfold get. simpl. rewrite Hs. reflexivity.
Qed.

Lemma unsqueeze_1_vector {A} (t : tensor A) n :
  shape t = [n] ->
  exists u, unsqueeze 1 t = Ok u /\ shape u = [n; 1] /\
    forall i, get u [i; 0] = get t [i].
Proof.
  intros Hs. unfold unsqueeze, ndim. rewrite Hs. simpl.
  eexists. split; [reflexivity|]. split; [reflexivity|].
  intros i. unfold get. simpl. rewrite Hs. simpl.
  now rewrite !Nat.mul_1_r, !Nat.add_0_r.
Qed.

Lemma get_arange n j :
  j < n -> get (mkT [n] (map Z.of_nat (seq 0 n))) [j] = Some (Z.of_nat j).
Proof.
  intros H. unfold get. simpl. apply Nat.ltb_lt in H as H'. rewrite H'.
  simpl. rewrite Nat.mul_1_r, Nat.add_0_r, nth_error_map.
  now rewrite nth_error_seq_0.
Qed.

(** ** Position indices *)

Lemma pos_entry_lt st sc j max_pos : (pos_entry st sc j max_pos < max_pos)%Z.
Proof.
  unfold pos_entry. cbv zeta.
  destruct (Z.ltb_spec (wrap64 (st + f32_to_long
     (f32_mul (f32_of_Z (Z.of_nat j)) sc))) max_pos); lia.
Qed.

Lemma wrap64_id z : in_int64 z = true -> wrap64 z = z.
Proof.
  unfold in_int64, wrap64, int64_min, int64_max. intros H.
  apply andb_true_iff in H as [H1 H2]. apply Z.leb_le in H1, H2.
  rewrite Z.mod_small; lia.
Qed.

(** Multiplication by the float32 [1.0] is exact. *)
Lemma digits2_pos_shift23 m :
  Zpos (digits2_pos (8388608 * m)) = (Zpos (digits2_pos m) + 23)%Z.
Proof. cbn [Pos.mul digits2_pos]. lia. Qed.

Lemma f32_one_eq : f32_one = S754_finite false 8388608 (-23).
Proof. reflexivity. Qed.

Lemma f32_mul_one_r x :
  valid_binary prec32 emax32 x = true -> f32_mul x f32_one = x.
Proof.
  rewrite f32_one_eq. unfold f32_mul.
  destruct x as [s|s| |s m e]; intros Hv.
  - now destruct s.
  - now destruct s.
  - reflexivity.
  - unfold SFmul.
    unfold valid_binary, bounded in Hv. apply andb_true_iff in Hv as [Hc Hb].
    unfold canonical_mantissa in Hc. apply Z.eqb_eq in Hc.
    rewrite xorb_false_r, Pos.mul_comm.
    unfold binary_round_aux, shr_fexp, Zdigits2.
    rewrite digits2_pos_shift23.
    replace (Z.pos (digits2_pos m) + 23 + (e + -23))%Z
      with (Z.pos (digits2_pos m) + e)%Z by lia.
    rewrite Hc.
    replace (e - (e + -23))%Z with 23%Z by lia.
    cbn [shr shr_record_of_loc SpecFloat.iter_pos shr_1 Pos.mul orb shr_m
         loc_of_shr_record round_nearest_even].
    replace (e + -23 + 23)%Z with e by lia.
    cbn [Zdigits2]. rewrite Hc, Z.sub_diag. cbn [shr shr_m].
    now rewrite Hb.
Qed.

Lemma scale_mul_ones (start : tensor Z) (scale : scale_arg) batch :
  shape start = [batch] -> wf start -> scale_fits scale batch ->
  exists s, scale_mul scale (ones_like start) = Ok s /\ shape s = [batch] /\
    forall i sc, i < batch -> scale_at scale i = Some sc ->
      get s [i] = Some (f32_mul sc f32_one).
Proof.
  intros Hs Hwf Hfit. destruct scale as [x|s]; simpl in *.
  - eexists. split; [reflexivity|]. split; [exact Hs|].
    intros i sc Hi [= <-].
    destruct (get_total start [i] Hwf) as [v Hv].
    { rewrite Hs. simpl. apply Nat.ltb_lt in Hi. now rewrite Hi. }
    unfold ones_like. now rewrite !get_tmap, Hv.
  - destruct Hfit as [Hfit _].
    destruct (broadcast2_same f32_mul s (ones_like start))
      as (r & Hr & Hrs & _ & Hget).
    { simpl. congruence. }
    exists r. split; [exact Hr|]. split; [congruence|].
    intros i sc Hi Hsc. apply Hget; [exact Hsc|].
    destruct (get_total start [i] Hwf) as [v Hv].
    { rewrite Hs. simpl. apply Nat.ltb_lt in Hi. now rewrite Hi. }
    unfold ones_like. now rewrite get_tmap, Hv.
Qed.

Lemma to_int64_Ok z :
  (int64_min <= z <= int64_max)%Z -> to_int64 z = Ok z.
Proof.
  intros [H1 H2]. unfold to_int64, in_int64.
  apply Z.leb_le in H1, H2. now rewrite H1, H2.
Qed.

Lemma get_pos_embed_indices_spec (start : tensor Z) (batch : nat)
    (length max_pos : Z) (scale : scale_arg) :
  shape start = [batch] -> wf start -> (0 <= length)%Z ->
  (int64_min < max_pos <= int64_max)%Z -> scale_fits scale batch ->
  exists pos, get_pos_embed_indices start length max_pos scale = Ok pos /\
    shape pos = [batch; Z.to_nat length] /\ wf pos /\
    forall i j st sc,
      get start [i] = Some st -> scale_at scale i = Some sc ->
      j < Z.to_nat length ->
      get pos [i; j] = Some (pos_entry st (f32_mul sc f32_one) j max_pos).
Proof.
  intros Hs Hwf Hlen Hmax Hfit. unfold get_pos_embed_indices.
  destruct (scale_mul_ones start scale batch Hs Hwf Hfit)
    as (s & -> & Hss & Hsg). cbn [bind].
  destruct (unsqueeze_1_vector start batch Hs) as (start1 & -> & Hs1 & Hg1).
  cbn [bind]. unfold arange_f32. rewrite (arange_Ok _ Hlen). cbn [bind].
  set (ar := tmap f32_of_Z _).
  destruct (unsqueeze_0_vector ar (Z.to_nat length) eq_refl)
    as (ar0 & -> & Ha0 & Hga). cbn [bind].
  destruct (unsqueeze_1_vector s batch Hss) as (scale1 & -> & Hsc1 & Hgs).
  cbn [bind].
  destruct (broadcast2_row_col f32_mul ar0 scale1 _ _ Ha0 Hsc1)
    as (steps & -> & Hst & Hstw & Hgst). cbn [bind].
  destruct (broadcast2_col_full (fun a b => wrap64 (a + b)) start1
              (tmap f32_to_long steps) batch (Z.to_nat length) Hs1 Hst)
    as (pos & -> & Hps & Hpw & Hgp). cbn [bind].
  unfold lt_scalar. rewrite to_int64_Ok by lia. cbn [bind].
  unfold where_scalar. rewrite to_int64_Ok by (unfold int64_min in *; lia).
  cbn [bind].
  destruct (broadcast2_same (fun (b : bool) v => if b then v else (max_pos - 1)%Z)
              (tmap (fun v => (v <? max_pos)%Z) pos) pos eq_refl)
    as (r & -> & Hrs & Hrw & Hgr). cbn [bind].
  exists r. split; [reflexivity|]. simpl in Hrs.
  split; [congruence|]. split; [exact Hrw|].
  intros i j st sc Hst' Hsc Hj.
  assert (Hi : i < batch) by (now apply (get_vector start batch i st Hs)).
  assert (Hp : get pos [i; j] =
               Some (wrap64 (st + f32_to_long
                 (f32_mul (f32_of_Z (Z.of_nat j)) (f32_mul sc f32_one))))).
  { apply Hgp; [now rewrite Hg1|].
    rewrite get_tmap.
    rewrite (Hgst i j (f32_of_Z (Z.of_nat j)) (f32_mul sc f32_one)).
    - reflexivity.
    - rewrite Hga. unfold ar. rewrite get_tmap, get_arange by exact Hj.
      reflexivity.
    - rewrite Hgs. now apply Hsg. }
  rewrite (Hgr [i; j] _ _ (eq_trans (get_tmap _ _ _)
             (f_equal (option_map _) Hp)) Hp).
  reflexivity.
Qed.

Lemma in_range_2 n m idx :
  in_range [n; m] idx = true -> exists i j, idx = [i; j] /\ i < n /\ j < m.
Proof.
  destruct idx as [|i [|j [|k idx]]]; simpl; try discriminate.
  - now rewrite andb_false_r.
  - rewrite andb_true_r, andb_true_iff, !Nat.ltb_lt. eauto.
  - now rewrite !andb_false_r.
Qed.

(** C7. For a start vector of [batch] integers, a positive [length], a
    positive [max_pos] and a per-batch float32 scale (or a Python float),
    [get_pos_embed_indices] returns an integer tensor of shape
    (batch, length) whose entry (i, j) is start[i] plus the truncated
    float32 product j * scale[i], replaced by max_pos - 1 when it is not
    below max_pos; every entry is strictly below max_pos; and
    [get_pos_embed_indices(start=[0], length=4, max_pos=3)] is
    [[0, 1, 2, 2]]. *)
Theorem get_pos_embed_indices_correct (start : tensor Z) (batch : nat)
    (length max_pos : Z) (scale : scale_arg)
    (Hshape : shape start = [batch]) (Hwf : wf start)
    (Hlen : (0 < length)%Z) (Hmax : (0 < max_pos <= int64_max)%Z)
    (Hfit : scale_fits scale batch) :
  (exists pos, get_pos_embed_indices start length max_pos scale = Ok pos /\
     shape pos = [batch; Z.to_nat length] /\ wf pos /\
     (forall i j st sc,
        get start [i] = Some st -> scale_at scale i = Some sc ->
        valid_binary prec32 emax32 sc = true -> j < Z.to_nat length ->
        let raw := (st + f32_to_long (f32_mul (f32_of_Z (Z.of_nat j)) sc))%Z in
        exists p, get pos [i; j] = Some p /\
          p = pos_entry st sc j max_pos /\
          (in_int64 raw = true ->
             ((raw < max_pos)%Z -> p = raw) /\
             ((max_pos <= raw)%Z -> p = (max_pos - 1)%Z))) /\
     (forall idx p, get pos idx = Some p -> (p < max_pos)%Z)) /\
  get_pos_embed_indices (vec [0%Z]) 4 3 (ScaleFloat f64_one) =
    Ok (mkT [1; 4] [0; 1; 2; 2]%Z).
Proof.
  split; [|reflexivity].
  destruct (get_pos_embed_indices_spec start batch length max_pos scale)
    as (pos & Hpos & Hps & Hpw & Hget); try assumption; try lia.
  { unfold int64_min. lia. }
  exists pos. split; [exact Hpos|]. split; [exact Hps|]. split; [exact Hpw|].
  split.
  - intros i j st sc Hst Hsc Hv Hj raw.
    exists (pos_entry st sc j max_pos).
    split; [|split; [reflexivity|]].
    + rewrite (Hget i j st sc Hst Hsc Hj). now rewrite f32_mul_one_r.
    + intros Hraw. unfold pos_entry. cbv zeta. fold raw.
      rewrite (wrap64_id _ Hraw).
      destruct (Z.ltb_spec raw max_pos); split; intros; try reflexivity; lia.
  - intros idx p Hp. pose proof (get_in_range _ _ _ Hp) as Hr.
    rewrite Hps in Hr. apply in_range_2 in Hr as (i & j & -> & Hi & Hj).
    destruct (get_total start [i] Hwf) as [st Hst].
    { rewrite Hshape. simpl. apply Nat.ltb_lt in Hi. now rewrite Hi. }
    assert (Hsc : exists sc, scale_at scale i = Some sc).
    { destruct scale as [x|s]; simpl in *; [eauto|].
      destruct Hfit as [Hs Hw]. apply (get_total s [i] Hw).
      rewrite Hs. simpl. apply Nat.ltb_lt in Hi. now rewrite Hi. }
    destruct Hsc as [sc Hsc].
    rewrite (Hget i j st sc Hst Hsc Hj) in Hp. injection Hp as <-.
    apply pos_entry_lt.
Qed.

Lemma get_pos_embed_indices_correct_witness :
  exists pos,
    get_pos_embed_indices (vec [0; 10]%Z) 4 12
      (ScaleTensor (vec [f32_of_Z 2; f32_of_Z 3])) = Ok pos /\
    shape pos = [2; 4] /\
    forall idx p, get pos idx = Some p -> (p < 12)%Z.
Proof.
  destruct (get_pos_embed_indices_correct (vec [0; 10]%Z) 2 4 12
              (ScaleTensor (vec [f32_of_Z 2; f32_of_Z 3])))
    as [(pos & Hpos & Hs & _ & _ & Hlt) _].
  - reflexivity.
  - reflexivity.
  - lia.
  - unfold int64_max. lia.
  - split; reflexivity.
  - exists pos. split; [exact Hpos|]. split; [exact Hs|exact Hlt].
Defined.

(** ** Reshaping *)

Lemma existsb_lt_m1_of_nat s :
  existsb (fun d => d <? -1)%Z (map Z.of_nat s) = false.
Proof.
  induction s as [|a s IH]; simpl; [reflexivity|]. rewrite IH.
  destruct (Z.ltb_spec (Z.of_nat a) (-1)); [lia|reflexivity].
Qed.

Lemma filter_nonneg_of_nat s :
  filter (fun d => 0 <=? d)%Z (map Z.of_nat s) = map Z.of_nat s.
Proof.
  induction s as [|a s IH]; simpl; [reflexivity|]. rewrite IH.
  destruct (Z.leb_spec 0 (Z.of_nat a)); [reflexivity|lia].
Qed.

Lemma filter_m1_of_nat s :
  filter (fun d => d =? -1)%Z (map Z.of_nat s) = [].
Proof.
  induction s as [|a s IH]; simpl; [reflexivity|]. rewrite IH.
  destruct (Z.eqb_spec (Z.of_nat a) (-1)); [lia|reflexivity].
Qed.

Lemma map_to_nat_of_nat s : map Z.to_nat (map Z.of_nat s) = s.
Proof.
  induction s as [|a s IH]; simpl; [reflexivity|].
  now rewrite IH, Nat2Z.id.
Qed.

Lemma infer_size_explicit s n :
  infer_size (map Z.of_nat s) n =
  if n =? numel s then Ok s else Raise RuntimeError.
Proof.
  unfold infer_size.
  rewrite existsb_lt_m1_of_nat, filter_m1_of_nat, filter_nonneg_of_nat,
    map_to_nat_of_nat.
  reflexivity.
Qed.

Lemma view_Ok {A} (s : list nat) (t : tensor A) :
  numel s = numel (shape t) -> view s t = Ok (mkT s (data t)).
Proof.
  intros Hn. unfold view, reshape. rewrite infer_size_explicit, Hn.
  now rewrite Nat.eqb_refl.
Qed.

(** ** [reshape_for_broadcast] *)

Section RotaryFacts.

Context {F : Type} `{Arith F}.

Lemma assert_true b : b = true -> assert b = Ok tt.
Proof. now intros ->. Qed.

Lemma assert_false b : b = false -> assert b = Raise AssertionError.
Proof. now intros ->. Qed.

Lemma shape_eqb_neq s1 s2 : s1 <> s2 -> shape_eqb s1 s2 = false.
Proof.
  intros Hn. destruct (shape_eqb s1 s2) eqn:E; [|reflexivity].
  now apply shape_eqb_eq in E.
Qed.

Lemma reshape_for_broadcast_rank3 (freqs_cis x : tensor F) :
  ndim x = 3 ->
  reshape_for_broadcast freqs_cis x =
  if shape_eqb (shape freqs_cis) (shape x) then Ok freqs_cis
  else Raise AssertionError.
Proof.
  intros Hn. unfold reshape_for_broadcast. rewrite Hn. simpl.
  now destruct (shape_eqb (shape freqs_cis) (shape x)).
Qed.

Lemma reshape_for_broadcast_rank4 (freqs_cis x : tensor F) a b c d :
  shape x = [a; b; c; d] ->
  reshape_for_broadcast freqs_cis x =
  if shape_eqb (shape freqs_cis) [a; b; d]
  then Ok (mkT [a; b; 1; d] (data freqs_cis))
  else Raise AssertionError.
Proof.
  intros Hs. unfold reshape_for_broadcast, ndim. rewrite Hs. simpl.
  destruct (shape_eqb (shape freqs_cis) [a; b; d]) eqn:E; simpl;
    [|reflexivity].
  apply shape_eqb_eq in E. apply view_Ok. rewrite E. simpl. lia.
Qed.

Lemma reshape_for_broadcast_other (freqs_cis x : tensor F) :
  ndim x <> 3 -> ndim x <> 4 ->
  reshape_for_broadcast freqs_cis x =
  Raise (if ndim x <=? 1 then AssertionError else ValueError).
Proof.
  intros H3 H4. unfold reshape_for_broadcast.
  destruct (ndim x) as [|[|[|[|[|n]]]]]; simpl; try reflexivity;
    congruence.
Qed.

End RotaryFacts.

(** C6. [reshape_for_broadcast(freqs_cis, x)] succeeds exactly for [x] of
    rank 3 with [freqs_cis.shape == x.shape], where it returns the table
    unchanged, and for [x] of rank 4 with
    [freqs_cis.shape == (x.shape[0], x.shape[1], x.shape[3])], where it
    returns the table viewed with shape (x.shape[0], x.shape[1], 1,
    x.shape[3]); a rank-3 or rank-4 [x] with another table shape fails
    the assertion, and every [x] of another rank raises. *)
Theorem reshape_for_broadcast_correct {F : Type} `{Arith F}
    (freqs_cis x : tensor F) :
  (ndim x = 3 ->
     (shape freqs_cis = shape x ->
        reshape_for_broadcast freqs_cis x = Ok freqs_cis) /\
     (shape freqs_cis <> shape x ->
        reshape_for_broadcast freqs_cis x = Raise AssertionError)) /\
  (forall a b c d, shape x = [a; b; c; d] ->
     (shape freqs_cis = [a; b; d] ->
        exists r, reshape_for_broadcast freqs_cis x = Ok r /\
          shape r = [a; b; 1; d] /\ data r = data freqs_cis /\
          forall i j m, get r [i; j; 0; m] = get freqs_cis [i; j; m]) /\
     (shape freqs_cis <> [a; b; d] ->
        reshape_for_broadcast freqs_cis x = Raise AssertionError)) /\
  (ndim x <> 3 -> ndim x <> 4 -> raises (reshape_for_broadcast freqs_cis x)) /\
  ((exists r, reshape_for_broadcast freqs_cis x = Ok r) ->
     ndim x = 3 \/ ndim x = 4).
Proof.
  split; [|split; [|split]].
  - intros Hn. rewrite (reshape_for_broadcast_rank3 _ _ Hn). split.
    + intros ->. now rewrite shape_eqb_refl.
    + intros Hne. now rewrite shape_eqb_neq.
  - intros a b c d Hs. rewrite (reshape_for_broadcast_rank4 _ _ a b c d Hs).
    split.
    + intros Hf. rewrite Hf, shape_eqb_refl. eexists.
      split; [reflexivity|]. split; [reflexivity|]. split; [reflexivity|].
      intros i j m. unfold get. simpl. rewrite Hf. simpl.
      now rewrite !Nat.add_0_r, !Nat.mul_1_r.
    + intros Hne. now rewrite shape_eqb_neq.
  - intros H3 H4. rewrite reshape_for_broadcast_other by assumption.
    eexists. reflexivity.
  - intros [r Hr].
    destruct (Nat.eq_dec (ndim x) 3) as [|H3]; [now left|].
    destruct (Nat.eq_dec (ndim x) 4) as [|H4]; [now right|].
    rewrite reshape_for_broadcast_other in Hr by assumption. discriminate.
Qed.

Lemma reshape_for_broadcast_correct_witness :
  reshape_for_broadcast (mkT [1; 2; 3] [1; 2; 3; 4; 5; 6]%Z)
                        (mkT [1; 2; 3] [0; 0; 0; 0; 0; 0]%Z)
    = Ok (mkT [1; 2; 3] [1; 2; 3; 4; 5; 6]%Z) /\
  (exists r, reshape_for_broadcast (mkT [1; 2; 3] [1; 2; 3; 4; 5; 6]%Z)
               (mkT [1; 2; 1; 3] [0; 0; 0; 0; 0; 0]%Z) = Ok r /\
             shape r = [1; 2; 1; 3]) /\
  raises (reshape_for_broadcast (mkT [2] [1; 2]%Z) (mkT [1; 2] [0; 0]%Z)).
Proof.
  split; [|split].
  - apply (reshape_for_broadcast_correct
             (mkT [1; 2; 3] [1; 2; 3; 4; 5; 6]%Z)
             (mkT [1; 2; 3] [0; 0; 0; 0; 0; 0]%Z)); reflexivity.
  - destruct (reshape_for_broadcast_correct
                (mkT [1; 2; 3] [1; 2; 3; 4; 5; 6]%Z)
                (mkT [1; 2; 1; 3] [0; 0; 0; 0; 0; 0]%Z))
      as (_ & H4 & _).
    destruct (H4 1 2 1 3 eq_refl) as [Hok _].
    destruct (Hok eq_refl) as (r & Hr & Hs & _).
    exists r. split; assumption.
  - apply (reshape_for_broadcast_correct (mkT [2] [1; 2]%Z)
             (mkT [1; 2] [0; 0]%Z)); simpl; discriminate.
Defined.

(** ** Indices of a shape split in two *)

Lemma numel_app pre suf : numel (pre ++ suf) = numel pre * numel suf.
Proof.
  induction pre as [|d pre IH]; simpl; [lia|]. rewrite IH. lia.
Qed.

Lemma in_range_app pre suf : forall ip js,
  length ip = length pre ->
  in_range (pre ++ suf) (ip ++ js) = in_range pre ip && in_range suf js.
Proof.
  induction pre as [|d pre IH]; intros [|i ip] js Hl; simpl in *;
    try discriminate; [reflexivity|].
  rewrite IH by lia. now rewrite andb_assoc.
Qed.

Lemma offset_app pre suf : forall ip js,
  length ip = length pre ->
  offset (pre ++ suf) (ip ++ js) = offset pre ip * numel suf + offset suf js.
Proof.
  induction pre as [|d pre IH]; intros [|i ip] js Hl; simpl in *;
    try discriminate; [reflexivity|].
  rewrite IH by lia. rewrite numel_app. lia.
Qed.

Lemma in_range_snoc pre d idx :
  in_range (pre ++ [d]) idx = true ->
  exists ip j, idx = ip ++ [j] /\ in_range pre ip = true /\ j < d.
Proof.
  revert idx. induction pre as [|a pre IH]; intros idx Hr; simpl in *.
  - destruct idx as [|j [|? ?]]; simpl in Hr; try discriminate.
    + rewrite andb_true_r in Hr. apply Nat.ltb_lt in Hr.
      exists [], j. auto.
    + now rewrite andb_false_r in Hr.
  - destruct idx as [|i idx]; [discriminate|].
    apply andb_true_iff in Hr as [Hi Hr].
    destruct (IH _ Hr) as (ip & j & -> & Hp & Hj).
    exists (i :: ip), j. simpl. rewrite Hi, Hp. auto.
Qed.

Lemma get_tabulate_at {A} `{Default A} (t : tensor A) s
    (g : list nat -> list nat) idx :
  wf t -> in_range s idx = true -> in_range (shape t) (g idx) = true ->
  get (tabulate s (fun i => at_ t (g i))) idx = get t (g idx).
Proof.
  intros Hwf Hs Hg. rewrite get_tabulate by exact Hs.
  destruct (get_total t (g idx) Hwf Hg) as [v Hv].
  now rewrite Hv, (get_at _ _ _ Hv).
Qed.

Lemma get_eq_of {A} (d : list A) s1 s2 i1 i2 :
  in_range s1 i1 = in_range s2 i2 -> offset s1 i1 = offset s2 i2 ->
  get (mkT s1 d) i1 = get (mkT s2 d) i2.
Proof. unfold get. cbn [shape data]. now intros -> ->. Qed.

Ltac ltb_cases :=
  repeat match goal with
         | |- context [?a <? ?b] => destruct (Nat.ltb_spec a b)
         end;
  cbn [andb]; try reflexivity; try lia.

(** The same elements, read with the last dimension split in pairs. *)
Lemma get_split_last {A} (d : list A) pre k ip j r :
  length ip = length pre -> r < 2 ->
  get (mkT (pre ++ [k; 2]) d) (ip ++ [j; r]) =
  get (mkT (pre ++ [2 * k]) d) (ip ++ [2 * j + r]).
Proof.
  intros Hl Hr. apply get_eq_of.
  - rewrite !in_range_app by exact Hl. f_equal.
    cbn [in_range]. ltb_cases.
  - rewrite !offset_app by exact Hl.
    cbn [offset numel fold_right]. ring.
Qed.

Lemma removelast_snoc {A} (l : list A) x : removelast (l ++ [x]) = l.
Proof. apply removelast_last. Qed.

Lemma infer_size_split_last pre k :
  0 < numel pre ->
  infer_size (map Z.of_nat pre ++ [-1; 2]%Z) (numel (pre ++ [2 * k])) =
  Ok (pre ++ [k; 2]).
Proof.
  intros Hp.
  assert (E1 : existsb (fun d => d <? -1)%Z (map Z.of_nat pre ++ [-1; 2]%Z)
               = false).
  { rewrite existsb_app, existsb_lt_m1_of_nat. reflexivity. }
  assert (E2 : filter (fun d => 0 <=? d)%Z (map Z.of_nat pre ++ [-1; 2]%Z)
               = map Z.of_nat (pre ++ [2])).
  { rewrite filter_app, filter_nonneg_of_nat, map_app. reflexivity. }
  assert (E3 : filter (fun d => d =? -1)%Z (map Z.of_nat pre ++ [-1; 2]%Z)
               = [(-1)%Z]).
  { rewrite filter_app, filter_m1_of_nat. reflexivity. }
  assert (E4 : map (fun d => if (d =? -1)%Z then k else Z.to_nat d)
                 (map Z.of_nat pre ++ [-1; 2]%Z) = pre ++ [k; 2]).
  { rewrite map_app. f_equal.
    clear. induction pre as [|a pre IH]; simpl; [reflexivity|].
    rewrite IH. destruct (Z.eqb_spec (Z.of_nat a) (-1)); [lia|].
    now rewrite Nat2Z.id. }
  unfold infer_size. rewrite E1, E2, E3, map_to_nat_of_nat, !numel_app.
  change (length [(-1)%Z]) with 1. cbv iota.
  change (numel [2]) with 2. change (numel [2 * k]) with (2 * k * 1).
  replace (numel pre * (2 * k * 1)) with (k * (numel pre * 2)) by lia.
  rewrite Nat.Div0.mod_mul, Nat.div_mul by lia.
  destruct (Nat.ltb_spec 0 (numel pre * 2)); [|lia].
  cbn [andb Nat.eqb]. now rewrite E4.
Qed.

Lemma reshape_split_last {A} (x : tensor A) pre k :
  shape x = pre ++ [2 * k] -> 0 < numel pre ->
  reshape (map Z.of_nat (removelast (shape x)) ++ [-1; 2]%Z) x =
  Ok (mkT (pre ++ [k; 2]) (data x)).
Proof.
  intros Hs Hp. unfold reshape. rewrite Hs, removelast_snoc.
  now rewrite infer_size_split_last.
Qed.

(** ** Taking apart and putting together along the last dimension *)

Lemma norm_dim_m1 n : 0 < n -> norm_dim (-1) n = Ok (n - 1).
Proof.
  intros Hn. unfold norm_dim.
  destruct (Z.leb_spec (- Z.of_nat n) (-1)); [|lia].
  destruct (Z.ltb_spec (-1) (Z.of_nat n)); [|lia].
  cbn [andb]. change (-1 <? 0)%Z with true. cbv iota. f_equal. lia.
Qed.

Lemma firstn_length_app {A} (l1 l2 : list A) :
  firstn (length l1) (l1 ++ l2) = l1.
Proof.
  rewrite firstn_app, Nat.sub_diag, firstn_all. simpl. apply app_nil_r.
Qed.

Lemma skipn_length_app {A} (l1 l2 : list A) :
  skipn (length l1) (l1 ++ l2) = l2.
Proof.
  rewrite skipn_app, Nat.sub_diag, skipn_all. reflexivity.
Qed.

Lemma skipn_S_length_app {A} (l1 l2 : list A) x :
  skipn (S (length l1)) (l1 ++ x :: l2) = l2.
Proof.
  induction l1 as [|a l1 IH]; simpl; [reflexivity|]. exact IH.
Qed.

Lemma nth_length_app {A} (l1 l2 : list A) x d :
  nth (length l1) (l1 ++ x :: l2) d = x.
Proof.
  rewrite app_nth2, Nat.sub_diag by lia. reflexivity.
Qed.

Lemma unbind_last2 {A} `{Default A} (xr : tensor A) pre k :
  shape xr = pre ++ [k; 2] -> wf xr ->
  exists x_r x_i, unbind (-1) xr = Ok [x_r; x_i] /\
    shape x_r = pre ++ [k] /\ shape x_i = pre ++ [k] /\
    wf x_r /\ wf x_i /\
    forall idx, in_range (pre ++ [k]) idx = true ->
      get x_r idx = get xr (idx ++ [0]) /\
      get x_i idx = get xr (idx ++ [1]).
Proof.
  intros Hs Hwf.
  assert (Hs' : shape xr = (pre ++ [k]) ++ [2])
    by (now rewrite <- app_assoc).
  assert (Hd : ndim xr - 1 = length (pre ++ [k])).
  { unfold ndim. rewrite Hs, !length_app. simpl. lia. }
  unfold unbind. rewrite norm_dim_m1
    by (unfold ndim; rewrite Hs, length_app; simpl; lia).
  cbn [bind]. rewrite Hd.
  replace (nth (length (pre ++ [k])) (shape xr) 0) with 2
    by (rewrite Hs'; now rewrite nth_length_app).
  cbn [seq map]. unfold select. rewrite Hs'.
  rewrite firstn_length_app, skipn_S_length_app, app_nil_r.
  eexists _, _. split; [reflexivity|].
  split; [reflexivity|]. split; [reflexivity|].
  split; [apply wf_tabulate|]. split; [apply wf_tabulate|].
  intros idx Hr. pose proof (in_range_length _ _ Hr) as Hl.
  assert (Hg : forall i, i < 2 ->
    get (tabulate (pre ++ [k]) (fun idx0 =>
           at_ xr (firstn (length (pre ++ [k])) idx0 ++
                   i :: skipn (length (pre ++ [k])) idx0))) idx =
    get xr (idx ++ [i])).
  { intros i Hi.
    rewrite (get_tabulate_at xr (pre ++ [k])
               (fun idx0 => firstn (length (pre ++ [k])) idx0 ++
                            i :: skipn (length (pre ++ [k])) idx0));
      try assumption.
    - rewrite <- Hl, firstn_all, skipn_all. reflexivity.
    - rewrite <- Hl, firstn_all, skipn_all. rewrite Hs'.
      rewrite in_range_app by exact Hl. rewrite Hr. cbn [in_range andb].
      apply Nat.ltb_lt in Hi. now rewrite Hi. }
  split; apply Hg; lia.
Qed.

Lemma stack_last2 {A} `{Default A} (a b : tensor A) s :
  shape a = s -> shape b = s -> wf a -> wf b ->
  exists st, stack [a; b] (-1) = Ok st /\ shape st = s ++ [2] /\ wf st /\
    forall idx, in_range s idx = true ->
      get st (idx ++ [0]) = get a idx /\ get st (idx ++ [1]) = get b idx.
Proof.
  intros Ha Hb Hwa Hwb. unfold stack. cbn [forallb].
  rewrite Ha, Hb, shape_eqb_refl. cbn [andb].
  rewrite norm_dim_m1 by lia. cbn [bind].
  unfold ndim. rewrite Ha. replace (S (length s) - 1) with (length s) by lia.
  rewrite firstn_all, skipn_all.
  eexists. split; [reflexivity|]. cbn [shape length].
  split; [reflexivity|]. split; [apply wf_tabulate|].
  intros idx Hr. pose proof (in_range_length _ _ Hr) as Hl.
  assert (Hg : forall i t, i < 2 -> nth i [a; b] a = t -> wf t ->
            shape t = s ->
            get (tabulate (s ++ [2]) (fun idx0 =>
                   at_ (nth (nth (length s) idx0 0) [a; b] a)
                       (firstn (length s) idx0 ++
                        skipn (S (length s)) idx0))) (idx ++ [i]) =
            get t idx).
  { intros i t Hi Ht Hwt Hst.
    assert (Hri : in_range (s ++ [2]) (idx ++ [i]) = true).
    { rewrite in_range_app by exact Hl. rewrite Hr. cbn [in_range andb].
      apply Nat.ltb_lt in Hi. now rewrite Hi. }
    rewrite get_tabulate by exact Hri.
    rewrite <- Hl, nth_length_app, firstn_length_app, skipn_S_length_app.
    rewrite app_nil_r, Ht.
    destruct (get_total t idx Hwt) as [v Hv]; [now rewrite Hst|].
    now rewrite Hv, (get_at _ _ _ Hv). }
  split; [apply (Hg 0 a) | apply (Hg 1 b)]; auto.
Qed.

Lemma flatten_last2 {A} (st : tensor A) pre k :
  shape st = pre ++ [k; 2] ->
  flatten (length pre) st = Ok (mkT (pre ++ [k * 2]) (data st)).
Proof.
  intros Hs. unfold flatten, ndim. rewrite Hs, length_app.
  destruct (Nat.ltb_spec (length pre) (length pre + length [k; 2]));
    [|simpl in *; lia].
  rewrite firstn_length_app, skipn_length_app.
  cbn [numel fold_right]. now rewrite Nat.mul_1_r.
Qed.

Lemma chunk2_last_rank3 {A} `{Default A} (f : tensor A) b s k :
  shape f = [b; s; 2 * k] -> wf f ->
  exists fc fs, chunk f 2 (-1) = Ok [fc; fs] /\
    shape fc = [b; s; k] /\ shape fs = [b; s; k] /\ wf fc /\ wf fs /\
    forall i j m, i < b -> j < s -> m < k ->
      get fc [i; j; m] = get f [i; j; m] /\
      get fs [i; j; m] = get f [i; j; k + m].
Proof.
  intros Hs Hwf.
  assert (Hnar : forall st, st + k <= 2 * k ->
            shape (narrow 2 st k f) = [b; s; k] /\
            forall i j m, i < b -> j < s -> m < k ->
              get (narrow 2 st k f) [i; j; m] = get f [i; j; st + m]).
  { intros st Hst. unfold narrow. rewrite Hs. cbn [firstn skipn app].
    split; [reflexivity|]. intros i j m Hi Hj Hm.
    rewrite (get_tabulate_at f [b; s; k]
               (fun idx => firstn 2 idx ++ (st + nth 2 idx 0) :: skipn 3 idx));
      try assumption.
    - reflexivity.
    - cbn [in_range]. ltb_cases.
    - rewrite Hs. cbn [firstn skipn app nth in_range]. ltb_cases. }
  unfold chunk, ndim. rewrite Hs. cbn [length Nat.eqb orb].
  rewrite norm_dim_m1 by lia. cbn [bind Nat.sub nth].
  assert (E1 : (2 * k + 2 - 1) / 2 = k).
  { replace (2 * k + 2 - 1) with (k * 2 + 1) by lia.
    rewrite Nat.div_add_l by lia. now rewrite Nat.add_0_r. }
  rewrite E1.
  destruct (Nat.eqb_spec k 0) as [-> | Hk].
  - cbn [repeat]. destruct (Hnar 0) as [Hsh _]; [lia|].
    eexists _, _. split; [reflexivity|]. split; [exact Hsh|].
    split; [exact Hsh|]. split; [apply wf_tabulate|].
    split; [apply wf_tabulate|]. intros; lia.
  - assert (E2 : Nat.max ((2 * k + k - 1) / k) 1 = 2).
    { replace (2 * k + k - 1) with (2 * k + (k - 1)) by lia.
      rewrite Nat.div_add_l by lia. rewrite Nat.div_small by lia.
      reflexivity. }
    rewrite E2. cbn [seq map].
    replace (Nat.min k (2 * k - 0 * k)) with k by lia.
    replace (Nat.min k (2 * k - 1 * k)) with k by lia.
    replace (0 * k) with 0 by lia. replace (1 * k) with k by lia.
    destruct (Hnar 0) as [Hs0 Hg0]; [lia|].
    destruct (Hnar k) as [Hs1 Hg1]; [lia|].
    eexists _, _. split; [reflexivity|]. split; [exact Hs0|].
    split; [exact Hs1|]. split; [apply wf_tabulate|].
    split; [apply wf_tabulate|].
    intros i j m Hi Hj Hm. split; [now apply Hg0 | now apply Hg1].
Qed.

Lemma broadcast2_heads {A B C} `{Default A} `{Default B}
    (f : A -> B -> C) (x : tensor A) (t : tensor B) b s h k :
  shape x = [b; s; h; k] -> shape t = [b; s; 1; k] ->
  exists r, broadcast2 f x t = Ok r /\ shape r = [b; s; h; k] /\ wf r /\
    forall idx u v, get x idx = Some u ->
      get t [nth 0 idx 0; nth 1 idx 0; 0; nth 3 idx 0] = Some v ->
      get r idx = Some (f u v).
Proof.
  intros Hx Ht. unfold broadcast2, broadcast_shapes. rewrite Hx, Ht.
  cbn [rev app bshape_rev].
  rewrite !bdim_same, bdim_1_r. cbn [option_map rev app].
  eexists. split; [reflexivity|]. split; [reflexivity|].
  split; [apply wf_tabulate|].
  intros idx u v Hu Hv. pose proof (get_in_range _ _ _ Hu) as Hr.
  rewrite Hx in Hr. rewrite get_tabulate by exact Hr.
  rewrite bindex_same by exact Hr.
  destruct idx as [|i [|j [|l [|m [|? ?]]]]]; cbn [in_range] in Hr;
    try discriminate;
    try (rewrite ?andb_false_r in Hr; discriminate).
  cbn [nth] in Hv.
  apply andb_true_iff in Hr as [Hi Hr]. apply andb_true_iff in Hr as [Hj Hr].
  apply andb_true_iff in Hr as [Hl Hr]. apply andb_true_iff in Hr as [Hm _].
  apply Nat.ltb_lt in Hi, Hj, Hl, Hm.
  unfold bindex. cbn [length Nat.sub skipn bindex_aligned Nat.eqb].
  rewrite !bsel_lt by assumption.
  now rewrite (get_at _ _ _ Hu), (get_at _ _ _ Hv).
Qed.

(** ** The rotation *)

Section RotateTail.

Context {F : Type} `{Arith F}.

Variables (pre : list nat) (k : nat) (T : list nat)
          (fidx : list nat -> list nat).

(** How a tensor of shape [pre ++ [k]] reads a table of shape [T]. *)
Hypothesis onto : forall (f : F -> F -> F) (x t : tensor F),
  shape x = pre ++ [k] -> shape t = T ->
  exists r, broadcast2 f x t = Ok r /\ shape r = pre ++ [k] /\ wf r /\
    forall idx u v, get x idx = Some u -> get t (fidx idx) = Some v ->
      get r idx = Some (f u v).

Lemma rotate_tail (x_r x_i fc fs : tensor F) :
  shape x_r = pre ++ [k] -> shape x_i = pre ++ [k] ->
  shape fc = T -> shape fs = T ->
  exists y,
    (rc <- mul x_r fc ;;
     is_ <- mul x_i fs ;;
     x_out_r <- sub rc is_ ;;
     rs <- mul x_r fs ;;
     ic <- mul x_i fc ;;
     x_out_i <- add rs ic ;;
     st <- stack [x_out_r; x_out_i] (-1) ;;
     flatten (ndim x_out_r - 1) st) = Ok y /\
    shape y = pre ++ [2 * k] /\ wf y /\
    forall ip m a c co sn,
      get x_r (ip ++ [m]) = Some a -> get x_i (ip ++ [m]) = Some c ->
      get fc (fidx (ip ++ [m])) = Some co ->
      get fs (fidx (ip ++ [m])) = Some sn ->
      get y (ip ++ [2 * m]) = Some (f_sub (f_mul a co) (f_mul c sn)) /\
      get y (ip ++ [2 * m + 1]) = Some (f_add (f_mul a sn) (f_mul c co)).
Proof.
  intros Hxr Hxi Hfc Hfs. unfold mul, sub, add.
  destruct (onto f_mul x_r fc Hxr Hfc) as (rc & -> & Hrc & Wrc & Grc).
  cbn [bind].
  destruct (onto f_mul x_i fs Hxi Hfs) as (is_ & -> & His & Wis & Gis).
  cbn [bind].
  destruct (broadcast2_same f_sub rc is_) as (xor & -> & Hxor & Wxor & Gxor);
    [congruence|]. cbn [bind].
  destruct (onto f_mul x_r fs Hxr Hfs) as (rs & -> & Hrs & Wrs & Grs).
  cbn [bind].
  destruct (onto f_mul x_i fc Hxi Hfc) as (ic & -> & Hic & Wic & Gic).
  cbn [bind].
  destruct (broadcast2_same f_add rs ic) as (xoi & -> & Hxoi & Wxoi & Gxoi);
    [congruence|]. cbn [bind].
  rewrite Hrc in Hxor. rewrite Hrs in Hxoi.
  destruct (stack_last2 xor xoi (pre ++ [k]) Hxor Hxoi Wxor Wxoi)
    as (st & -> & Hst & Wst & Gst). cbn [bind].
  assert (Hst' : shape st = pre ++ [k; 2]) by (now rewrite Hst, <- app_assoc).
  unfold ndim. rewrite Hxor, length_app. cbn [length].
  replace (length pre + 1 - 1) with (length pre) by lia.
  rewrite (flatten_last2 st pre k Hst').
  replace (k * 2) with (2 * k) by lia.
  eexists. split; [reflexivity|]. split; [reflexivity|]. split.
  { unfold wf in *. cbn [shape data]. rewrite Wst, Hst'.
    rewrite !numel_app. cbn [numel fold_right]. lia. }
  intros ip m a c co sn Ha Hc Hco Hsn.
  pose proof (get_in_range _ _ _ Ha) as Hr. rewrite Hxr in Hr.
  assert (Hl : length ip = length pre).
  { apply in_range_length in Hr. rewrite !length_app in Hr. simpl in Hr.
    lia. }
  destruct (Gst _ Hr) as [G0 G1].
  assert (E : st = mkT (pre ++ [k; 2]) (data st)).
  { clear - Hst'. destruct st. cbn [shape data] in *. now rewrite Hst'. }
  rewrite <- !app_assoc in G0, G1. cbn [app] in G0, G1.
  rewrite E in G0, G1.
  replace (2 * m) with (2 * m + 0) at 1 by lia.
  rewrite <- !get_split_last by (assumption || lia).
  rewrite G0, G1. split.
  - apply Gxor; [now apply Grc | now apply Gis].
  - apply Gxoi; [now apply Grs | now apply Gic].
Qed.

End RotateTail.

Section RotarySpec.

Context {F : Type} `{Arith F}.

Lemma onto_same (s : list nat) :
  forall (f : F -> F -> F) (x t : tensor F),
  shape x = s -> shape t = s ->
  exists r, broadcast2 f x t = Ok r /\ shape r = s /\ wf r /\
    forall idx u v, get x idx = Some u -> get t idx = Some v ->
      get r idx = Some (f u v).
Proof.
  intros f x t Hx Ht.
  destruct (broadcast2_same f x t) as (r & Hr & Hs & Hw & Hg);
    [congruence|].
  exists r. rewrite <- Hx. auto.
Qed.

Lemma in_range_len2 b s ip :
  in_range [b; s] ip = true ->
  exists i j, ip = [i; j] /\ i < b /\ j < s.
Proof. apply in_range_2. Qed.

Lemma in_range_len3 b s h ip :
  in_range [b; s; h] ip = true ->
  exists i j l, ip = [i; j; l] /\ i < b /\ j < s /\ l < h.
Proof.
  destruct ip as [|i [|j [|l [|? ?]]]]; cbn [in_range];
    rewrite ?andb_false_r; try discriminate.
  rewrite andb_true_r, !andb_true_iff, !Nat.ltb_lt. intros (? & ? & ?).
  eauto 8.
Qed.

(** What [apply_rotary_emb] computes on a rank-3 or rank-4 input: every
    pair (x[.., 2m], x[.., 2m+1]) is rotated by the pair
    (freqs_cis[i, j, m], freqs_cis[i, j, k + m]). *)
Lemma apply_rotary_emb_spec (x freqs_cis : tensor F) pre b s k :
  wf x -> wf freqs_cis ->
  shape x = pre ++ [2 * k] -> 0 < numel pre ->
  shape freqs_cis = [b; s; 2 * k] ->
  (pre = [b; s] \/ exists h, pre = [b; s; h]) ->
  exists y, apply_rotary_emb x (Some freqs_cis) = Ok y /\
    shape y = shape x /\ wf y /\
    forall ip m a c co sn,
      get x (ip ++ [2 * m]) = Some a ->
      get x (ip ++ [2 * m + 1]) = Some c ->
      get freqs_cis [nth 0 ip 0; nth 1 ip 0; m] = Some co ->
      get freqs_cis [nth 0 ip 0; nth 1 ip 0; k + m] = Some sn ->
      get y (ip ++ [2 * m]) = Some (f_sub (f_mul a co) (f_mul c sn)) /\
      get y (ip ++ [2 * m + 1]) = Some (f_add (f_mul a sn) (f_mul c co)).
Proof.
  intros Wx Wf Hx Hp Hf Hrank. unfold apply_rotary_emb.
  rewrite (reshape_split_last x pre k Hx Hp). cbn [bind].
  assert (Wxr : wf (mkT (pre ++ [k; 2]) (data x))).
  { unfold wf in *. cbn [shape data]. rewrite Wx, Hx, !numel_app.
    cbn [numel fold_right]. lia. }
  destruct (unbind_last2 (mkT (pre ++ [k; 2]) (data x)) pre k eq_refl Wxr)
    as (x_r & x_i & -> & Hxr & Hxi & Wr & Wi & Gx). cbn [bind unpack2].
  destruct (chunk2_last_rank3 freqs_cis b s k Hf Wf)
    as (fc & fs & -> & Hfc & Hfs & Wfc & Wfs & Gf). cbn [bind unpack2].
  assert (Ex : x = mkT (pre ++ [2 * k]) (data x)).
  { clear - Hx. destruct x. cbn [shape data] in *. now rewrite Hx. }
  (* the entries of the two halves of [x] *)
  assert (Gx' : forall ip m a c,
            get x (ip ++ [2 * m]) = Some a ->
            get x (ip ++ [2 * m + 1]) = Some c ->
            length ip = length pre /\ in_range pre ip = true /\ m < k /\
            get x_r (ip ++ [m]) = Some a /\ get x_i (ip ++ [m]) = Some c).
  { intros ip m a c Ha Hc. pose proof (get_in_range _ _ _ Ha) as Hr.
    rewrite Hx in Hr.
    assert (Hl : length ip = length pre).
    { apply in_range_length in Hr. rewrite !length_app in Hr.
      simpl in Hr. lia. }
    rewrite in_range_app in Hr by exact Hl.
    apply andb_true_iff in Hr as [Hr Hm]. cbn [in_range] in Hm.
    rewrite andb_true_r in Hm. apply Nat.ltb_lt in Hm.
    assert (Hmk : m < k) by lia.
    split; [exact Hl|]. split; [exact Hr|]. split; [exact Hmk|].
    assert (Hrm : in_range (pre ++ [k]) (ip ++ [m]) = true).
    { rewrite in_range_app by exact Hl. rewrite Hr. cbn [in_range].
      apply Nat.ltb_lt in Hmk. now rewrite Hmk. }
    destruct (Gx _ Hrm) as [G0 G1].
    rewrite <- !app_assoc in G0, G1. cbn [app] in G0, G1.
    rewrite get_split_last in G0, G1 by (assumption || lia).
    rewrite <- Ex in G0, G1. rewrite Nat.add_0_r in G0.
    rewrite G0, G1. auto. }
  destruct Hrank as [-> | [h ->]].
  - (* rank 3: the table has the shape of [x_r] *)
    rewrite !reshape_for_broadcast_rank3
      by (unfold ndim; now rewrite Hxr).
    rewrite Hxr, Hfc, Hfs. cbn [app]. rewrite !shape_eqb_refl. cbn [bind].
    destruct (rotate_tail [b; s] k [b; s; k] (fun idx => idx)
                (onto_same [b; s; k]) x_r x_i fc fs Hxr Hxi Hfc Hfs)
      as (y & -> & Hy & Wy & Gy).
    exists y. split; [reflexivity|]. split; [now rewrite Hx|].
    split; [exact Wy|].
    intros ip m a c co sn Ha Hc Hco Hsn.
    destruct (Gx' ip m a c Ha Hc) as (Hl & Hr & Hm & Hra & Hic).
    destruct (in_range_len2 _ _ _ Hr) as (i & j & -> & Hi & Hj).
    cbn [nth] in Hco, Hsn.
    destruct (Gf i j m Hi Hj Hm) as [Gc Gs].
    apply Gy; try assumption; cbn [app]; congruence.
  - (* rank 4: the table is read at head 0 *)
    cbn [app] in Hxr, Hxi.
    rewrite !(reshape_for_broadcast_rank4 _ x_r b s h k Hxr).
    rewrite Hfc, Hfs, !shape_eqb_refl. cbn [bind].
    destruct (rotate_tail [b; s; h] k [b; s; 1; k]
                (fun idx => [nth 0 idx 0; nth 1 idx 0; 0; nth 3 idx 0])
                (fun f x t Hx0 Ht0 =>
                   broadcast2_heads f x t b s h k Hx0 Ht0)
                x_r x_i (mkT [b; s; 1; k] (data fc))
                (mkT [b; s; 1; k] (data fs)) Hxr Hxi eq_refl eq_refl)
      as (y & -> & Hy & Wy & Gy).
    exists y. split; [reflexivity|]. split; [now rewrite Hx|].
    split; [exact Wy|].
    intros ip m a c co sn Ha Hc Hco Hsn.
    destruct (Gx' ip m a c Ha Hc) as (Hl & Hr & Hm & Hra & Hic).
    destruct (in_range_len3 _ _ _ _ Hr) as (i & j & l & -> & Hi & Hj & Hl').
    cbn [nth] in Hco, Hsn.
    destruct (Gf i j m Hi Hj Hm) as [Gc Gs].
    assert (Hv : forall (t : tensor F),
              shape t = [b; s; k] ->
              get (mkT [b; s; 1; k] (data t)) [i; j; 0; m] =
              get t [i; j; m]).
    { intros t Ht. destruct t as [ts td]. cbn [shape data] in *. subst ts.
      apply get_eq_of.
      - cbn [in_range]. ltb_cases.
      - cbn [offset numel fold_right]. ring. }
    apply Gy; try assumption; cbn [app nth].
    + rewrite (Hv fc Hfc). congruence.
    + rewrite (Hv fs Hfs). congruence.
Qed.

End RotarySpec.

(** C2. In exact real arithmetic, for an input [x] of rank 3 or 4 with an
    even last dimension and non-empty leading dimensions and a matching
    cosine/sine table, [apply_rotary_emb] returns a tensor of the shape of
    [x] in which every consecutive pair has the squared norm it had in
    [x]: x_out[.., 2m]^2 + x_out[.., 2m+1]^2 = x[.., 2m]^2 + x[.., 2m+1]^2. *)
Theorem apply_rotary_emb_preserves_norm
    (x freqs_cis : tensor R) (pre : list nat) (b s k : nat)
    (Wx : wf x) (Wf : wf freqs_cis)
    (Hx : shape x = pre ++ [2 * k]) (Hpre : 0 < numel pre)
    (Hf : shape freqs_cis = [b; s; 2 * k])
    (Hrank : pre = [b; s] \/ exists h, pre = [b; s; h])
    (Hcis : cis_table freqs_cis b s k) :
  exists y, apply_rotary_emb x (Some freqs_cis) = Ok y /\
    shape y = shape x /\ wf y /\
    forall ip m, in_range pre ip = true -> m < k ->
      exists a c a' c',
        get x (ip ++ [2 * m]) = Some a /\
        get x (ip ++ [2 * m + 1]) = Some c /\
        get y (ip ++ [2 * m]) = Some a' /\
        get y (ip ++ [2 * m + 1]) = Some c' /\
        (a' * a' + c' * c' = a * a + c * c)%R.
Proof.
  destruct (apply_rotary_emb_spec x freqs_cis pre b s k Wx Wf Hx Hpre Hf Hrank)
    as (y & Hy & Hsy & Wy & Gy).
  exists y. split; [exact Hy|]. split; [exact Hsy|]. split; [exact Wy|].
  intros ip m Hr Hm.
  pose proof (in_range_length _ _ Hr) as Hl.
  assert (Hin : forall r, r < 2 ->
            in_range (shape x) (ip ++ [2 * m + r]) = true).
  { intros r Hr2. rewrite Hx, in_range_app by exact Hl. rewrite Hr.
    cbn [in_range]. ltb_cases. }
  destruct (get_total x _ Wx (Hin 0 ltac:(lia))) as [a Ha].
  destruct (get_total x _ Wx (Hin 1 ltac:(lia))) as [c Hc].
  rewrite Nat.add_0_r in Ha.
  assert (Hij : nth 0 ip 0 < b /\ nth 1 ip 0 < s).
  { destruct Hrank as [-> | [h ->]].
    - destruct (in_range_len2 _ _ _ Hr) as (i & j & -> & ? & ?). now simpl.
    - destruct (in_range_len3 _ _ _ _ Hr) as (i & j & l & -> & ? & ? & ?).
      now simpl. }
  destruct Hij as [Hi Hj].
  destruct (Hcis _ _ m Hi Hj Hm) as (theta & Hco & Hsn).
  destruct (Gy ip m a c _ _ Ha Hc Hco Hsn) as [G0 G1].
  exists a, c. eexists _, _.
  split; [exact Ha|]. split; [exact Hc|]. split; [exact G0|].
  split; [exact G1|].
  pose proof (sin2_cos2 theta) as Hsc. unfold Rsqr in Hsc.
  cbn [f_sub f_add f_mul Arith_R]. nra.
Qed.

Lemma apply_rotary_emb_preserves_norm_witness :
  exists y,
    apply_rotary_emb (mkT [1; 1; 2] [3; 4]%R)
      (Some (mkT [1; 1; 2] [cos 1; sin 1]%R)) = Ok y /\
    shape y = [1; 1; 2].
Proof.
  destruct (apply_rotary_emb_preserves_norm
              (mkT [1; 1; 2] [3; 4]%R) (mkT [1; 1; 2] [cos 1; sin 1]%R)
              [1; 1] 1 1 1) as (y & Hy & Hs & _).
  - reflexivity.
  - reflexivity.
  - reflexivity.
  - simpl. lia.
  - reflexivity.
  - now left.
  - intros i j m Hi Hj Hm.
    replace i with 0 by lia. replace j with 0 by lia. replace m with 0 by lia.
    exists 1%R. split; reflexivity.
  - exists y. split; [exact Hy|exact Hs].
Defined.

(** ** The table of cosines and sines *)

Lemma firstn_seq a : forall s n, firstn a (seq s n) = seq s (Nat.min a n).
Proof.
  induction a as [|a IH]; intros s [|n]; simpl; try reflexivity.
  now rewrite IH.
Qed.

Lemma get_vector_map {A} (g : nat -> A) n i :
  i < n -> get (mkT [n] (map g (seq 0 n))) [i] = Some (g i).
Proof.
  intros Hi. unfold get. cbn [shape data in_range offset numel fold_right].
  apply Nat.ltb_lt in Hi as Hi'. rewrite Hi'. cbn [andb].
  rewrite Nat.mul_1_r, Nat.add_0_r, nth_error_map, nth_error_seq_0 by exact Hi.
  reflexivity.
Qed.

Lemma arange3_even_steps dim :
  (0 <= dim)%Z ->
  arange3 0 dim 2 =
  Ok (mkT [Z.to_nat ((dim + 1) / 2)]
        (map (fun k => (0 + Z.of_nat k * 2)%Z)
             (seq 0 (Z.to_nat ((dim + 1) / 2))))).
Proof.
  intros Hd. unfold arange3. cbn [Z.eqb Z.ltb Z.compare andb orb Z.sgn].
  destruct (Z.ltb_spec dim 0); [lia|]. cbn [andb orb].
  replace (dim - 0 + 2 - 1)%Z with (dim + 1)%Z by lia. reflexivity.
Qed.

Lemma slice_to_vector {A} (g : nat -> A) n (k : Z) :
  (0 <= k)%Z -> Z.to_nat k <= n ->
  slice_to k (mkT [n] (map g (seq 0 n))) =
  Ok (mkT [Z.to_nat k] (map g (seq 0 (Z.to_nat k)))).
Proof.
  intros Hk Hn. unfold slice_to. cbn [shape data numel fold_right].
  destruct (Z.ltb_spec k 0); [lia|].
  rewrite Nat.min_l by exact Hn.
  rewrite Nat.mul_1_r, firstn_map, firstn_seq, Nat.min_l by exact Hn.
  reflexivity.
Qed.

Section PrecomputeSpec.

Context {F : Type} `{Arith F} `{Kernels F}.

Lemma precompute_freqs_cis_spec (dim end_ : Z) (theta rescale : F) :
  (0 <= dim)%Z -> dim <> 2%Z -> (0 <= end_)%Z ->
  let h := Z.to_nat (dim / 2) in
  let e := Z.to_nat end_ in
  exists t, precompute_freqs_cis dim end_ theta rescale = Ok t /\
    shape t = [e; h + h] /\ wf t /\
    forall r i, r < e -> i < h ->
      get t [r; i] =
        Some (f_cos (f_mul (f_of_Z (Z.of_nat r))
                           (rotary_freq dim theta rescale i))) /\
      get t [r; h + i] =
        Some (f_sin (f_mul (f_of_Z (Z.of_nat r))
                           (rotary_freq dim theta rescale i))).
Proof.
  intros Hd H2 He h e. unfold precompute_freqs_cis, py_truediv.
  destruct (Z.eqb_spec (dim - 2) 0); [lia|]. cbn [bind].
  rewrite (arange3_even_steps dim Hd). cbn [bind].
  assert (Hh : Z.to_nat (dim / 2) <= Z.to_nat ((dim + 1) / 2)).
  { apply Z2Nat.inj_le.
    - apply Z.div_pos; lia.
    - apply Z.div_pos; lia.
    - apply Z.div_le_mono; lia. }
  rewrite slice_to_vector by (try exact Hh; apply Z.div_pos; lia).
  cbn [bind]. rewrite (arange_Ok end_ He). cbn [bind].
  fold h. fold e. unfold outer, tmap. cbn [shape data bind].
  rewrite !map_map.
  set (fr := fun i : nat => f_div f_one _).
  set (tb := tabulate [e; h] _).
  assert (Gt : forall r i, r < e -> i < h ->
            get tb [r; i] =
              Some (f_mul (f_of_Z (Z.of_nat r))
                          (rotary_freq dim theta rescale i))).
  { intros r i Hr Hi. unfold tb. rewrite get_tabulate
      by (cbn [in_range]; ltb_cases).
    cbn [nth].
    rewrite (get_at _ _ _ (get_vector_map (fun x => f_of_Z (Z.of_nat x)) e r Hr)).
    rewrite (get_at _ _ _ (get_vector_map fr h i Hi)).
    unfold fr, rotary_freq. cbv zeta.
    now replace (0 + Z.of_nat i * 2)%Z with (2 * Z.of_nat i)%Z by lia. }
  assert (Hstb : shape tb = [e; h]) by reflexivity.
  unfold cat2, ndim. cbn [shape data]. rewrite !Hstb. cbn [length].
  rewrite norm_dim_m1 by lia. cbn [bind Nat.sub nth firstn skipn app].
  rewrite shape_eqb_refl, Nat.eqb_refl. cbn [andb].
  eexists. split; [reflexivity|]. split; [reflexivity|].
  split; [apply wf_tabulate|].
  intros r i Hr Hi. split.
  - rewrite get_tabulate by (cbn [in_range]; ltb_cases).
    cbn [nth]. destruct (Nat.ltb_spec i h); [|lia].
    assert (G : get (mkT [e; h] (map f_cos (data tb))) [r; i] =
                Some (f_cos (f_mul (f_of_Z (Z.of_nat r))
                               (rotary_freq dim theta rescale i)))).
    { change (mkT [e; h] (map f_cos (data tb))) with (tmap f_cos tb).
      now rewrite get_tmap, Gt. }
    now rewrite (get_at _ _ _ G).
  - rewrite get_tabulate by (cbn [in_range]; ltb_cases).
    cbn [nth firstn skipn app]. destruct (Nat.ltb_spec (h + i) h); [lia|].
    replace (h + i - h) with i by lia.
    assert (G : get (mkT [e; h] (map f_sin (data tb))) [r; i] =
                Some (f_sin (f_mul (f_of_Z (Z.of_nat r))
                               (rotary_freq dim theta rescale i)))).
    { change (mkT [e; h] (map f_sin (data tb))) with (tmap f_sin tb).
      now rewrite get_tmap, Gt. }
    now rewrite (get_at _ _ _ G).
Qed.

Lemma precompute_freqs_cis_dim2 (end_ : Z) (theta rescale : F) :
  precompute_freqs_cis 2 end_ theta rescale = Raise ZeroDivisionError.
Proof. reflexivity. Qed.

End PrecomputeSpec.

(** C3 (as amended).  In exact real arithmetic, for every positive [dim]
    other than 2, every [end >= 0] and positive [theta] and rescale
    factor, [precompute_freqs_cis] returns a tensor of shape
    (end, 2 * (dim // 2)), which is (end, dim) when [dim] is even, whose
    row t holds cos(t * f_i) for i < dim // 2 followed by sin(t * f_i),
    with f_i = 1 / theta'^(2i/dim) and
    theta' = theta * rescale^(dim/(dim-2)); every entry lies in [-1, 1]. *)
Theorem precompute_freqs_cis_correct (dim end_ : Z) (theta rescale : R)
    (Hdim : (0 < dim)%Z) (H2 : dim <> 2%Z) (Hend : (0 <= end_)%Z)
    (Htheta : (0 < theta)%R) (Hrescale : (0 < rescale)%R) :
  let h := Z.to_nat (dim / 2) in
  let e := Z.to_nat end_ in
  let theta' := (theta * Rpower rescale (IZR dim / IZR (dim - 2)))%R in
  let f := fun i : nat =>
    (1 / Rpower theta' (IZR (2 * Z.of_nat i) / IZR dim))%R in
  exists t, precompute_freqs_cis dim end_ theta rescale = Ok t /\
    shape t = [e; 2 * h] /\ wf t /\
    (Z.even dim = true -> shape t = [e; Z.to_nat dim]) /\
    (forall r i, r < e -> i < h ->
       get t [r; i] = Some (cos (IZR (Z.of_nat r) * f i)) /\
       get t [r; h + i] = Some (sin (IZR (Z.of_nat r) * f i))) /\
    (forall idx v, get t idx = Some v -> (-1 <= v <= 1)%R).
Proof.
  intros h e theta' f.
  destruct (precompute_freqs_cis_spec dim end_ theta rescale)
    as (t & Ht & Hs & Wt & Gt); try assumption; try lia.
  fold h in Hs, Gt. fold e in Hs, Gt.
  assert (Hs' : shape t = [e; 2 * h]) by (rewrite Hs; do 2 f_equal; lia).
  exists t. split; [exact Ht|]. split; [exact Hs'|]. split; [exact Wt|].
  split; [|split].
  - intros Hev. rewrite Hs'. do 2 f_equal. unfold h.
    apply Zeven_bool_iff in Hev. apply Zeven_div2 in Hev.
    rewrite Z.div2_div in Hev. rewrite Hev at 2.
    rewrite Z2Nat.inj_mul by (try apply Z.div_pos; lia). reflexivity.
  - intros r i Hr Hi. exact (Gt r i Hr Hi).
  - intros idx v Hv. pose proof (get_in_range _ _ _ Hv) as Hr.
    rewrite Hs in Hr. apply in_range_2 in Hr as (r & c & -> & Hr & Hc).
    destruct (Nat.lt_ge_cases c h) as [Hlt | Hge].
    + destruct (Gt r c Hr Hlt) as [G _]. rewrite G in Hv.
      injection Hv as <-. apply COS_bound.
    + destruct (Gt r (c - h) Hr ltac:(lia)) as [_ G].
      replace (h + (c - h)) with c in G by lia. rewrite G in Hv.
      injection Hv as <-. apply SIN_bound.
Qed.

Lemma precompute_freqs_cis_correct_witness :
  exists t, precompute_freqs_cis 4 3 10000%R 1%R = Ok t /\
    shape t = [3; 4] /\
    forall idx v, get t idx = Some v -> (-1 <= v <= 1)%R.
Proof.
  destruct (precompute_freqs_cis_correct 4 3 10000%R 1%R)
    as (t & Ht & Hs & _ & _ & _ & Hb); try lia; try lra.
  exists t. split; [exact Ht|]. split; [exact Hs|exact Hb].
Defined.

(** C3 as stated fails for an odd [dim]: the table of [dim = 3] has two
    columns, not three. *)
Lemma precompute_freqs_cis_odd_dim_counterexample :
  exists t : tensor R,
    precompute_freqs_cis 3 1 10000%R 1%R = Ok t /\
    shape t = [1; 2] /\ shape t <> [1; 3].
Proof.
  destruct (precompute_freqs_cis_spec 3 1 10000%R 1%R)
    as (t & Ht & Hs & _); try lia.
  exists t. split; [exact Ht|]. split; [exact Hs|].
  rewrite Hs. discriminate.
Qed.

(** ** Methods leave the module unchanged *)

Section Frame.

Context {F : Type} `{Arith F} `{Kernels F}.

Lemma preserves_ret {S A} (a : A) : preserves_self (F := F) (ret (S := S) a).
Proof. now intros s g. Qed.

Lemma preserves_lift {S A} (r : result A) : preserves_self (F := F) (lift (S := S) r).
Proof. now intros s g. Qed.

Lemma preserves_attr {S A} (proj : S -> A) : preserves_self (F := F) (attr proj).
Proof. now intros s g. Qed.

Lemma preserves_bindM {S A B} (m : M F S A) (k : A -> M F S B) :
  preserves_self m -> (forall a, preserves_self (k a)) ->
  preserves_self (bindM m k).
Proof.
  intros Hm Hk s g. unfold bindM. specialize (Hm s g).
  destruct (m s g) as [[[a|e] s'] g']; simpl in Hm; subst s'.
  - apply Hk.
  - reflexivity.
Qed.

Lemma preserves_call {S T A} (proj : S -> T) (upd : T -> S -> S) (m : M F T A) :
  preserves_self m -> (forall s, upd (proj s) s = s) ->
  preserves_self (call proj upd m).
Proof.
  intros Hm Hl s g. unfold call. specialize (Hm (proj s) g).
  destruct (m (proj s) g) as [[r t'] g']. simpl in *. subst t'. apply Hl.
Qed.

Lemma preserves_F_dropout {S} (x : tensor F) p training :
  preserves_self (F_dropout (S := S) x p training).
Proof.
  intros s g. unfold F_dropout.
  destruct (Qle_bool 0 p && Qle_bool p 1); [|reflexivity].
  destruct (Qeq_bool p 0 || negb training || (numel (shape x) =? 0));
    [reflexivity|].
  destruct (Qeq_bool p 1); reflexivity.
Qed.

Ltac frame :=
  repeat first
    [ apply preserves_ret | apply preserves_lift | apply preserves_attr
    | apply preserves_F_dropout
    | apply preserves_bindM; [|intros]
    | match goal with
      | |- preserves_self (match ?x with _ => _ end) => destruct x
      | |- preserves_self (if ?b then _ else _) => destruct b
      end ].

Lemma preserves_Linear_forward (x : tensor F) :
  preserves_self (Linear_forward x).
Proof. unfold Linear_forward. frame. Qed.

Lemma preserves_Dropout_forward (x : tensor F) :
  preserves_self (Dropout_forward x).
Proof. unfold Dropout_forward. frame. Qed.

Lemma preserves_LayerNorm_forward (x : tensor F) :
  preserves_self (LayerNorm_forward x).
Proof. unfold LayerNorm_forward. frame. Qed.

Lemma preserves_RMSNorm__norm (x : tensor F) :
  preserves_self (RMSNorm__norm x).
Proof. unfold RMSNorm__norm. frame. Qed.

Lemma preserves_RMSNorm_forward (x : tensor F) :
  preserves_self (RMSNorm_forward x).
Proof.
  unfold RMSNorm_forward. apply preserves_bindM;
    [apply preserves_RMSNorm__norm|]. intros. frame.
Qed.

Lemma preserves_NormModule_forward (x : tensor F) :
  preserves_self (NormModule_forward x).
Proof.
  intros [|m|m] g; unfold NormModule_forward; [reflexivity| |].
  - pose proof (preserves_LayerNorm_forward x m g) as Hm.
    destruct (LayerNorm_forward x m g) as [[r m'] g']. simpl in *.
    now subst.
  - pose proof (preserves_RMSNorm_forward x m g) as Hm.
    destruct (RMSNorm_forward x m g) as [[r m'] g']. simpl in *.
    now subst.
Qed.

Lemma preserves_FeedForward_forward (x : tensor F) :
  preserves_self (FeedForward_forward x).
Proof.
  unfold FeedForward_forward.
  repeat first
    [ apply preserves_lift
    | apply preserves_bindM; [|intros]
    | apply preserves_call;
      [ first [apply preserves_Linear_forward
              | apply preserves_Dropout_forward]
      | intros []; reflexivity ] ].
Qed.

Lemma preserves_F_scaled_dot_product_attention {S}
    (q k v : tensor F) mask p :
  preserves_self (F_scaled_dot_product_attention (S := S) q k v mask p).
Proof. unfold F_scaled_dot_product_attention. frame. Qed.

Ltac frame_step :=
  lazymatch goal with
  | |- preserves_self (bindM _ _) => apply preserves_bindM; [|intros]
  | |- preserves_self (lift _) => apply preserves_lift
  | |- preserves_self (attr _) => apply preserves_attr
  | |- preserves_self (ret _) => apply preserves_ret
  | |- preserves_self (F_dropout _ _ _) => apply preserves_F_dropout
  | |- preserves_self (F_scaled_dot_product_attention _ _ _ _ _) =>
      apply preserves_F_scaled_dot_product_attention
  | |- preserves_self (call _ _ (Linear_forward _)) =>
      apply preserves_call;
      [apply preserves_Linear_forward | intros []; reflexivity]
  | |- preserves_self (call _ _ (Dropout_forward _)) =>
      apply preserves_call;
      [apply preserves_Dropout_forward | intros []; reflexivity]
  | |- preserves_self (call _ _ (NormModule_forward _)) =>
      apply preserves_call;
      [apply preserves_NormModule_forward | intros []; reflexivity]
  | |- preserves_self (match ?x with _ => _ end) => destruct x
  end.

Lemma preserves_CrossAttention_forward
    (q_x kv_x : tensor F) q_freqs_cis k_freqs_cis mask :
  preserves_self
    (CrossAttention_forward q_x kv_x q_freqs_cis k_freqs_cis mask).
Proof. unfold CrossAttention_forward. repeat frame_step. Qed.

End Frame.

(** C9. A forward call of [RMSNorm], [FeedForward], [CrossAttention] or
    [Attention] leaves the module, and with it every learned parameter
    tensor, as it was before the call, whether the call returns or
    raises. *)
Theorem forward_preserves_parameters {F : Type} `{Arith F} `{Kernels F} :
  (forall (x : tensor F) (self : RMSNorm F) (g : Rng F),
     snd (fst (RMSNorm_forward x self g)) = self) /\
  (forall (x : tensor F) (self : FeedForward F) (g : Rng F),
     snd (fst (FeedForward_forward x self g)) = self) /\
  (forall (q_x kv_x : tensor F) q_freqs_cis k_freqs_cis mask
          (self : CrossAttention F) (g : Rng F),
     snd (fst (CrossAttention_forward q_x kv_x q_freqs_cis k_freqs_cis mask
                 self g)) = self) /\
  (forall (x : tensor F) freqs_cis mask (self : Attention F) (g : Rng F),
     snd (fst (Attention_forward x freqs_cis mask self g)) = self).
Proof.
  split; [|split; [|split]].
  - intros x. apply preserves_RMSNorm_forward.
  - intros x. apply preserves_FeedForward_forward.
  - intros q_x kv_x qf kf mask. apply preserves_CrossAttention_forward.
  - intros x f mask. unfold Attention_forward.
    apply preserves_CrossAttention_forward.
Qed.

(** C5. [Attention.forward(x, freqs_cis, mask)] is
    [CrossAttention.forward(x, x, freqs_cis, freqs_cis, mask)] on the same
    module and the same generator state: the same result, module and
    generator, in training and in inference mode alike. *)
Theorem Attention_forward_is_CrossAttention_forward
    {F : Type} `{Arith F} `{Kernels F}
    (x : tensor F) (freqs_cis mask : option (tensor F))
    (self : Attention F) (g : Rng F) :
  Attention_forward x freqs_cis mask self g =
  CrossAttention_forward x x freqs_cis freqs_cis mask self g.
Proof. reflexivity. Qed.

(** ** Shapes through the attention layer *)

Lemma broadcast2_shape {A B C} `{Default A} `{Default B}
    (f : A -> B -> C) (a : tensor A) (b : tensor B) s :
  broadcast_shapes (shape a) (shape b) = Some s ->
  exists r, broadcast2 f a b = Ok r /\ shape r = s /\ wf r.
Proof.
  intros Hs. unfold broadcast2. rewrite Hs. eexists.
  split; [reflexivity|]. split; [reflexivity|apply wf_tabulate].
Qed.





Section AttentionShape.

Context {F : Type} `{Arith F} `{Kernels F}.

Lemma F_linear_shape (x w : tensor F) (b : option (tensor F)) pre n out :
  shape x = pre ++ [n] -> shape w = [out; n] ->
  match b with Some b => shape b = [out] | None => True end ->
  exists y, F_linear x w b = Ok y /\ shape y = pre ++ [out] /\ wf y.
Proof.
  intros Hx Hw Hb. unfold F_linear.
  rewrite Hx, rev_app_distr, Hw. cbn [rev app]. rewrite Nat.eqb_refl.
  assert (E : match b with
              | Some b0 => shape_eqb (shape b0) [out]
              | None => true
              end = true).
  { destruct b as [b0|]; [|reflexivity]. now rewrite Hb, shape_eqb_refl. }
  rewrite E. cbn [andb]. rewrite rev_involutive.
  eexists. split; [reflexivity|]. split; [reflexivity|apply wf_tabulate].
Qed.

Lemma Linear_forward_shape (x : tensor F) (l : Linear F) (g : Rng F)
    pre n out :
  shape x = pre ++ [n] -> Linear_wf n out l ->
  exists y, Linear_forward x l g = (Ok y, l, g) /\
    shape y = pre ++ [out] /\ wf y.
Proof.
  intros Hx [Hw Hb].
  destruct (F_linear_shape x (Linear_weight l) (Linear_bias l) pre n out
              Hx Hw Hb) as (y & Hy & Hs & Wy).
  exists y. split; [|split; assumption].
  unfold Linear_forward, bindM, attr, lift. now rewrite Hy.
Qed.







Lemma F_dropout_shape {S} (x : tensor F) (p : Q) (training : bool)
    (s : S) (g : Rng F) :
  Qle_bool 0 p = true -> Qle_bool p 1 = true ->
  exists y g', F_dropout x p training s g = (Ok y, s, g') /\
    shape y = shape x.
Proof.
  intros H0p Hp1. unfold F_dropout. rewrite H0p, Hp1. cbn [andb].
  destruct (Qeq_bool p 0 || negb training || (numel (shape x) =? 0)).
  - eexists _, _. split; reflexivity.
  - destruct (Qeq_bool p 1); eexists _, _; split; reflexivity.
Qed.

Lemma Dropout_forward_shape (x : tensor F) (d : Dropout) (g : Rng F) :
  Dropout_wf d ->
  exists y g', Dropout_forward x d g = (Ok y, d, g') /\ shape y = shape x.
Proof.
  intros [H0p Hp1]. unfold Dropout_forward, bindM, attr.
  apply F_dropout_shape; assumption.
Qed.


End AttentionShape.

Section AttentionParts.

Context {F : Type} `{Arith F} `{Kernels F}.

Lemma mul_shape (a b : tensor F) s :
  broadcast_shapes (shape a) (shape b) = Some s ->
  exists r, mul a b = Ok r /\ shape r = s /\ wf r.
Proof. apply broadcast2_shape. Qed.








End AttentionParts.

Section AttentionForward.

Context {F : Type} `{Arith F} `{Kernels F}.

Lemma bindM_Ok {S A B} (m : M F S A) (k : A -> M F S B) s g a s' g' :
  m s g = (Ok a, s', g') -> bindM m k s g = k a s' g'.
Proof. intros E. unfold bindM. now rewrite E. Qed.

Lemma bindM_lift_Ok {S A B} (r : result A) (k : A -> M F S B) s g a :
  r = Ok a -> bindM (lift r) k s g = k a s g.
Proof. intros ->. reflexivity. Qed.

Lemma bindM_call_Ok {S T A B} (proj : S -> T) (upd : T -> S -> S)
    (m : M F T A) (k : A -> M F S B) s g a t' g' :
  m (proj s) g = (Ok a, t', g') ->
  bindM (call proj upd m) k s g = k a (upd t' s) g'.
Proof. intros E. unfold bindM, call. now rewrite E. Qed.

Lemma call_Ok {S T A} (proj : S -> T) (upd : T -> S -> S)
    (m : M F T A) s g a t' g' :
  m (proj s) g = (Ok a, t', g') ->
  call proj upd m s g = (Ok a, upd t' s, g').
Proof. intros E. unfold call. now rewrite E. Qed.




Lemma Dropout_forward_wf (x y : tensor F) (d d' : Dropout) (g g' : Rng F) :
  wf x -> Dropout_forward x d g = (Ok y, d', g') -> wf y.
Proof.
  intros Wx. unfold Dropout_forward, bindM, attr, F_dropout.
  destruct (Qle_bool 0 (Dropout_p d) && Qle_bool (Dropout_p d) 1);
    [|discriminate].
  destruct (Qeq_bool (Dropout_p d) 0 || negb (Dropout_training d)
            || (numel (shape x) =? 0)).
  - intros [= <- _]. exact Wx.
  - destruct (Qeq_bool (Dropout_p d) 1).
    + intros [= <- _]. now apply wf_tmap.
    + intros [= <- _]. unfold wf in *. cbn [shape data].
      rewrite length_map, length_combine, length_map, length_seq.
      rewrite Nat.min_id. exact Wx.
Qed.


End AttentionForward.

(** ** Construction of the attention layer *)

Section AttentionInit.

Context {F : Type} `{Arith F} `{Kernels F}.

Lemma size_of_Z_Ok z : (0 <= z)%Z -> size_of_Z z = Ok (Z.to_nat z).
Proof.
  intros Hz. unfold size_of_Z. destruct (Z.ltb_spec z 0); [lia|reflexivity].
Qed.

Lemma Linear_init_returns (i o : Z) (bias : bool) (g : Rng F) :
  (0 <= i)%Z -> (0 <= o)%Z ->
  exists l g', Linear_init i o bias tt g = (Ok l, tt, g') /\
    Linear_wf (Z.to_nat i) (Z.to_nat o) l /\
    (bias = true -> exists b, Linear_bias l = Some b) /\
    (bias = false -> Linear_bias l = None).
Proof.
  intros Hi Ho. unfold Linear_init, bindM, lift.
  rewrite (size_of_Z_Ok i Hi), (size_of_Z_Ok o Ho).
  unfold fresh. destruct bias; cbn [ret].
  - eexists _, _. split; [reflexivity|]. split; [split; reflexivity|].
    split; [intros _; eexists; reflexivity|discriminate].
  - eexists _, _. split; [reflexivity|]. split; [split; [reflexivity|exact I]|].
    split; [discriminate|reflexivity].
Qed.

Lemma Dropout_init_returns (p : Q) (g : Rng F) :
  Qle_bool 0 p = true -> Qle_bool p 1 = true ->
  Dropout_init (F := F) p tt g = (Ok (mkDropout p true), tt, g).
Proof. intros Hp0 Hp1. unfold Dropout_init. now rewrite Hp0, Hp1. Qed.

Lemma Dropout_init_refuses (p : Q) (g : Rng F) :
  Qle_bool 0 p && Qle_bool p 1 = false ->
  Dropout_init (F := F) p tt g = (Raise ValueError, tt, g).
Proof. intros Hp. unfold Dropout_init. now rewrite Hp. Qed.

Lemma norm_layer_init_returns (nl : norm_class) (n : Z) (g : Rng F) :
  (0 <= n)%Z ->
  exists m, norm_layer_init nl n tt g = (Ok m, tt, g) /\
    NormModule_wf (Z.to_nat n) m.
Proof.
  intros Hn. destruct nl; unfold norm_layer_init, LayerNorm_init,
    RMSNorm_init, bindM, lift, ret, ones, zeros_F;
    rewrite (size_of_Z_Ok n Hn); cbn [bind];
    eexists; (split; [reflexivity|]); cbn; auto.
Qed.

Lemma CrossAttention_init_returns
    (dim num_heads : Z) (qkv_bias qk_norm : bool) (attn_drop proj_drop : Q)
    (norm_layer : norm_class) (has_sdpa : bool) (g : Rng F) :
  (0 < dim)%Z -> (0 < num_heads)%Z -> (dim mod num_heads = 0)%Z ->
  Qle_bool 0 attn_drop = true -> Qle_bool attn_drop 1 = true ->
  Qle_bool 0 proj_drop = true -> Qle_bool proj_drop 1 = true ->
  exists m g',
    CrossAttention_init dim num_heads qkv_bias qk_norm attn_drop proj_drop
      norm_layer has_sdpa tt g = (Ok m, tt, g') /\
    CrossAttention_wf (Z.to_nat dim) (Z.to_nat num_heads)
      (Z.to_nat (dim / num_heads)) m /\
    CrossAttention_training m = true /\
    CrossAttention_flash m = has_sdpa /\
    (qk_norm = false -> CrossAttention_q_norm m = Identity /\
                        CrossAttention_k_norm m = Identity).
Proof.
  intros Hd Hn Hmod Ha0 Ha1 Hp0 Hp1.
  assert (Hdiv : dim = (num_heads * (dim / num_heads))%Z).
  { rewrite (Z.div_mod dim num_heads) at 1 by lia. lia. }
  assert (Hhd : (0 < dim / num_heads)%Z).
  { apply Z.div_str_pos. split; [lia|].
    apply Z.divide_pos_le; [lia|]. exists (dim / num_heads)%Z. lia. }
  unfold CrossAttention_init.
  unfold py_mod, py_floordiv, py_pow_neg_half.
  destruct (Z.eqb_spec num_heads 0); [lia|].
  rewrite Hmod. cbn [bindM lift assert Z.eqb].
  destruct (Z.eqb_spec (dim / num_heads) 0); [lia|].
  destruct (Linear_init_returns dim dim qkv_bias g) as (q & g1 & Eq & Wq & _);
    try lia.
  erewrite bindM_Ok; [|exact Eq].
  destruct (Linear_init_returns dim (2 * dim) qkv_bias g1)
    as (kv & g2 & Ekv & Wkv & _); try lia.
  erewrite bindM_Ok; [|exact Ekv].
  assert (Hnorm : exists qn kn,
            (if qk_norm then norm_layer_init norm_layer (dim / num_heads)
             else ret Identity) tt g2 = (Ok qn, tt, g2) /\
            (if qk_norm then norm_layer_init norm_layer (dim / num_heads)
             else ret Identity) tt g2 = (Ok kn, tt, g2) /\
            NormModule_wf (Z.to_nat (dim / num_heads)) qn /\
            NormModule_wf (Z.to_nat (dim / num_heads)) kn /\
            (qk_norm = false -> qn = Identity /\ kn = Identity)).
  { destruct qk_norm.
    - destruct (norm_layer_init_returns norm_layer (dim / num_heads) g2)
        as (nm & E & W); [lia|].
      exists nm, nm. repeat split; try assumption; discriminate.
    - exists Identity, Identity. repeat split; exact I. }
  destruct Hnorm as (qn & kn & Eqn & Ekn & Wqn & Wkn & Hid).
  erewrite bindM_Ok; [|exact Eqn].
  erewrite bindM_Ok; [|exact Ekn].
  erewrite bindM_Ok; [|exact (Dropout_init_returns attn_drop g2 Ha0 Ha1)].
  destruct (Linear_init_returns dim dim true g2) as (pj & g3 & Epj & Wpj & _);
    try lia.
  erewrite bindM_Ok; [|exact Epj].
  erewrite bindM_Ok; [|exact (Dropout_init_returns proj_drop g3 Hp0 Hp1)].
  cbn [ret]. eexists _, _. split; [reflexivity|].
  split; [|split; [reflexivity|split; [reflexivity|exact Hid]]].
  unfold CrossAttention_wf.
  cbn [CrossAttention_num_heads CrossAttention_head_dim CrossAttention_q
       CrossAttention_kv CrossAttention_q_norm CrossAttention_k_norm
       CrossAttention_attn_drop CrossAttention_proj CrossAttention_proj_drop].
  split; [lia|]. split.
  { rewrite <- Z2Nat.inj_mul by lia. f_equal. lia. }
  split; [now rewrite Z2Nat.id by lia|].
  split; [now rewrite Z2Nat.id by lia|].
  split; [exact Wq|]. split.
  { replace (2 * Z.to_nat dim) with (Z.to_nat (2 * dim)); [exact Wkv|].
    rewrite Z2Nat.inj_mul by lia. reflexivity. }
  split; [exact Wpj|]. split; [exact Wqn|]. split; [exact Wkn|].
  split; split; assumption.
Qed.

Lemma CrossAttention_init_indivisible
    (dim num_heads : Z) (qkv_bias qk_norm : bool) (attn_drop proj_drop : Q)
    (norm_layer : norm_class) (has_sdpa : bool) (g : Rng F) :
  num_heads <> 0%Z -> (dim mod num_heads <> 0)%Z ->
  CrossAttention_init dim num_heads qkv_bias qk_norm attn_drop proj_drop
    norm_layer has_sdpa tt g = (Raise AssertionError, tt, g).
Proof.
  intros Hn Hmod. unfold CrossAttention_init, py_mod.
  destruct (Z.eqb_spec num_heads 0); [contradiction|].
  cbn [bindM lift].
  destruct (Z.eqb_spec (dim mod num_heads) 0); [contradiction|].
  reflexivity.
Qed.

Lemma CrossAttention_init_no_heads
    (dim : Z) (qkv_bias qk_norm : bool) (attn_drop proj_drop : Q)
    (norm_layer : norm_class) (has_sdpa : bool) (g : Rng F) :
  CrossAttention_init dim 0 qkv_bias qk_norm attn_drop proj_drop
    norm_layer has_sdpa tt g = (Raise ZeroDivisionError, tt, g).
Proof. reflexivity. Qed.

End AttentionInit.

(** * Further properties of the module *)




(** X2. [CrossAttention(dim, num_heads, ...)] with positive [dim] and
    [num_heads], [dim % num_heads == 0] and dropout probabilities in
    [0, 1] returns a module in training mode with [dim // num_heads] as
    head size, query and output projections of shape (dim, dim), a
    key/value projection of shape (2 dim, dim) and, without [qk_norm],
    identity normalisations.  The construction raises AssertionError when
    [dim % num_heads != 0], ZeroDivisionError when [num_heads == 0], and
    ValueError when the attention dropout probability is outside
    [0, 1]. *)
Theorem CrossAttention_init_correct {F : Type} `{Arith F} `{Kernels F}
    (dim num_heads : Z) (qkv_bias qk_norm : bool) (attn_drop proj_drop : Q)
    (norm_layer : norm_class) (has_sdpa : bool) (g : Rng F) :
  ((0 < dim)%Z -> (0 < num_heads)%Z -> (dim mod num_heads = 0)%Z ->
   Qle_bool 0 attn_drop = true -> Qle_bool attn_drop 1 = true ->
   Qle_bool 0 proj_drop = true -> Qle_bool proj_drop 1 = true ->
   exists m g',
     CrossAttention_init dim num_heads qkv_bias qk_norm attn_drop proj_drop
       norm_layer has_sdpa tt g = (Ok m, tt, g') /\
     CrossAttention_wf (Z.to_nat dim) (Z.to_nat num_heads)
       (Z.to_nat (dim / num_heads)) m /\
     CrossAttention_training m = true /\
     CrossAttention_flash m = has_sdpa /\
     (qk_norm = false -> CrossAttention_q_norm m = Identity /\
                         CrossAttention_k_norm m = Identity)) /\
  (num_heads <> 0%Z -> (dim mod num_heads <> 0)%Z ->
   CrossAttention_init dim num_heads qkv_bias qk_norm attn_drop proj_drop
     norm_layer has_sdpa tt g = (Raise AssertionError, tt, g)) /\
  (num_heads = 0%Z ->
   CrossAttention_init dim num_heads qkv_bias qk_norm attn_drop proj_drop
     norm_layer has_sdpa tt g = (Raise ZeroDivisionError, tt, g)) /\
  ((0 < dim)%Z -> (0 < num_heads)%Z -> (dim mod num_heads = 0)%Z ->
   Qle_bool 0 attn_drop && Qle_bool attn_drop 1 = false ->
   exists g',
     CrossAttention_init dim num_heads qkv_bias qk_norm attn_drop proj_drop
       norm_layer has_sdpa tt g = (Raise ValueError, tt, g')).
Proof.
  split; [|split; [|split]].
  - apply CrossAttention_init_returns.
  - apply CrossAttention_init_indivisible.
  - intros ->. apply CrossAttention_init_no_heads.
  - intros Hd Hn Hmod Hbad.
    assert (Hdiv : dim = (num_heads * (dim / num_heads))%Z).
    { rewrite (Z.div_mod dim num_heads) at 1 by lia. lia. }
    assert (Hhd : (0 < dim / num_heads)%Z).
    { apply Z.div_str_pos. split; [lia|].
      apply Z.divide_pos_le; [lia|]. exists (dim / num_heads)%Z. lia. }
    unfold CrossAttention_init, py_mod, py_floordiv, py_pow_neg_half.
    destruct (Z.eqb_spec num_heads 0); [lia|].
    rewrite Hmod. cbn [bindM lift assert Z.eqb].
    destruct (Z.eqb_spec (dim / num_heads) 0); [lia|].
    destruct (Linear_init_returns dim dim qkv_bias g) as (q & g1 & Eq & _);
      try lia.
    erewrite bindM_Ok; [|exact Eq].
    destruct (Linear_init_returns dim (2 * dim) qkv_bias g1)
      as (kv & g2 & Ekv & _); try lia.
    erewrite bindM_Ok; [|exact Ekv].
    assert (Hnorm : exists qn,
              (if qk_norm then norm_layer_init norm_layer (dim / num_heads)
               else ret Identity) tt g2 = (Ok qn, tt, g2)).
    { destruct qk_norm.
      - destruct (norm_layer_init_returns norm_layer (dim / num_heads) g2)
          as (nm & E & _); [lia|]. now exists nm.
      - now exists Identity. }
    destruct Hnorm as (qn & Eqn).
    erewrite bindM_Ok; [|exact Eqn].
    erewrite bindM_Ok; [|exact Eqn].
    exists g2. unfold bindM at 1.
    now rewrite (Dropout_init_refuses attn_drop g2 Hbad).
Qed.

Lemma CrossAttention_init_correct_witness :
  exists m g',
    CrossAttention_init (F := R) 4 2 false false 0 (1 # 2) LayerNormClass true
      tt sample_rng = (Ok m, tt, g') /\
    CrossAttention_wf 4 2 2 m.
Proof.
  destruct (CrossAttention_init_correct (F := R) 4 2 false false 0 (1 # 2)
              LayerNormClass true sample_rng) as [Hok _].
  destruct Hok as (m & g' & Hm & Hwf & _);
    try reflexivity; try lia.
  exists m, g'. split; [exact Hm|exact Hwf].
Defined.

(** ** Inference consults no randomness *)

Section Quiet.

Context {F : Type} `{Arith F} `{Kernels F}.

Lemma quiet_ret {S A} (a : A) (s : S) : quiet (F := F) (ret a) s.
Proof. now exists (Ok a). Qed.

Lemma quiet_lift {S A} (r : result A) (s : S) : quiet (F := F) (lift r) s.
Proof. now exists r. Qed.

Lemma quiet_attr {S A} (proj : S -> A) (s : S) : quiet (F := F) (attr proj) s.
Proof. now exists (Ok (proj s)). Qed.

Lemma quiet_bindM {S A B} (m : M F S A) (k : A -> M F S B) (s : S) :
  quiet m s -> (forall a, quiet (k a) s) -> quiet (bindM m k) s.
Proof.
  intros [r Hm] Hk. destruct r as [a|e].
  - destruct (Hk a) as [r' Hk']. exists r'. intros g.
    unfold bindM. now rewrite Hm.
  - exists (Raise e). intros g. unfold bindM. now rewrite Hm.
Qed.

Lemma quiet_bind_attr {S A B} (proj : S -> A) (k : A -> M F S B) (s : S) :
  quiet (k (proj s)) s -> quiet (bindM (attr proj) k) s.
Proof. intros [r Hr]. exists r. intros g. apply Hr. Qed.

Lemma quiet_call {S T A} (proj : S -> T) (upd : T -> S -> S) (m : M F T A)
    (s : S) :
  quiet m (proj s) -> upd (proj s) s = s -> quiet (call proj upd m) s.
Proof.
  intros [r Hm] Hu. exists r. intros g. unfold call.
  now rewrite Hm, Hu.
Qed.

Lemma quiet_F_dropout {S} (x : tensor F) (p : Q) (training : bool) (s : S) :
  training = false \/ Qeq_bool p 0 = true ->
  quiet (F_dropout x p training) s.
Proof.
  intros Hoff. unfold quiet, F_dropout.
  destruct (Qle_bool 0 p && Qle_bool p 1); [|now exists (Raise ValueError)].
  assert (E : Qeq_bool p 0 || negb training || (numel (shape x) =? 0) = true).
  { destruct Hoff as [-> | ->]; [|reflexivity].
    cbn [negb]. now rewrite orb_true_r. }
  rewrite E. now exists (Ok x).
Qed.

Lemma quiet_Dropout_forward (x : tensor F) (d : Dropout) :
  Dropout_inactive d -> quiet (Dropout_forward x) d.
Proof.
  intros Hoff.
  destruct (quiet_F_dropout (S := Dropout) x (Dropout_p d)
              (Dropout_training d) d Hoff) as [r Hr].
  exists r. intros g. apply Hr.
Qed.

Lemma quiet_Linear_forward (x : tensor F) (l : Linear F) :
  quiet (Linear_forward x) l.
Proof. eexists. intros g. reflexivity. Qed.

Lemma quiet_LayerNorm_forward (x : tensor F) (m : LayerNorm F) :
  quiet (LayerNorm_forward x) m.
Proof. eexists. intros g. reflexivity. Qed.

Lemma quiet_RMSNorm_forward (x : tensor F) (m : RMSNorm F) :
  quiet (RMSNorm_forward x) m.
Proof.
  unfold RMSNorm_forward, RMSNorm__norm.
  repeat first [ apply quiet_bind_attr | apply quiet_lift
               | apply quiet_bindM; [|intros] ].
Qed.

Lemma quiet_NormModule_forward (x : tensor F) (m : NormModule F) :
  quiet (NormModule_forward x) m.
Proof.
  destruct m as [|ln|r].
  - now exists (Ok x).
  - destruct (quiet_LayerNorm_forward x ln) as [res Hr].
    exists res. intros g. unfold NormModule_forward. now rewrite Hr.
  - destruct (quiet_RMSNorm_forward x r) as [res Hr].
    exists res. intros g. unfold NormModule_forward. now rewrite Hr.
Qed.

Lemma quiet_F_scaled_dot_product_attention {S}
    (q k v : tensor F) mask (p : Q) (s : S) :
  Qeq_bool p 0 = true ->
  quiet (F_scaled_dot_product_attention q k v mask p) s.
Proof.
  intros Hp. unfold F_scaled_dot_product_attention.
  repeat first [ apply quiet_lift
               | apply quiet_F_dropout; now right
               | apply quiet_bindM; [|intros] ].
Qed.

Ltac quiet_step :=
  lazymatch goal with
  | |- quiet (bindM (attr _) _) _ => apply quiet_bind_attr
  | |- quiet (bindM _ _) _ => apply quiet_bindM; [|intros]
  | |- quiet (lift _) _ => apply quiet_lift
  | |- quiet (ret _) _ => apply quiet_ret
  | |- quiet (call _ _ (Linear_forward _)) _ =>
      apply quiet_call; [apply quiet_Linear_forward | reflexivity]
  | |- quiet (call _ _ (NormModule_forward _)) _ =>
      apply quiet_call; [apply quiet_NormModule_forward | reflexivity]
  | |- quiet (call _ _ (Dropout_forward _)) _ =>
      apply quiet_call;
      [apply quiet_Dropout_forward; now left | reflexivity]
  | |- quiet (F_scaled_dot_product_attention _ _ _ _ _) _ =>
      apply quiet_F_scaled_dot_product_attention; reflexivity
  | |- quiet (match ?x with _ => _ end) _ => destruct x
  end.

Lemma quiet_CrossAttention_forward
    (q_x kv_x : tensor F) q_freqs_cis k_freqs_cis mask
    (self : CrossAttention F) :
  CrossAttention_training self = false ->
  Dropout_training (CrossAttention_attn_drop self) = false ->
  Dropout_training (CrossAttention_proj_drop self) = false ->
  quiet (CrossAttention_forward q_x kv_x q_freqs_cis k_freqs_cis mask) self.
Proof.
  destruct self as [nhz hdz sc q kv qn kn [pa ta] pj [pp tp] fl tr].
  cbn [CrossAttention_training CrossAttention_attn_drop
       CrossAttention_proj_drop Dropout_training].
  intros -> -> ->. unfold CrossAttention_forward.
  repeat quiet_step.
Qed.

Lemma quiet_FeedForward_forward (x : tensor F) (self : FeedForward F) :
  Dropout_training (FeedForward_dropout self) = false ->
  quiet (FeedForward_forward x) self.
Proof.
  destruct self as [w1 w2 w3 [p t]]. cbn [FeedForward_dropout Dropout_training].
  intros ->. unfold FeedForward_forward.
  repeat quiet_step.
Qed.

End Quiet.

(** X4. In inference mode (the training flags of the layer and of its
    dropout modules off) [CrossAttention.forward] and
    [FeedForward.forward] return a result that does not depend on the
    random generator and leave the generator and the module untouched;
    [RMSNorm.forward] does so in every mode. *)
Theorem forward_inference_deterministic {F : Type} `{Arith F} `{Kernels F} :
  (forall (q_x kv_x : tensor F) q_freqs_cis k_freqs_cis mask
          (self : CrossAttention F),
     CrossAttention_training self = false ->
     Dropout_training (CrossAttention_attn_drop self) = false ->
     Dropout_training (CrossAttention_proj_drop self) = false ->
     exists r, forall g : Rng F,
       CrossAttention_forward q_x kv_x q_freqs_cis k_freqs_cis mask self g
         = (r, self, g)) /\
  (forall (x : tensor F) (self : FeedForward F),
     Dropout_training (FeedForward_dropout self) = false ->
     exists r, forall g : Rng F,
       FeedForward_forward x self g = (r, self, g)) /\
  (forall (x : tensor F) (self : RMSNorm F),
     exists r, forall g : Rng F, RMSNorm_forward x self g = (r, self, g)).
Proof.
  split; [|split].
  - intros. now apply quiet_CrossAttention_forward.
  - intros. now apply quiet_FeedForward_forward.
  - intros. apply quiet_RMSNorm_forward.
Qed.

Lemma forward_inference_deterministic_witness :
  exists r, forall g : Rng R,
    CrossAttention_forward
      (mkT [1; 3; 4] (repeat 1%R 12)) (mkT [1; 2; 4] (repeat 2%R 8))
      None None None (sample_attention false false) g
    = (r, sample_attention false false, g).
Proof.
  destruct (forward_inference_deterministic (F := R)) as [Hca _].
  apply (Hca (mkT [1; 3; 4] (repeat 1%R 12)) (mkT [1; 2; 4] (repeat 2%R 8))
             None None None (sample_attention false false));
    reflexivity.
Defined.

(** ** The feed-forward layer *)

Section FeedForwardFacts.

Context {F : Type} `{Arith F} `{Kernels F}.

Lemma round_up_multiple (h mo : Z) :
  (0 < mo)%Z ->
  let hidden := (mo * ((h + mo - 1) / mo))%Z in
  (hidden mod mo = 0)%Z /\ (h <= hidden < h + mo)%Z.
Proof.
  intros Hmo hidden. subst hidden. split.
  - rewrite Z.mul_comm. apply Z.mod_mul. lia.
  - pose proof (Z.mul_div_le (h + mo - 1) mo Hmo).
    pose proof (Z.mul_succ_div_gt (h + mo - 1) mo Hmo). lia.
Qed.

Lemma FeedForward_init_returns (dim hidden multiple_of : Z)
    (hidden_dim : option Z) (drop : Q) (g : Rng F) :
  (0 <= dim)%Z -> (0 <= hidden)%Z ->
  match hidden_dim with
  | Some h => h = hidden
  | None =>
      multiple_of <> 0%Z /\
      hidden = (multiple_of *
                ((Z.quot (2 * (4 * dim)) 3 + multiple_of - 1) / multiple_of))%Z
  end ->
  Qle_bool 0 drop = true -> Qle_bool drop 1 = true ->
  exists m g', FeedForward_init dim hidden_dim multiple_of drop tt g
                 = (Ok m, tt, g') /\
    Linear_wf (Z.to_nat dim) (Z.to_nat hidden) (FeedForward_w1 m) /\
    Linear_wf (Z.to_nat hidden) (Z.to_nat dim) (FeedForward_w2 m) /\
    Linear_wf (Z.to_nat dim) (Z.to_nat hidden) (FeedForward_w3 m) /\
    Linear_bias (FeedForward_w1 m) = None /\
    Linear_bias (FeedForward_w2 m) = None /\
    Linear_bias (FeedForward_w3 m) = None /\
    FeedForward_dropout m = mkDropout drop true.
Proof.
  intros Hd Hh Hhid Hp0 Hp1. unfold FeedForward_init.
  assert (E : match hidden_dim with
              | Some h => Ok h
              | None =>
                  q <- py_floordiv (Z.quot (2 * (4 * dim)) 3 + multiple_of - 1)
                         multiple_of ;;
                  Ok (multiple_of * q)%Z
              end = Ok hidden).
  { destruct hidden_dim as [h|]; [now subst|].
    destruct Hhid as [Hmo ->]. unfold py_floordiv.
    destruct (Z.eqb_spec multiple_of 0); [contradiction|reflexivity]. }
  erewrite bindM_lift_Ok; [|exact E].
  destruct (Linear_init_returns dim hidden false g)
    as (w1 & g1 & E1 & W1 & _ & B1); try lia.
  erewrite bindM_Ok; [|exact E1].
  destruct (Linear_init_returns hidden dim false g1)
    as (w2 & g2 & E2 & W2 & _ & B2); try lia.
  erewrite bindM_Ok; [|exact E2].
  destruct (Linear_init_returns dim hidden false g2)
    as (w3 & g3 & E3 & W3 & _ & B3); try lia.
  erewrite bindM_Ok; [|exact E3].
  erewrite bindM_Ok; [|exact (Dropout_init_returns drop g3 Hp0 Hp1)].
  eexists _, _. split; [reflexivity|].
  cbn [FeedForward_w1 FeedForward_w2 FeedForward_w3 FeedForward_dropout].
  repeat split; auto; try apply W1; try apply W2; try apply W3.
Qed.

Lemma FeedForward_forward_returns (self : FeedForward F) (dim hidden : nat)
    (x : tensor F) (pre : list nat) (g : Rng F) :
  Linear_wf dim hidden (FeedForward_w1 self) ->
  Linear_wf hidden dim (FeedForward_w2 self) ->
  Linear_wf dim hidden (FeedForward_w3 self) ->
  Dropout_wf (FeedForward_dropout self) ->
  shape x = pre ++ [dim] ->
  exists y g', FeedForward_forward x self g = (Ok y, self, g') /\
    shape y = pre ++ [dim] /\ wf y.
Proof.
  intros W1 W2 W3 Wd Hx. destruct self as [w1 w2 w3 dp].
  cbn [FeedForward_w1 FeedForward_w2 FeedForward_w3 FeedForward_dropout] in *.
  unfold FeedForward_forward.
  destruct (Linear_forward_shape x w1 g pre dim hidden Hx W1)
    as (a & Ea & Sa & _).
  erewrite bindM_call_Ok; [|exact Ea]. cbn [set_w1 FeedForward_w1
    FeedForward_w2 FeedForward_w3 FeedForward_dropout].
  destruct (Linear_forward_shape x w3 g pre dim hidden Hx W3)
    as (c & Ec & Sc & _).
  erewrite bindM_call_Ok; [|exact Ec]. cbn [set_w3 FeedForward_w1
    FeedForward_w2 FeedForward_w3 FeedForward_dropout].
  destruct (mul_shape (tmap f_silu a) c (pre ++ [hidden]))
    as (ab & Eab & Sab & _).
  { cbn [tmap shape]. rewrite Sa, Sc. apply broadcast_shapes_same. }
  erewrite bindM_lift_Ok; [|exact Eab].
  destruct (Linear_forward_shape ab w2 g pre hidden dim Sab W2)
    as (y1 & Ey1 & Sy1 & Wy1).
  erewrite bindM_call_Ok; [|exact Ey1]. cbn [set_w2 FeedForward_w1
    FeedForward_w2 FeedForward_w3 FeedForward_dropout].
  destruct (Dropout_forward_shape y1 dp g Wd) as (y & g' & Ey & Sy).
  exists y, g'. split; [|split].
  - erewrite call_Ok; [|exact Ey]. reflexivity.
  - now rewrite Sy.
  - exact (Dropout_forward_wf y1 y dp dp g g' Wy1 Ey).
Qed.

End FeedForwardFacts.

(** X5. [FeedForward(dim, None, multiple_of, drop)] with
    [0 <= dim < 2^49], [multiple_of > 0] and a dropout probability in [0, 1] chooses as
    hidden width the least multiple of [multiple_of] that is at least
    floor(8 dim / 3), and builds three projections without bias, [w1] and
    [w3] of shape (hidden, dim) and [w2] of shape (dim, hidden); with
    [multiple_of == 0] the construction raises ZeroDivisionError. *)
Theorem FeedForward_init_hidden_dim {F : Type} `{Arith F} `{Kernels F}
    (dim multiple_of : Z) (drop : Q) (g : Rng F) :
  ((0 <= dim < 2 ^ 49)%Z -> (0 < multiple_of)%Z ->
   Qle_bool 0 drop = true -> Qle_bool drop 1 = true ->
   exists m g' hidden,
     FeedForward_init dim None multiple_of drop tt g = (Ok m, tt, g') /\
     (hidden mod multiple_of = 0)%Z /\
     (8 * dim / 3 <= hidden < 8 * dim / 3 + multiple_of)%Z /\
     shape (Linear_weight (FeedForward_w1 m))
       = [Z.to_nat hidden; Z.to_nat dim] /\
     shape (Linear_weight (FeedForward_w2 m))
       = [Z.to_nat dim; Z.to_nat hidden] /\
     shape (Linear_weight (FeedForward_w3 m))
       = [Z.to_nat hidden; Z.to_nat dim] /\
     Linear_bias (FeedForward_w1 m) = None /\
     Linear_bias (FeedForward_w2 m) = None /\
     Linear_bias (FeedForward_w3 m) = None) /\
  (multiple_of = 0%Z ->
   FeedForward_init dim None multiple_of drop tt g
     = (Raise ZeroDivisionError, tt, g)).
Proof.
  split.
  - intros Hd Hmo Hp0 Hp1.
    assert (Hq : Z.quot (2 * (4 * dim)) 3 = (8 * dim / 3)%Z).
    { rewrite Z.quot_div_nonneg by lia. f_equal. lia. }
    destruct (round_up_multiple (8 * dim / 3) multiple_of Hmo) as [Hmod Hrng].
    set (hidden := (multiple_of *
                    ((8 * dim / 3 + multiple_of - 1) / multiple_of))%Z) in *.
    assert (Hnn : (0 <= 8 * dim / 3)%Z) by (apply Z.div_pos; lia).
    destruct (FeedForward_init_returns dim hidden multiple_of None drop g)
      as (m & g' & Em & W1 & W2 & W3 & B1 & B2 & B3 & _);
      try assumption; try lia.
    { split; [lia|]. now rewrite Hq. }
    exists m, g', hidden. split; [exact Em|]. split; [exact Hmod|].
    split; [exact Hrng|].
    split; [apply W1|]. split; [apply W2|]. split; [apply W3|]. auto.
  - intros ->. reflexivity.
Qed.

Lemma FeedForward_init_hidden_dim_witness :
  exists m g',
    FeedForward_init (F := R) 4 None 8 0 tt sample_rng = (Ok m, tt, g') /\
    shape (Linear_weight (FeedForward_w1 m)) = [16; 4].
Proof.
  destruct (FeedForward_init_hidden_dim (F := R) 4 8 0 sample_rng) as [Hok _].
  destruct Hok as (m & g' & hidden & Em & Hmod & Hrng & S1 & _);
    try reflexivity; try lia.
  exists m, g'. split; [exact Em|].
  assert (hidden = 16%Z).
  { change (8 * 4 / 3)%Z with 10%Z in Hrng.
    apply Z.mod_divide in Hmod; [|lia]. destruct Hmod as [k ->]. lia. }
  subst hidden. exact S1.
Defined.

(** X6. A [FeedForward] whose projections have the shapes the constructor
    gives them, applied to an input whose last dimension is [dim],
    returns a well-formed tensor of the shape of its input and is itself
    unchanged. *)
Theorem FeedForward_forward_shape {F : Type} `{Arith F} `{Kernels F}
    (self : FeedForward F) (dim hidden : nat)
    (x : tensor F) (pre : list nat) (g : Rng F)
    (W1 : Linear_wf dim hidden (FeedForward_w1 self))
    (W2 : Linear_wf hidden dim (FeedForward_w2 self))
    (W3 : Linear_wf dim hidden (FeedForward_w3 self))
    (Wd : Dropout_wf (FeedForward_dropout self))
    (Hx : shape x = pre ++ [dim]) :
  exists y g', FeedForward_forward x self g = (Ok y, self, g') /\
    shape y = shape x /\ wf y.
Proof.
  destruct (FeedForward_forward_returns self dim hidden x pre g W1 W2 W3 Wd Hx)
    as (y & g' & Ey & Sy & Wy).
  exists y, g'. split; [exact Ey|]. split; [congruence|exact Wy].
Qed.

Lemma FeedForward_forward_shape_witness :
  exists y g',
    FeedForward_forward (mkT [2; 3] (repeat 1%R 6))
      (mkFeedForward (sample_linear 3 5 false) (sample_linear 5 3 false)
         (sample_linear 3 5 false) (mkDropout (1 # 2) true)) sample_rng
    = (Ok y,
       mkFeedForward (sample_linear 3 5 false) (sample_linear 5 3 false)
         (sample_linear 3 5 false) (mkDropout (1 # 2) true), g') /\
    shape y = [2; 3].
Proof.
  destruct (FeedForward_forward_shape
              (mkFeedForward (sample_linear 3 5 false) (sample_linear 5 3 false)
                 (sample_linear 3 5 false) (mkDropout (1 # 2) true))
              3 5 (mkT [2; 3] (repeat 1%R 6)) [2] sample_rng)
    as (y & g' & Ey & Sy & _);
    try (split; reflexivity); try reflexivity.
  exists y, g'. split; [exact Ey|exact Sy].
Defined.

(** ** Tensors are determined by their entries *)

Lemma nth_error_indices_inv s : forall o idx,
  nth_error (indices s) o = Some idx ->
  in_range s idx = true /\ offset s idx = o.
Proof.
  induction s as [|d s IH]; intros o idx Hn.
  - destruct o as [|o]; simpl in Hn; [|destruct o; discriminate].
    injection Hn as <-. auto.
  - assert (Ho : o < numel (d :: s)).
    { rewrite <- length_indices. apply nth_error_Some. congruence. }
    cbn [numel fold_right] in Ho. fold (numel s) in Ho.
    assert (Hn0 : numel s <> 0) by (intros E; rewrite E in Ho; lia).
    pose proof (Nat.div_mod_eq o (numel s)) as Hdm.
    pose proof (Nat.mod_upper_bound o (numel s) Hn0) as Hlt.
    assert (Hi : o / numel s < d)
      by (apply Nat.Div0.div_lt_upper_bound; lia).
    cbn [indices] in Hn.
    replace o with (o / numel s * numel s + o mod numel s) in Hn at 1 by lia.
    rewrite nth_error_blocks with (a := o / numel s) in Hn;
      [| intros; now rewrite length_map, length_indices
       | now apply nth_error_seq_0 | exact Hlt].
    rewrite nth_error_map in Hn.
    destruct (nth_error (indices s) (o mod numel s)) as [idx'|] eqn:E;
      [|discriminate].
    injection Hn as <-. destruct (IH _ _ E) as [Hr Hoff].
    cbn [in_range offset]. rewrite Hr, Hoff.
    apply Nat.ltb_lt in Hi. rewrite Hi. split; [reflexivity|lia].
Qed.

Lemma tensor_ext {A} (a b : tensor A) :
  wf a -> wf b -> shape a = shape b ->
  (forall idx, in_range (shape a) idx = true -> get a idx = get b idx) ->
  a = b.
Proof.
  intros Wa Wb Hs Hg. destruct a as [sa da], b as [sb db].
  cbn [shape] in Hs. subst sb. f_equal.
  unfold wf in Wa, Wb. cbn [shape data] in *.
  apply nth_error_ext. intros o.
  destruct (nth_error (indices sa) o) as [idx|] eqn:E.
  - destruct (nth_error_indices_inv _ _ _ E) as [Hr Hoff].
    specialize (Hg idx Hr). unfold get in Hg. cbn [shape data] in Hg.
    now rewrite Hr, Hoff in Hg.
  - apply nth_error_None in E. rewrite length_indices in E.
    transitivity (@None A); [|symmetry]; apply nth_error_None; lia.
Qed.

(** ** Rotations compose *)

Lemma index_last_pair pre k idx :
  in_range (pre ++ [2 * k]) idx = true ->
  exists ip m r, idx = ip ++ [2 * m + r] /\ in_range pre ip = true /\
                 m < k /\ r < 2.
Proof.
  intros Hr. destruct (in_range_snoc _ _ _ Hr) as (ip & c & -> & Hp & Hc).
  exists ip, (c / 2), (c mod 2). split; [|split; [exact Hp|split]].
  - do 2 f_equal. apply Nat.div_mod_eq.
  - apply Nat.Div0.div_lt_upper_bound. lia.
  - apply Nat.mod_upper_bound. lia.
Qed.

(** The rotation by a table of known angles, entry by entry. *)
Lemma apply_rotary_emb_angles (x f : tensor R) pre b s k theta :
  wf x -> shape x = pre ++ [2 * k] -> 0 < numel pre ->
  (pre = [b; s] \/ exists h, pre = [b; s; h]) ->
  cis_table_of f b s k theta ->
  exists y, apply_rotary_emb x (Some f) = Ok y /\
    shape y = shape x /\ wf y /\
    forall ip m a c,
      get x (ip ++ [2 * m]) = Some a ->
      get x (ip ++ [2 * m + 1]) = Some c ->
      let t := theta (nth 0 ip 0) (nth 1 ip 0) m in
      get y (ip ++ [2 * m]) = Some (a * cos t - c * sin t)%R /\
      get y (ip ++ [2 * m + 1]) = Some (a * sin t + c * cos t)%R.
Proof.
  intros Wx Hx Hp Hrank (Wf & Hf & Hcis).
  destruct (apply_rotary_emb_spec x f pre b s k Wx Wf Hx Hp Hf Hrank)
    as (y & Ey & Sy & Wy & Gy).
  exists y. split; [exact Ey|]. split; [exact Sy|]. split; [exact Wy|].
  intros ip m a c Ha Hc t.
  pose proof (get_in_range _ _ _ Ha) as Hr. rewrite Hx in Hr.
  assert (Hl : length ip = length pre).
  { apply in_range_length in Hr. rewrite !length_app in Hr. simpl in Hr. lia. }
  rewrite in_range_app in Hr by exact Hl.
  apply andb_true_iff in Hr as [Hr Hm]. cbn [in_range] in Hm.
  rewrite andb_true_r in Hm. apply Nat.ltb_lt in Hm.
  assert (Hij : nth 0 ip 0 < b /\ nth 1 ip 0 < s).
  { destruct Hrank as [-> | [h ->]].
    - destruct (in_range_len2 _ _ _ Hr) as (i & j & -> & ? & ?). now simpl.
    - destruct (in_range_len3 _ _ _ _ Hr) as (i & j & l & -> & ? & ? & ?).
      now simpl. }
  destruct Hij as [Hi Hj].
  destruct (Hcis _ _ m Hi Hj ltac:(lia)) as [Hco Hsn].
  exact (Gy ip m a c _ _ Ha Hc Hco Hsn).
Qed.

(** Every entry of the rotated tensor, from the pair it belongs to. *)
Lemma rotated_entries (x y : tensor R) pre k
    (rot : list nat -> nat -> R -> R -> R * R) :
  wf x -> shape x = pre ++ [2 * k] ->
  (forall ip m a c,
     get x (ip ++ [2 * m]) = Some a -> get x (ip ++ [2 * m + 1]) = Some c ->
     get y (ip ++ [2 * m]) = Some (fst (rot ip m a c)) /\
     get y (ip ++ [2 * m + 1]) = Some (snd (rot ip m a c))) ->
  forall ip m, in_range pre ip = true -> m < k ->
    exists a c,
      get x (ip ++ [2 * m]) = Some a /\ get x (ip ++ [2 * m + 1]) = Some c /\
      get y (ip ++ [2 * m]) = Some (fst (rot ip m a c)) /\
      get y (ip ++ [2 * m + 1]) = Some (snd (rot ip m a c)).
Proof.
  intros Wx Hx Hrot ip m Hr Hm.
  pose proof (in_range_length _ _ Hr) as Hl.
  assert (Hin : forall r, r < 2 ->
            in_range (shape x) (ip ++ [2 * m + r]) = true).
  { intros r Hr2. rewrite Hx, in_range_app by exact Hl. rewrite Hr.
    cbn [in_range]. ltb_cases. }
  destruct (get_total x _ Wx (Hin 0 ltac:(lia))) as [a Ha].
  destruct (get_total x _ Wx (Hin 1 ltac:(lia))) as [c Hc].
  rewrite Nat.add_0_r in Ha.
  destruct (Hrot ip m a c Ha Hc) as [G0 G1].
  exists a, c. auto.
Qed.

(** X7. In exact real arithmetic, rotating by a table of angles theta
    and then by a table of angles phi is rotating by the table of the
    angles theta + phi: the two results are the same tensor. *)
Theorem apply_rotary_emb_compose
    (x f1 f2 f12 : tensor R) (pre : list nat) (b s k : nat)
    (theta phi : nat -> nat -> nat -> R)
    (Wx : wf x) (Hx : shape x = pre ++ [2 * k]) (Hpre : 0 < numel pre)
    (Hrank : pre = [b; s] \/ exists h, pre = [b; s; h])
    (H1 : cis_table_of f1 b s k theta)
    (H2 : cis_table_of f2 b s k phi)
    (H12 : cis_table_of f12 b s k
             (fun i j m => (theta i j m + phi i j m)%R)) :
  exists y z,
    apply_rotary_emb x (Some f1) = Ok y /\
    apply_rotary_emb y (Some f2) = Ok z /\
    apply_rotary_emb x (Some f12) = Ok z.
Proof.
  destruct (apply_rotary_emb_angles x f1 pre b s k theta Wx Hx Hpre Hrank H1)
    as (y & Ey & Sy & Wy & Gy).
  assert (Hy : shape y = pre ++ [2 * k]) by congruence.
  destruct (apply_rotary_emb_angles y f2 pre b s k phi Wy Hy Hpre Hrank H2)
    as (z & Ez & Sz & Wz & Gz).
  destruct (apply_rotary_emb_angles x f12 pre b s k _ Wx Hx Hpre Hrank H12)
    as (w & Ew & Sw & Ww & Gw).
  exists y, z. split; [exact Ey|]. split; [exact Ez|].
  rewrite Ew. f_equal. apply tensor_ext; try assumption; [congruence|].
  intros idx Hr. rewrite Sw, Hx in Hr.
  destruct (index_last_pair _ _ _ Hr) as (ip & m & r & -> & Hp & Hm & Hr2).
  pose proof (in_range_length _ _ Hp) as Hl.
  assert (Hin : forall r', r' < 2 ->
            in_range (shape x) (ip ++ [2 * m + r']) = true).
  { intros r' Hr'. rewrite Hx, in_range_app by exact Hl. rewrite Hp.
    cbn [in_range]. ltb_cases. }
  destruct (get_total x _ Wx (Hin 0 ltac:(lia))) as [a Ha].
  destruct (get_total x _ Wx (Hin 1 ltac:(lia))) as [c Hc].
  rewrite Nat.add_0_r in Ha.
  destruct (Gy ip m a c Ha Hc) as [Gy0 Gy1].
  destruct (Gz ip m _ _ Gy0 Gy1) as [Gz0 Gz1].
  destruct (Gw ip m a c Ha Hc) as [Gw0 Gw1].
  cbv zeta in *.
  assert (Hr01 : r = 0 \/ r = 1) by lia.
  destruct Hr01 as [-> | ->].
  - rewrite Nat.add_0_r, Gw0, Gz0. f_equal.
    rewrite cos_plus, sin_plus. ring.
  - rewrite Gw1, Gz1. f_equal. rewrite cos_plus, sin_plus. ring.
Qed.

Lemma apply_rotary_emb_compose_witness :
  exists y z,
    apply_rotary_emb (mkT [1; 1; 2] [3; 4]%R)
      (Some (mkT [1; 1; 2] [cos 1; sin 1]%R)) = Ok y /\
    apply_rotary_emb y (Some (mkT [1; 1; 2] [cos 2; sin 2]%R)) = Ok z /\
    apply_rotary_emb (mkT [1; 1; 2] [3; 4]%R)
      (Some (mkT [1; 1; 2] [cos (1 + 2); sin (1 + 2)]%R)) = Ok z.
Proof.
  apply (apply_rotary_emb_compose
           (mkT [1; 1; 2] [3; 4]%R) (mkT [1; 1; 2] [cos 1; sin 1]%R)
           (mkT [1; 1; 2] [cos 2; sin 2]%R)
           (mkT [1; 1; 2] [cos (1 + 2); sin (1 + 2)]%R)
           [1; 1] 1 1 1 (fun _ _ _ => 1%R) (fun _ _ _ => 2%R)).
  - reflexivity.
  - reflexivity.
  - simpl. lia.
  - now left.
  - split; [reflexivity|]. split; [reflexivity|]. intros i j m Hi Hj Hm.
    replace i with 0 by lia. replace j with 0 by lia. replace m with 0 by lia.
    split; reflexivity.
  - split; [reflexivity|]. split; [reflexivity|]. intros i j m Hi Hj Hm.
    replace i with 0 by lia. replace j with 0 by lia. replace m with 0 by lia.
    split; reflexivity.
  - split; [reflexivity|]. split; [reflexivity|]. intros i j m Hi Hj Hm.
    replace i with 0 by lia. replace j with 0 by lia. replace m with 0 by lia.
    split; reflexivity.
Defined.

(** X8. In exact real arithmetic the rotation is undone by the table of
    the opposite angles (the same cosines, the sines negated): rotating
    the rotated tensor with it gives the input back, entry for entry. *)
Theorem apply_rotary_emb_inverse
    (x f f' : tensor R) (pre : list nat) (b s k : nat)
    (theta : nat -> nat -> nat -> R)
    (Wx : wf x) (Hx : shape x = pre ++ [2 * k]) (Hpre : 0 < numel pre)
    (Hrank : pre = [b; s] \/ exists h, pre = [b; s; h])
    (Hf : cis_table_of f b s k theta)
    (Hf' : cis_table_of f' b s k (fun i j m => (- theta i j m)%R)) :
  exists y,
    apply_rotary_emb x (Some f) = Ok y /\
    apply_rotary_emb y (Some f') = Ok x.
Proof.
  destruct (apply_rotary_emb_angles x f pre b s k theta Wx Hx Hpre Hrank Hf)
    as (y & Ey & Sy & Wy & Gy).
  assert (Hy : shape y = pre ++ [2 * k]) by congruence.
  destruct (apply_rotary_emb_angles y f' pre b s k _ Wy Hy Hpre Hrank Hf')
    as (z & Ez & Sz & Wz & Gz).
  exists y. split; [exact Ey|]. rewrite Ez. f_equal.
  apply tensor_ext; try assumption; [congruence|].
  intros idx Hr. rewrite Sz, Hy in Hr.
  destruct (index_last_pair _ _ _ Hr) as (ip & m & r & -> & Hp & Hm & Hr2).
  pose proof (in_range_length _ _ Hp) as Hl.
  assert (Hin : forall r', r' < 2 ->
            in_range (shape x) (ip ++ [2 * m + r']) = true).
  { intros r' Hr'. rewrite Hx, in_range_app by exact Hl. rewrite Hp.
    cbn [in_range]. ltb_cases. }
  destruct (get_total x _ Wx (Hin 0 ltac:(lia))) as [a Ha].
  destruct (get_total x _ Wx (Hin 1 ltac:(lia))) as [c Hc].
  rewrite Nat.add_0_r in Ha.
  destruct (Gy ip m a c Ha Hc) as [Gy0 Gy1].
  destruct (Gz ip m _ _ Gy0 Gy1) as [Gz0 Gz1].
  cbv zeta in *.
  pose proof (sin2_cos2 (theta (nth 0 ip 0) (nth 1 ip 0) m)) as Hsc.
  unfold Rsqr in Hsc.
  assert (Hr01 : r = 0 \/ r = 1) by lia.
  destruct Hr01 as [-> | ->].
  - rewrite Nat.add_0_r, Ha, Gz0. f_equal. rewrite cos_neg, sin_neg.
    set (co := cos _) in *. set (si := sin _) in *.
    transitivity (a * (si * si + co * co))%R; [|rewrite Hsc]; ring.
  - rewrite Hc, Gz1. f_equal. rewrite cos_neg, sin_neg.
    set (co := cos _) in *. set (si := sin _) in *.
    transitivity (c * (si * si + co * co))%R; [|rewrite Hsc]; ring.
Qed.

Lemma apply_rotary_emb_inverse_witness :
  exists y,
    apply_rotary_emb (mkT [1; 1; 2] [3; 4]%R)
      (Some (mkT [1; 1; 2] [cos 1; sin 1]%R)) = Ok y /\
    apply_rotary_emb y (Some (mkT [1; 1; 2] [cos (- 1); sin (- 1)]%R))
      = Ok (mkT [1; 1; 2] [3; 4]%R).
Proof.
  apply (apply_rotary_emb_inverse
           (mkT [1; 1; 2] [3; 4]%R) (mkT [1; 1; 2] [cos 1; sin 1]%R)
           (mkT [1; 1; 2] [cos (- 1); sin (- 1)]%R)
           [1; 1] 1 1 1 (fun _ _ _ => 1%R)).
  - reflexivity.
  - reflexivity.
  - simpl. lia.
  - now left.
  - split; [reflexivity|]. split; [reflexivity|]. intros i j m Hi Hj Hm.
    replace i with 0 by lia. replace j with 0 by lia. replace m with 0 by lia.
    split; reflexivity.
  - split; [reflexivity|]. split; [reflexivity|]. intros i j m Hi Hj Hm.
    replace i with 0 by lia. replace j with 0 by lia. replace m with 0 by lia.
    split; reflexivity.
Defined.

(** ** The precomputed table drives the rotation *)






(** ** What the rotation refuses *)

Lemma infer_size_pairs pre n :
  infer_size (map Z.of_nat pre ++ [-1; 2]%Z) n =
  if (0 <? numel pre * 2) && (n mod (numel pre * 2) =? 0)
  then Ok (pre ++ [n / (numel pre * 2); 2])
  else Raise RuntimeError.
Proof.
  assert (E1 : existsb (fun d => d <? -1)%Z (map Z.of_nat pre ++ [-1; 2]%Z)
               = false).
  { rewrite existsb_app, existsb_lt_m1_of_nat. reflexivity. }
  assert (E2 : filter (fun d => 0 <=? d)%Z (map Z.of_nat pre ++ [-1; 2]%Z)
               = map Z.of_nat (pre ++ [2])).
  { rewrite filter_app, filter_nonneg_of_nat, map_app. reflexivity. }
  assert (E3 : filter (fun d => d =? -1)%Z (map Z.of_nat pre ++ [-1; 2]%Z)
               = [(-1)%Z]).
  { rewrite filter_app, filter_m1_of_nat. reflexivity. }
  assert (E4 : forall q,
            map (fun d => if (d =? -1)%Z then q else Z.to_nat d)
              (map Z.of_nat pre ++ [-1; 2]%Z) = pre ++ [q; 2]).
  { intros q. rewrite map_app. f_equal.
    clear. induction pre as [|a pre IH]; simpl; [reflexivity|].
    rewrite IH. destruct (Z.eqb_spec (Z.of_nat a) (-1)); [lia|].
    now rewrite Nat2Z.id. }
  unfold infer_size. rewrite E1, E2, E3, map_to_nat_of_nat, !numel_app.
  change (length [(-1)%Z]) with 1. cbv iota.
  change (numel [2]) with 2. now rewrite E4.
Qed.

Lemma chunk2_last_shapes {A} `{Default A} (f : tensor A) pf d :
  shape f = pf ++ [d] ->
  (d = 1 -> exists c, chunk f 2 (-1) = Ok [c]) /\
  (d <> 1 -> exists fc fs, chunk f 2 (-1) = Ok [fc; fs] /\
     shape fc = pf ++ [(d + 1) / 2] /\ shape fs = pf ++ [d / 2]).
Proof.
  intros Hs.
  assert (Hn : ndim f = S (length pf))
    by (unfold ndim; rewrite Hs, length_app; simpl; lia).
  assert (Hnar : forall st len,
            shape (narrow (length pf) st len f) = pf ++ [len]).
  { intros st len. unfold narrow. cbn [tabulate shape].
    rewrite Hs, firstn_length_app, skipn_S_length_app. reflexivity. }
  unfold chunk. rewrite Hn. cbn [Nat.eqb orb].
  rewrite norm_dim_m1 by lia. cbn [bind].
  replace (S (length pf) - 1) with (length pf) by lia.
  rewrite Hs, nth_length_app.
  pose proof (Nat.div_mod_eq (d + 1) 2) as D1.
  pose proof (Nat.mod_upper_bound (d + 1) 2 ltac:(lia)) as B1.
  pose proof (Nat.div_mod_eq d 2) as D2.
  pose proof (Nat.mod_upper_bound d 2 ltac:(lia)) as B2.
  replace (d + 2 - 1) with (d + 1) by lia.
  split.
  - intros ->. eexists. reflexivity.
  - intros Hd. set (sp := (d + 1) / 2) in *.
    destruct (Nat.eqb_spec sp 0) as [E0 | E0].
    + assert (d = 0) by lia. subst d. cbn [repeat].
      eexists _, _. split; [reflexivity|]. rewrite !Hnar.
      split; [now rewrite E0 | reflexivity].
    + assert (E2 : (d + sp - 1) / sp = 2).
      { symmetry. apply Nat.div_unique with (r := d + sp - 1 - 2 * sp); lia. }
      rewrite E2. cbn [Nat.max seq map].
      eexists _, _. split; [reflexivity|]. rewrite !Hnar.
      split; do 2 f_equal; lia.
Qed.

Section RotaryRefusals.

Context {F : Type} `{Arith F}.

Lemma unbind_pairs (x : tensor F) pre k :
  wf x -> shape x = pre ++ [2 * k] -> 0 < numel pre ->
  exists x_r x_i,
    (xr <- reshape (map Z.of_nat (removelast (shape x)) ++ [-1; 2]%Z) x ;;
     unbind (-1) xr) = Ok [x_r; x_i] /\
    shape x_r = pre ++ [k] /\ shape x_i = pre ++ [k].
Proof.
  intros Wx Hx Hp. rewrite (reshape_split_last x pre k Hx Hp). cbn [bind].
  assert (Wxr : wf (mkT (pre ++ [k; 2]) (data x))).
  { unfold wf in *. cbn [shape data]. rewrite Wx, Hx, !numel_app.
    cbn [numel fold_right]. lia. }
  destruct (unbind_last2 (mkT (pre ++ [k; 2]) (data x)) pre k eq_refl Wxr)
    as (x_r & x_i & E & Hxr & Hxi & _).
  now exists x_r, x_i.
Qed.

Lemma apply_rotary_emb_odd (x f : tensor F) pre d :
  shape x = pre ++ [d] -> Nat.odd d = true ->
  apply_rotary_emb x (Some f) = Raise RuntimeError.
Proof.
  intros Hx Hodd. unfold apply_rotary_emb, reshape.
  rewrite Hx, removelast_snoc, infer_size_pairs, numel_app.
  cbn [numel fold_right]. rewrite Nat.mul_1_r.
  destruct (Nat.ltb_spec 0 (numel pre * 2)) as [Hp|]; [|reflexivity].
  cbn [andb].
  replace (numel pre * 2) with (numel pre * 2) by reflexivity.
  rewrite Nat.Div0.mul_mod_distr_l.
  assert (Hm : d mod 2 = 1).
  { rewrite <- Nat.bit0_mod. rewrite Nat.bit0_odd, Hodd. reflexivity. }
  rewrite Hm. destruct (Nat.eqb_spec (numel pre * 1) 0); [lia|]. reflexivity.
Qed.

Lemma apply_rotary_emb_rank (x f : tensor F) pre k :
  wf x -> shape x = pre ++ [2 * k] -> 0 < numel pre ->
  shape f <> [] ->
  0 < length pre -> length pre <> 2 -> length pre <> 3 ->
  apply_rotary_emb x (Some f) = Raise ValueError.
Proof.
  intros Wx Hx Hp Hf L0 L2 L3. unfold apply_rotary_emb.
  destruct (unbind_pairs x pre k Wx Hx Hp) as (x_r & x_i & E & Hr & Hi).
  destruct (reshape _ x) as [xr|e]; cbn [bind] in E |- *; [|discriminate].
  rewrite E. cbn [bind unpack2].
  destruct (exists_last Hf) as (pf & d & Hsf).
  destruct (chunk2_last_shapes f pf d Hsf) as [C1 C2].
  destruct (Nat.eq_dec d 1) as [Hd | Hd].
  - destruct (C1 Hd) as (c & ->). reflexivity.
  - destruct (C2 Hd) as (fc & fs & -> & _ & _). cbn [bind unpack2].
    rewrite reshape_for_broadcast_other;
      unfold ndim; rewrite Hr, length_app; cbn [length]; try lia.
    destruct (Nat.leb_spec (length pre + 1) 1); [lia|]. reflexivity.
Qed.

Lemma reshape_for_broadcast_table (fc x_r : tensor F) pre b s k :
  shape x_r = pre ++ [k] ->
  (pre = [b; s] \/ exists h, pre = [b; s; h]) ->
  shape fc <> [b; s; k] ->
  reshape_for_broadcast fc x_r = Raise AssertionError.
Proof.
  intros Hr Hrank Hne. destruct Hrank as [-> | [h ->]].
  - rewrite reshape_for_broadcast_rank3 by (unfold ndim; now rewrite Hr).
    rewrite shape_eqb_neq; [reflexivity|]. now rewrite Hr.
  - rewrite (reshape_for_broadcast_rank4 fc x_r b s h k) by exact Hr.
    now rewrite shape_eqb_neq.
Qed.

Lemma reshape_for_broadcast_accepts (fc x_r : tensor F) pre b s k :
  shape x_r = pre ++ [k] ->
  (pre = [b; s] \/ exists h, pre = [b; s; h]) ->
  shape fc = [b; s; k] ->
  exists r, reshape_for_broadcast fc x_r = Ok r.
Proof.
  intros Hr Hrank He. destruct Hrank as [-> | [h ->]].
  - rewrite reshape_for_broadcast_rank3 by (unfold ndim; now rewrite Hr).
    rewrite He, Hr. cbn [app]. rewrite shape_eqb_refl. now eexists.
  - rewrite (reshape_for_broadcast_rank4 fc x_r b s h k) by exact Hr.
    rewrite He, shape_eqb_refl. now eexists.
Qed.

Lemma apply_rotary_emb_mismatch (x f : tensor F) pre b s k pf d :
  wf x -> shape x = pre ++ [2 * k] -> 0 < numel pre ->
  (pre = [b; s] \/ exists h, pre = [b; s; h]) ->
  shape f = pf ++ [d] -> shape f <> [b; s; 2 * k] ->
  apply_rotary_emb x (Some f) =
  Raise (if d =? 1 then ValueError else AssertionError).
Proof.
  intros Wx Hx Hp Hrank Hsf Hne. unfold apply_rotary_emb.
  destruct (unbind_pairs x pre k Wx Hx Hp) as (x_r & x_i & E & Hr & Hi).
  destruct (reshape _ x) as [xr|e]; cbn [bind] in E |- *; [|discriminate].
  rewrite E. cbn [bind unpack2].
  destruct (chunk2_last_shapes f pf d Hsf) as [C1 C2].
  destruct (Nat.eqb_spec d 1) as [Hd | Hd].
  { destruct (C1 Hd) as (c & ->). reflexivity. }
  destruct (C2 Hd) as (fc & fs & -> & Hfc & Hfs). cbn [bind unpack2].
  destruct (list_eq_dec Nat.eq_dec (shape fc) [b; s; k]) as [Ec | Ec].
  - destruct (reshape_for_broadcast_accepts fc x_r pre b s k Hr Hrank Ec)
      as [r ->]. cbn [bind].
    rewrite (reshape_for_broadcast_table fs x_r pre b s k Hr Hrank);
      [reflexivity|].
    intros Es. apply Hne. rewrite Hsf. rewrite Hfc in Ec. rewrite Hfs in Es.
    change [b; s; k] with ([b; s] ++ [k]) in Ec, Es.
    apply app_inj_tail in Ec as [Ep Ek]. apply app_inj_tail in Es as [_ Ek'].
    rewrite Ep. cbn [app]. do 3 f_equal.
    pose proof (Nat.div_mod_eq (d + 1) 2).
    pose proof (Nat.mod_upper_bound (d + 1) 2 ltac:(lia)).
    pose proof (Nat.div_mod_eq d 2).
    pose proof (Nat.mod_upper_bound d 2 ltac:(lia)). lia.
  - rewrite (reshape_for_broadcast_table fc x_r pre b s k Hr Hrank Ec).
    reflexivity.
Qed.

End RotaryRefusals.

(** X10. With a table of rank at least one, [apply_rotary_emb] raises
    RuntimeError when the last dimension of [x] is odd (the pairs cannot
    be formed), and ValueError when the last dimension is even but [x]
    (non-empty ahead of its last dimension) has a rank of 2 or of 5 and
    more: only ranks 3 and 4 are rotated. *)
Theorem apply_rotary_emb_unsupported {F : Type} `{Arith F}
    (x f : tensor F) (pre : list nat) (d : nat)
    (Wx : wf x) (Hx : shape x = pre ++ [d]) (Hf : shape f <> []) :
  (Nat.odd d = true ->
   apply_rotary_emb x (Some f) = Raise RuntimeError) /\
  (Nat.even d = true -> 0 < numel pre ->
   0 < length pre -> length pre <> 2 -> length pre <> 3 ->
   apply_rotary_emb x (Some f) = Raise ValueError).
Proof.
  split.
  - intros Hodd. exact (apply_rotary_emb_odd x f pre d Hx Hodd).
  - intros Hev Hp L0 L2 L3. apply Nat.even_spec in Hev as [k ->].
    exact (apply_rotary_emb_rank x f pre k Wx Hx Hp Hf L0 L2 L3).
Qed.

Lemma apply_rotary_emb_unsupported_witness :
  apply_rotary_emb (mkT [1; 2; 3] [1; 2; 3; 4; 5; 6]%Z)
    (Some (mkT [1; 2; 3] [1; 0; 1; 0; 1; 0]%Z)) = Raise RuntimeError /\
  apply_rotary_emb (mkT [2; 2] [1; 2; 3; 4]%Z)
    (Some (mkT [2; 2] [1; 1; 0; 0]%Z)) = Raise ValueError.
Proof.
  split.
  - apply (proj1 (apply_rotary_emb_unsupported
                    (mkT [1; 2; 3] [1; 2; 3; 4; 5; 6]%Z)
                    (mkT [1; 2; 3] [1; 0; 1; 0; 1; 0]%Z) [1; 2] 3
                    eq_refl eq_refl ltac:(discriminate))).
    reflexivity.
  - apply (proj2 (apply_rotary_emb_unsupported
                    (mkT [2; 2] [1; 2; 3; 4]%Z)
                    (mkT [2; 2] [1; 1; 0; 0]%Z) [2] 2
                    eq_refl eq_refl ltac:(discriminate)));
      simpl; try reflexivity; lia.
Defined.

(** X11. For [x] of shape (b, s, 2k) or (b, s, h, 2k), non-empty ahead
    of its last dimension, [apply_rotary_emb] accepts exactly the tables
    of shape (b, s, 2k): with such a table it returns a tensor of the
    shape of [x]; with a table of any other shape it raises
    AssertionError, or ValueError when the last dimension of the table
    is 1 and cannot be split in two. *)
Theorem apply_rotary_emb_table_shape {F : Type} `{Arith F}
    (x f : tensor F) (pre : list nat) (b s k : nat)
    (pf : list nat) (d : nat)
    (Wx : wf x) (Wf : wf f) (Hx : shape x = pre ++ [2 * k])
    (Hp : 0 < numel pre)
    (Hrank : pre = [b; s] \/ exists h, pre = [b; s; h])
    (Hsf : shape f = pf ++ [d]) :
  (shape f = [b; s; 2 * k] ->
   exists y, apply_rotary_emb x (Some f) = Ok y /\ shape y = shape x) /\
  (shape f <> [b; s; 2 * k] ->
   apply_rotary_emb x (Some f) =
   Raise (if d =? 1 then ValueError else AssertionError)).
Proof.
  split.
  - intros Hs.
    destruct (apply_rotary_emb_spec x f pre b s k Wx Wf Hx Hp Hs Hrank)
      as (y & Ey & Sy & _).
    now exists y.
  - intros Hne.
    exact (apply_rotary_emb_mismatch x f pre b s k pf d Wx Hx Hp Hrank Hsf Hne).
Qed.

Lemma apply_rotary_emb_table_shape_witness :
  (exists y,
     apply_rotary_emb (mkT [1; 2; 2] [1; 2; 3; 4]%Z)
       (Some (mkT [1; 2; 2] [1; 0; 0; 1]%Z)) = Ok y /\
     shape y = [1; 2; 2]) /\
  apply_rotary_emb (mkT [1; 2; 2] [1; 2; 3; 4]%Z)
    (Some (mkT [2; 2] [1; 0; 0; 1]%Z)) = Raise AssertionError.
Proof.
  split.
  - apply (proj1 (apply_rotary_emb_table_shape
                    (mkT [1; 2; 2] [1; 2; 3; 4]%Z)
                    (mkT [1; 2; 2] [1; 0; 0; 1]%Z) [1; 2] 1 2 1 [1; 2] 2
                    eq_refl eq_refl eq_refl ltac:(simpl; lia)
                    (or_introl eq_refl) eq_refl)).
    reflexivity.
  - apply (proj2 (apply_rotary_emb_table_shape
                    (mkT [1; 2; 2] [1; 2; 3; 4]%Z)
                    (mkT [2; 2] [1; 0; 0; 1]%Z) [1; 2] 1 2 1 [2] 2
                    eq_refl eq_refl eq_refl ltac:(simpl; lia)
                    (or_introl eq_refl) eq_refl)).
    discriminate.
Defined.

(** ** The two score masks agree *)

Lemma broadcast_shapes_nonempty s1 s2 s :
  s1 <> [] -> broadcast_shapes s1 s2 = Some s -> s <> [].
Proof.
  intros Hne. unfold broadcast_shapes.
  destruct (bshape_rev (rev s1) (rev s2)) as [r|] eqn:E; [|discriminate].
  cbn [option_map]. intros [= <-].
  assert (Hr : r <> []).
  { destruct (rev s1) as [|a r1] eqn:E1.
    - apply (f_equal (@rev nat)) in E1. rewrite rev_involutive in E1.
      now destruct Hne.
    - cbn [bshape_rev] in E. destruct (rev s2) as [|b r2].
      + injection E as <-. discriminate.
      + destruct (bdim a b); [|discriminate].
        destruct (bshape_rev r1 r2); [|discriminate].
        injection E as <-. discriminate. }
  intros E0. apply (f_equal (@rev nat)) in E0.
  rewrite rev_involutive in E0. now destruct Hr.
Qed.

Lemma sequence_mask_tabulated (lens : tensor Z) (max_length : option Z) m :
  sequence_mask lens max_length = Ok m ->
  exists s f, m = tabulate s f /\ s <> [].
Proof.
  unfold sequence_mask. intros E.
  destruct (match max_length with None => t_max lens | Some m0 => Ok m0 end)
    as [L|]; cbn [bind] in E; [|discriminate].
  unfold arange in E. destruct (L <? 0)%Z; cbn [bind] in E; [discriminate|].
  unfold unsqueeze at 1 in E. cbn [ndim shape length Nat.leb bind] in E.
  destruct (unsqueeze 1 lens) as [l1|]; cbn [bind] in E; [|discriminate].
  unfold broadcast2 in E. cbn [shape firstn skipn app] in E.
  destruct (broadcast_shapes [1; Z.to_nat L] (shape l1)) as [s|] eqn:Eb;
    [|discriminate E].
  injection E as <-. eexists s, _. split; [reflexivity|].
  apply (broadcast_shapes_nonempty [1; Z.to_nat L] (shape l1) s);
    [discriminate|exact Eb].
Qed.

Lemma map_const_repeat {A B} (c : B) (l : list A) :
  map (fun _ => c) l = repeat c (length l).
Proof. induction l as [|a l IH]; simpl; [reflexivity|now rewrite IH]. Qed.

(** X12. [score_mask(length, max_length)] is
    [score_mask_from_bool_mask(~sequence_mask(length, max_length))]: the
    same tensor when the sequence mask is built, the same exception when
    it is not. *)
Theorem score_mask_factors (length : tensor Z) (max_length : option Z) :
  score_mask length max_length =
  (m <- sequence_mask length max_length ;;
   score_mask_from_bool_mask (logical_not m)).
Proof.
  unfold score_mask.
  destruct (sequence_mask length max_length) as [m|e] eqn:E; cbn [bind];
    [|reflexivity].
  destruct (sequence_mask_tabulated _ _ _ E) as (s & f & -> & Hs).
  unfold score_mask_from_bool_mask, zeros_like, logical_not, tmap, tabulate.
  cbn [shape data]. unfold zeros.
  destruct s as [|d s]; [now destruct Hs|]. cbn [bind].
  rewrite map_const_repeat, length_map, length_indices. reflexivity.
Qed.

(** ** The defaults of start and length *)

Lemma numel_1 n : numel [n] = n.
Proof. cbn [numel fold_right]. lia. Qed.

Lemma get_vector_repeat {A} (x : A) n i :
  i < n -> get (mkT [n] (repeat x n)) [i] = Some x.
Proof.
  intros Hi. rewrite <- (numel_1 n) at 2. apply get_repeat.
  cbn [in_range]. apply Nat.ltb_lt in Hi. now rewrite Hi.
Qed.

(** X13. For a tensor of shape (B, C, T, ...), [_get_start] and
    [_get_len] with the argument omitted return the vectors of B zeros and
    of B copies of T; the sequence mask built from that default length is
    the all-True mask of shape (B, T), and for an empty batch it cannot
    be built ([max] of an empty tensor raises RuntimeError). *)
Theorem default_start_and_length {A : Type} (t : tensor A)
    (B C T : nat) (rest : list nat)
    (Hs : shape t = B :: C :: T :: rest)
    (HT : (Z.of_nat T <= int64_max)%Z) :
  exists start len,
    _get_start t None = Ok start /\ _get_len t None = Ok len /\
    shape start = [B] /\ shape len = [B] /\ wf start /\ wf len /\
    (forall i, i < B ->
       get start [i] = Some 0%Z /\ get len [i] = Some (Z.of_nat T)) /\
    (0 < B ->
     exists m, sequence_mask len None = Ok m /\ shape m = [B; T] /\
       forall i j, i < B -> j < T -> get m [i; j] = Some true) /\
    (B = 0 -> sequence_mask len None = Raise RuntimeError).
Proof.
  assert (HT' : in_int64 (Z.of_nat T) = true).
  { unfold in_int64, int64_min. apply andb_true_iff.
    split; apply Z.leb_le; lia. }
  assert (Hw : wrap64 (1 * Z.of_nat T) = Z.of_nat T).
  { rewrite Z.mul_1_l. now apply wrap64_id. }
  unfold _get_start, _get_len, size, mul_scalar_long, to_int64.
  rewrite Hs. cbn [nth_error bind]. rewrite HT'. cbn [bind].
  set (len := tmap _ (ones_long B)).
  assert (Hlen : forall i, i < B -> get len [i] = Some (Z.of_nat T)).
  { intros i Hi. unfold len, ones_long.
    rewrite get_tmap, get_vector_repeat by exact Hi.
    cbn [option_map]. now rewrite Hw. }
  assert (Wl : wf len).
  { unfold len, ones_long. apply wf_tmap. unfold wf. cbn [shape data].
    now rewrite repeat_length, numel_1. }
  exists (zeros_long B), len.
  split; [reflexivity|]. split; [reflexivity|]. split; [reflexivity|].
  split; [reflexivity|]. split.
  { unfold wf, zeros_long. cbn [shape data].
    now rewrite repeat_length, numel_1. }
  split; [exact Wl|]. split; [|split].
  - intros i Hi. split; [|now apply Hlen].
    unfold zeros_long. now apply get_vector_repeat.
  - intros HB.
    destruct (t_max_spec len) as (mx & Hmx & Hin & _).
    { unfold len, ones_long, tmap. cbn [data].
      destruct B; [lia|discriminate]. }
    assert (Emx : mx = Z.of_nat T).
    { unfold len, ones_long, tmap in Hin. cbn [data] in Hin.
      apply in_map_iff in Hin as (v & <- & Hv).
      apply repeat_spec in Hv. subst v. exact Hw. }
    subst mx.
    destruct (sequence_mask_width len B (Z.of_nat T) eq_refl ltac:(lia))
      as (m & Em & Sm & _ & Gm).
    exists m. split.
    { unfold sequence_mask in Em |- *. now rewrite Hmx. }
    rewrite Nat2Z.id in Sm, Gm. split; [exact Sm|].
    intros i j Hi Hj. rewrite (Gm i j _ (Hlen i Hi) Hj). f_equal.
    apply Z.ltb_lt. lia.
  - intros ->. reflexivity.
Qed.

Lemma default_start_and_length_witness :
  exists start len m,
    _get_start (mkT [2; 1; 3] (repeat 0%Z 6)) None = Ok start /\
    _get_len (mkT [2; 1; 3] (repeat 0%Z 6)) None = Ok len /\
    sequence_mask len None = Ok m /\ shape m = [2; 3] /\
    get m [1; 2] = Some true.
Proof.
  destruct (default_start_and_length (mkT [2; 1; 3] (repeat 0%Z 6))
              2 1 3 [] eq_refl)
    as (start & len & Es & El & _ & _ & _ & _ & _ & Hm & _).
  - unfold int64_max. lia.
  - destruct (Hm ltac:(lia)) as (m & Em & Sm & Gm).
    exists start, len, m. split; [exact Es|]. split; [exact El|].
    split; [exact Em|]. split; [exact Sm|]. apply Gm; lia.
Defined.

(** ** Broadcasting along the last dimension *)

Lemma bindex_aligned_app pre suf : forall ip js,
  in_range pre ip = true ->
  bindex_aligned (pre ++ suf) (ip ++ js) = ip ++ bindex_aligned suf js.
Proof.
  induction pre as [|d pre IH]; intros [|i ip] js Hr; cbn [in_range] in Hr;
    try discriminate; [reflexivity|].
  apply andb_true_iff in Hr as [Hi Hr]. apply Nat.ltb_lt in Hi.
  cbn [app bindex_aligned]. rewrite IH by exact Hr.
  now rewrite bsel_lt by exact Hi.
Qed.

Lemma bindex_keepdim pre ip j :
  in_range pre ip = true -> bindex (pre ++ [1]) (ip ++ [j]) = ip ++ [0].
Proof.
  intros Hr. unfold bindex.
  rewrite !length_app, (in_range_length _ _ Hr), Nat.sub_diag.
  cbn [skipn]. now rewrite bindex_aligned_app.
Qed.

Lemma bindex_last (ip : list nat) d j :
  j < d -> bindex [d] (ip ++ [j]) = [j].
Proof.
  intros Hj. unfold bindex. rewrite length_app. cbn [length].
  replace (length ip + 1 - 1) with (length ip) by lia.
  rewrite skipn_length_app. cbn [bindex_aligned].
  now rewrite bsel_lt by exact Hj.
Qed.

Lemma broadcast_shapes_keepdim_last pre d :
  broadcast_shapes (pre ++ [d]) (pre ++ [1]) = Some (pre ++ [d]).
Proof.
  unfold broadcast_shapes. rewrite !rev_app_distr. cbn [rev app bshape_rev].
  rewrite bdim_1_r, bshape_rev_same. cbn [option_map rev].
  now rewrite rev_involutive.
Qed.

Lemma broadcast_shapes_vector pre d :
  broadcast_shapes (pre ++ [d]) [d] = Some (pre ++ [d]).
Proof.
  unfold broadcast_shapes. rewrite !rev_app_distr. cbn [rev app bshape_rev].
  rewrite bdim_same.
  replace (bshape_rev (rev pre) []) with (Some (rev pre))
    by (now destruct (rev pre)).
  cbn [option_map rev]. now rewrite rev_involutive.
Qed.

Lemma in_range_snoc_intro pre d ip j :
  in_range pre ip = true -> j < d -> in_range (pre ++ [d]) (ip ++ [j]) = true.
Proof.
  intros Hr Hj. rewrite in_range_app by (now apply in_range_length).
  rewrite Hr. cbn [in_range]. ltb_cases.
Qed.

Lemma broadcast2_keepdim_last {A B C} `{Default A} `{Default B}
    (f : A -> B -> C) (a : tensor A) (b : tensor B) pre d :
  shape a = pre ++ [d] -> shape b = pre ++ [1] ->
  exists r, broadcast2 f a b = Ok r /\ shape r = pre ++ [d] /\ wf r /\
    forall ip j, in_range pre ip = true -> j < d ->
      get r (ip ++ [j]) = Some (f (at_ a (ip ++ [j])) (at_ b (ip ++ [0]))).
Proof.
  intros Ha Hb. unfold broadcast2.
  rewrite Ha, Hb, broadcast_shapes_keepdim_last.
  eexists. split; [reflexivity|]. split; [reflexivity|].
  split; [apply wf_tabulate|]. intros ip j Hr Hj.
  pose proof (in_range_snoc_intro pre d ip j Hr Hj) as Hin.
  rewrite get_tabulate by exact Hin.
  now rewrite (bindex_same _ _ Hin), bindex_keepdim by exact Hr.
Qed.

Lemma broadcast2_vector {A B C} `{Default A} `{Default B}
    (f : A -> B -> C) (a : tensor A) (b : tensor B) pre d :
  shape a = pre ++ [d] -> shape b = [d] ->
  exists r, broadcast2 f a b = Ok r /\ shape r = pre ++ [d] /\ wf r /\
    forall ip j, in_range pre ip = true -> j < d ->
      get r (ip ++ [j]) = Some (f (at_ a (ip ++ [j])) (at_ b [j])).
Proof.
  intros Ha Hb. unfold broadcast2.
  rewrite Ha, Hb, broadcast_shapes_vector.
  eexists. split; [reflexivity|]. split; [reflexivity|].
  split; [apply wf_tabulate|]. intros ip j Hr Hj.
  pose proof (in_range_snoc_intro pre d ip j Hr Hj) as Hin.
  rewrite get_tabulate by exact Hin.
  now rewrite (bindex_same _ _ Hin), bindex_last by exact Hj.
Qed.

(** ** RMS normalisation in exact arithmetic *)

Lemma at_tmap_R (f : R -> R) (t : tensor R) idx :
  f 0%R = 0%R -> at_ (tmap f t) idx = f (at_ t idx).
Proof.
  intros H0. unfold at_, tmap. cbn [shape data dflt Default_Arith f_zero Arith_R].
  rewrite <- H0 at 1. apply map_nth.
Qed.

Lemma fold_add_ge (g : nat -> R) (l : list nat) :
  (forall k, (0 <= g k)%R) ->
  forall acc,
    (acc <= fold_left (fun a k => (a + g k)%R) l acc)%R /\
    forall j, In j l ->
      (acc + g j <= fold_left (fun a k => (a + g k)%R) l acc)%R.
Proof.
  intros Hg. induction l as [|k l IH]; intros acc; cbn [fold_left].
  - split; [lra|]. intros j [].
  - destruct (IH (acc + g k)%R) as [I1 I2]. pose proof (Hg k). split.
    + lra.
    + intros j [<- | Hj]; [exact I1|].
      specialize (I2 j Hj). lra.
Qed.

Lemma sum_upto_ge (g : nat -> R) n j :
  (forall k, (0 <= g k)%R) -> j < n -> (g j <= sum_upto n g)%R.
Proof.
  intros Hg Hj. unfold sum_upto. cbn [f_add f_zero Arith_R].
  destruct (fold_add_ge g (seq 0 n) Hg 0%R) as [_ I].
  specialize (I j). rewrite Rplus_0_l in I. apply I.
  apply in_seq. lia.
Qed.

Lemma sum_upto_nonneg (g : nat -> R) n :
  (forall k, (0 <= g k)%R) -> (0 <= sum_upto n g)%R.
Proof.
  intros Hg. unfold sum_upto. cbn [f_add f_zero Arith_R].
  now destruct (fold_add_ge g (seq 0 n) Hg 0%R) as [I _].
Qed.

Lemma mean_square_bounds (x : tensor R) ip d j :
  j < d ->
  (0 <= mean_square x ip d)%R /\
  (at_ x (ip ++ [j]) * at_ x (ip ++ [j]) <= INR d * mean_square x ip d)%R.
Proof.
  intros Hj. unfold mean_square.
  set (g := fun k => (at_ x (ip ++ [k]) * at_ x (ip ++ [k]))%R).
  assert (Hg : forall k, (0 <= g k)%R) by (intros k; unfold g; nra).
  assert (Hd : (0 < INR d)%R) by (apply lt_0_INR; lia).
  pose proof (sum_upto_nonneg g d Hg) as Hs.
  pose proof (sum_upto_ge g d j Hg Hj) as Hge.
  split.
  - apply Rmult_le_pos; [exact Hs|]. left. now apply Rinv_0_lt_compat.
  - replace (INR d * (sum_upto d g / INR d))%R with (sum_upto d g)
      by (field; lra).
    exact Hge.
Qed.

Lemma RMSNorm_forward_entries (x : tensor R) (m : RMSNorm R) (g : Rng R)
    pre d :
  wf x -> shape x = pre ++ [d] -> 0 < d ->
  shape (RMSNorm_weight m) = [d] -> wf (RMSNorm_weight m) ->
  exists y, RMSNorm_forward x m g = (Ok y, m, g) /\
    shape y = shape x /\ wf y /\
    forall ip j v w,
      get x (ip ++ [j]) = Some v -> get (RMSNorm_weight m) [j] = Some w ->
      get y (ip ++ [j]) =
        Some (v * / sqrt (mean_square x ip d + RMSNorm_eps m) * w)%R.
Proof.
  intros Wx Hx Hd Hw Ww.
  set (sq := tmap (fun v : R => f_mul v v) x).
  assert (Emn : exists mn, mean_last_keepdim sq = Ok mn /\
            shape mn = pre ++ [1] /\
            forall ip, in_range pre ip = true ->
              get mn (ip ++ [0]) = Some (mean_square x ip d)).
  { unfold mean_last_keepdim, sq. cbn [tmap shape].
    rewrite Hx, rev_app_distr. cbn [rev app]. rewrite rev_involutive.
    eexists. split; [reflexivity|]. split; [reflexivity|].
    intros ip Hr. rewrite get_tabulate
      by (apply in_range_snoc_intro; [exact Hr|lia]).
    rewrite removelast_snoc. unfold mean_square. f_equal.
    cbn [f_div f_of_Z Kernels_R]. rewrite <- INR_IZR_INZ. f_equal.
    unfold sum_upto.
    (* the squares, read through [tmap] *)
    generalize (seq 0 d) (@f_zero R _). intros l.
    induction l as [|k l IH]; intros acc; cbn [fold_left]; [reflexivity|].
    rewrite at_tmap_R by (cbn [f_mul Arith_R]; ring). apply IH. }
  destruct Emn as (mn & Emn & Smn & Gmn).
  set (r := tmap (fun v : R => f_rsqrt (f_add v (RMSNorm_eps m))) mn).
  destruct (broadcast2_keepdim_last f_mul x r pre d Hx Smn)
    as (o & Eo & So & Wo & Go).
  destruct (broadcast2_vector f_mul o (RMSNorm_weight m) pre d So Hw)
    as (y & Ey & Sy & Wy & Gy).
  exists y. split; [|split; [congruence|split; [exact Wy|]]].
  { unfold RMSNorm_forward, RMSNorm__norm, bindM, attr, lift.
    fold sq. rewrite Emn. cbn [bind]. fold r. unfold mul.
    rewrite Eo, Ey. reflexivity. }
  intros ip j v w Hv Hwj.
  pose proof (get_in_range _ _ _ Hv) as Hr. rewrite Hx in Hr.
  destruct (in_range_snoc _ _ _ Hr) as (ip' & j' & E' & Hp & Hj).
  apply app_inj_tail in E' as [<- <-].
  rewrite (Gy ip j Hp Hj).
  rewrite (get_at _ _ _ (Go ip j Hp Hj)).
  rewrite (get_at _ _ _ Hv), (get_at _ _ _ Hwj).
  assert (Hr0 : get r (ip ++ [0]) =
                Some (/ sqrt (mean_square x ip d + RMSNorm_eps m))%R).
  { unfold r. rewrite get_tmap, (Gmn ip Hp). reflexivity. }
  rewrite (get_at _ _ _ Hr0). reflexivity.
Qed.

(** X14. In exact real arithmetic, [RMSNorm.forward] on an input of shape
    (..., d) with [d > 0], a weight of [d] entries and [eps > 0] returns a
    tensor of the same shape whose entry j of a row is
    x_j / sqrt(mean(x^2) + eps) * weight_j, the mean taken over the row;
    its square is at most d * weight_j^2 whatever the size of the input,
    and the module is left unchanged. *)
Theorem RMSNorm_forward_bounded (x : tensor R) (m : RMSNorm R) (g : Rng R)
    (pre : list nat) (d : nat)
    (Wx : wf x) (Hx : shape x = pre ++ [d]) (Hd : 0 < d)
    (Hw : shape (RMSNorm_weight m) = [d]) (Ww : wf (RMSNorm_weight m))
    (Heps : (0 < RMSNorm_eps m)%R) :
  exists y, RMSNorm_forward x m g = (Ok y, m, g) /\
    shape y = shape x /\ wf y /\
    forall ip j v w,
      get x (ip ++ [j]) = Some v -> get (RMSNorm_weight m) [j] = Some w ->
      exists u, get y (ip ++ [j]) = Some u /\
        u = (v * / sqrt (mean_square x ip d + RMSNorm_eps m) * w)%R /\
        (u * u <= INR d * (w * w))%R.
Proof.
  destruct (RMSNorm_forward_entries x m g pre d Wx Hx Hd Hw Ww)
    as (y & Ey & Sy & Wy & Gy).
  exists y. split; [exact Ey|]. split; [exact Sy|]. split; [exact Wy|].
  intros ip j v w Hv Hwj. eexists. split; [exact (Gy ip j v w Hv Hwj)|].
  split; [reflexivity|].
  assert (Hj : j < d).
  { apply (get_vector _ d j w Hw) in Hwj. tauto. }
  destruct (mean_square_bounds x ip d j Hj) as [Hms Hle].
  rewrite (get_at _ _ _ Hv) in Hle.
  set (ms := mean_square x ip d) in *. set (e := RMSNorm_eps m) in *.
  assert (Hpos : (0 < ms + e)%R) by lra.
  assert (Hsq : (sqrt (ms + e) * sqrt (ms + e) = ms + e)%R)
    by (apply sqrt_sqrt; lra).
  assert (Hs0 : (0 < sqrt (ms + e))%R) by (now apply sqrt_lt_R0).
  set (s := sqrt (ms + e)) in *.
  assert (Hi : (/ s * / s = / (ms + e))%R).
  { rewrite <- Rinv_mult, Hsq. reflexivity. }
  replace (v * / s * w * (v * / s * w))%R
    with ((v * v) * / (ms + e) * (w * w))%R by (rewrite <- Hi; ring).
  assert (Hvd : ((v * v) * / (ms + e) <= INR d)%R).
  { apply Rmult_le_reg_r with (r := (ms + e)%R); [exact Hpos|].
    rewrite Rmult_assoc, Rinv_l by lra.
    assert (0 < INR d)%R by (apply lt_0_INR; lia). nra. }
  assert (0 <= w * w)%R by nra.
  nra.
Qed.

Lemma RMSNorm_forward_bounded_witness :
  exists y,
    RMSNorm_forward (mkT [2; 2] [3; 4; 0; 0]%R)
      (mkRMSNorm 1%R (mkT [2] [1; 1]%R)) sample_rng
    = (Ok y, mkRMSNorm 1%R (mkT [2] [1; 1]%R), sample_rng) /\
    shape y = [2; 2].
Proof.
  destruct (RMSNorm_forward_bounded (mkT [2; 2] [3; 4; 0; 0]%R)
              (mkRMSNorm 1%R (mkT [2] [1; 1]%R)) sample_rng [2] 2)
    as (y & Ey & Sy & _); try reflexivity; try lia.
  - cbn [RMSNorm_eps]. lra.
  - exists y. split; [exact Ey|exact Sy].
Defined.

(** ** Modulation *)

Lemma broadcast2_middle {A B C} `{Default A} `{Default B}
    (f : A -> B -> C) (a : tensor A) (b : tensor B) n t d :
  shape a = [n; t; d] -> shape b = [n; 1; d] ->
  exists r, broadcast2 f a b = Ok r /\ shape r = [n; t; d] /\ wf r /\
    forall i l j, i < n -> l < t -> j < d ->
      get r [i; l; j] = Some (f (at_ a [i; l; j]) (at_ b [i; 0; j])).
Proof.
  intros Ha Hb. unfold broadcast2, broadcast_shapes. rewrite Ha, Hb.
  cbn [rev app bshape_rev]. rewrite !bdim_same, bdim_1_r.
  cbn [option_map rev app].
  eexists. split; [reflexivity|]. split; [reflexivity|].
  split; [apply wf_tabulate|]. intros i l j Hi Hl Hj.
  assert (Hin : in_range [n; t; d] [i; l; j] = true)
    by (cbn [in_range]; ltb_cases).
  rewrite get_tabulate by exact Hin. rewrite (bindex_same _ _ Hin).
  unfold bindex. cbn [length Nat.sub skipn bindex_aligned Nat.eqb].
  now rewrite !bsel_lt by assumption.
Qed.

Lemma get_unsqueeze_1 {A} n d (l : list A) i j :
  get (mkT [n; 1; d] l) [i; 0; j] = get (mkT [n; d] l) [i; j].
Proof.
  apply get_eq_of.
  - cbn [in_range]. change (0 <? 1) with true. now cbn [andb].
  - cbn [offset numel fold_right]. lia.
Qed.

Lemma unsqueeze_1_matrix {A} (t : tensor A) n d :
  shape t = [n; d] -> unsqueeze 1 t = Ok (mkT [n; 1; d] (data t)).
Proof.
  intros Hs. unfold unsqueeze, ndim. rewrite Hs. reflexivity.
Qed.

Lemma in_range_3 n t d idx :
  in_range [n; t; d] idx = true ->
  exists i l j, idx = [i; l; j] /\ i < n /\ l < t /\ j < d.
Proof.
  destruct idx as [|i [|l [|j [|? ?]]]]; cbn [in_range]; intros Hr;
    try discriminate;
    try (rewrite ?andb_false_r in Hr; discriminate).
  apply andb_true_iff in Hr as [Hi Hr]. apply andb_true_iff in Hr as [Hl Hr].
  apply andb_true_iff in Hr as [Hj _]. apply Nat.ltb_lt in Hi, Hl, Hj.
  now exists i, l, j.
Qed.

(** X15. In exact real arithmetic, [modulate(x, shift, scale)] for [x] of
    shape (B, T, D) and [shift], [scale] of shape (B, D) returns a tensor
    of shape (B, T, D) with entry (b, t, d) equal to
    x[b,t,d] * (1 + scale[b,d]) + shift[b,d]: shift and scale act on every
    position of a batch element alike, and with both all zero the input
    comes back unchanged. *)
Theorem modulate_correct (x shift scale : tensor R) (n t d : nat)
    (Wx : wf x) (Hx : shape x = [n; t; d])
    (Wsh : wf shift) (Hsh : shape shift = [n; d])
    (Wsc : wf scale) (Hsc : shape scale = [n; d]) :
  exists y, modulate x shift scale = Ok y /\
    shape y = [n; t; d] /\ wf y /\
    (forall i l j v sh sc,
       get x [i; l; j] = Some v -> get shift [i; j] = Some sh ->
       get scale [i; j] = Some sc ->
       get y [i; l; j] = Some (v * (1 + sc) + sh)%R) /\
    ((forall idx v, get shift idx = Some v -> v = 0%R) ->
     (forall idx v, get scale idx = Some v -> v = 0%R) ->
     y = x).
Proof.
  unfold modulate.
  rewrite (unsqueeze_1_matrix scale n d Hsc). cbn [bind].
  rewrite (unsqueeze_1_matrix shift n d Hsh). cbn [bind].
  set (sc1 := tmap (fun v : R => f_add f_one v) (mkT [n; 1; d] (data scale))).
  destruct (broadcast2_middle f_mul x sc1 n t d Hx eq_refl)
    as (xs & Exs & Sxs & Wxs & Gxs).
  destruct (broadcast2_middle f_add xs (mkT [n; 1; d] (data shift)) n t d
              Sxs eq_refl) as (y & Ey & Sy & Wy & Gy).
  unfold mul, add. rewrite Exs. cbn [bind]. rewrite Ey.
  assert (Es : forall (s : tensor R), shape s = [n; d] ->
            forall i j, get (mkT [n; 1; d] (data s)) [i; 0; j] = get s [i; j]).
  { intros s Hs i j. rewrite get_unsqueeze_1. destruct s as [ss ds].
    cbn [shape data] in *. now subst ss. }
  assert (Gen : forall i l j v sh sc,
            get x [i; l; j] = Some v -> get shift [i; j] = Some sh ->
            get scale [i; j] = Some sc ->
            get y [i; l; j] = Some (v * (1 + sc) + sh)%R).
  { intros i l j v sh sc Hv Hs Hc.
    pose proof (get_in_range _ _ _ Hv) as Hr. rewrite Hx in Hr.
    apply in_range_3 in Hr as (i' & l' & j' & [= <- <- <-] & Hi & Hl & Hj).
    rewrite (Gy i l j Hi Hl Hj).
    rewrite (get_at _ _ _ (Gxs i l j Hi Hl Hj)), (get_at _ _ _ Hv).
    assert (H1 : get sc1 [i; 0; j] = Some (1 + sc)%R).
    { unfold sc1. rewrite get_tmap, (Es scale Hsc), Hc. reflexivity. }
    assert (H2 : get (mkT [n; 1; d] (data shift)) [i; 0; j] = Some sh).
    { now rewrite (Es shift Hsh). }
    rewrite (get_at _ _ _ H1), (get_at _ _ _ H2). reflexivity. }
  exists y. split; [reflexivity|]. split; [exact Sy|]. split; [exact Wy|].
  split; [exact Gen|].
  intros Z1 Z2. apply tensor_ext; try assumption; [congruence|].
  intros idx Hr. rewrite Sy in Hr.
  destruct (in_range_3 _ _ _ _ Hr) as (i & l & j & -> & Hi & Hl & Hj).
  destruct (get_total x [i; l; j] Wx) as [v Hv]; [now rewrite Hx|].
  assert (Hij : in_range [n; d] [i; j] = true) by (cbn [in_range]; ltb_cases).
  destruct (get_total shift [i; j] Wsh) as [sh Hs]; [now rewrite Hsh|].
  destruct (get_total scale [i; j] Wsc) as [sc Hc]; [now rewrite Hsc|].
  rewrite (Gen i l j v sh sc Hv Hs Hc), Hv.
  rewrite (Z1 _ _ Hs), (Z2 _ _ Hc). f_equal. ring.
Qed.

Lemma modulate_correct_witness :
  exists y,
    modulate (mkT [1; 2; 2] [1; 2; 3; 4]%R) (mkT [1; 2] [5; 6]%R)
      (mkT [1; 2] [1; 0]%R) = Ok y /\
    shape y = [1; 2; 2] /\
    get y [0; 1; 0] = Some (3 * (1 + 1) + 5)%R.
Proof.
  destruct (modulate_correct (mkT [1; 2; 2] [1; 2; 3; 4]%R)
              (mkT [1; 2] [5; 6]%R) (mkT [1; 2] [1; 0]%R) 1 2 2
              eq_refl eq_refl eq_refl eq_refl eq_refl eq_refl)
    as (y & Ey & Sy & _ & Gy & _).
  exists y. split; [exact Ey|]. split; [exact Sy|].
  apply Gy; reflexivity.
Defined.

(** ** The fused and the manual attention path *)











(** ** What the table construction refuses *)



(** ** Positions with the default scale *)

Lemma digits2_pos_iter_xO m k :
  Zpos (digits2_pos (Pos.iter xO m k)) = (Zpos (digits2_pos m) + Zpos k)%Z.
Proof.
  induction k as [|k IH] using Pos.peano_ind.
  - cbn [Pos.iter digits2_pos]. lia.
  - rewrite Pos.iter_succ. cbn [digits2_pos]. lia.
Qed.

Lemma Zpos_iter_xO m k :
  Zpos (Pos.iter xO m k) = (Zpos m * 2 ^ Zpos k)%Z.
Proof.
  induction k as [|k IH] using Pos.peano_ind.
  - cbn [Pos.iter]. lia.
  - rewrite Pos.iter_succ, Pos2Z.inj_succ, Z.pow_succ_r by lia. lia.
Qed.

Lemma digits2_pos_lower p :
  (2 ^ (Zpos (digits2_pos p) - 1) <= Zpos p)%Z.
Proof.
  induction p as [p IH|p IH|]; cbn [digits2_pos].
  - rewrite Pos2Z.inj_succ.
    replace (Z.succ (Zpos (digits2_pos p)) - 1)%Z
      with (Z.succ (Zpos (digits2_pos p) - 1)) by lia.
    rewrite Z.pow_succ_r by lia. lia.
  - rewrite Pos2Z.inj_succ.
    replace (Z.succ (Zpos (digits2_pos p)) - 1)%Z
      with (Z.succ (Zpos (digits2_pos p) - 1)) by lia.
    rewrite Z.pow_succ_r by lia. lia.
  - cbn. lia.
Qed.

Lemma digits2_pos_le24 p :
  (Zpos p < 2 ^ 24)%Z -> (Zpos (digits2_pos p) <= 24)%Z.
Proof.
  intros Hp. pose proof (digits2_pos_lower p) as Hl.
  destruct (Z.le_gt_cases (Zpos (digits2_pos p)) 24) as [|Hgt];
    [assumption|].
  assert (2 ^ 24 <= 2 ^ (Zpos (digits2_pos p) - 1))%Z
    by (apply Z.pow_le_mono_r; lia).
  lia.
Qed.

Lemma binary_round_aux_exact m e :
  Zpos (digits2_pos m) = 24%Z -> (-149 <= e <= 104)%Z ->
  binary_round_aux prec32 emax32 false (Zpos m) e loc_Exact =
  S754_finite false m e.
Proof.
  intros Hd He.
  unfold binary_round_aux, shr_fexp, Zdigits2, fexp, emin, prec32, emax32.
  rewrite Hd.
  replace (Z.max (24 + e - 24) (3 - 128 - 24))%Z with e by lia.
  rewrite Z.sub_diag.
  cbn [shr shr_record_of_loc shr_m loc_of_shr_record round_nearest_even].
  cbn [Zdigits2]. rewrite Hd.
  replace (Z.max (24 + e - 24) (3 - 128 - 24))%Z with e by lia.
  rewrite Z.sub_diag. cbn [shr shr_m].
  destruct (Z.leb_spec e (128 - 24)); [reflexivity|lia].
Qed.

Lemma f32_of_Z_pos_small p :
  (Zpos p < 2 ^ 24)%Z ->
  exists m e, f32_of_Z (Zpos p) = S754_finite false m e /\
    Zpos (digits2_pos m) = 24%Z /\ (-149 <= e <= 0)%Z /\
    Z.shiftl (Zpos m) e = Zpos p.
Proof.
  intros Hp. pose proof (digits2_pos_le24 p Hp) as Hd.
  assert (H1 : (1 <= Zpos (digits2_pos p))%Z) by lia.
  unfold f32_of_Z, binary_normalize, binary_round, shl_align.
  unfold SpecFloat.fexp, SpecFloat.emin, prec32, emax32.
  rewrite !Z.add_0_r.
  replace (Z.max (Zpos (digits2_pos p) - 24) (3 - 128 - 24))%Z
    with (Zpos (digits2_pos p) - 24)%Z by lia.
  rewrite Z.sub_0_r.
  destruct (Zpos (digits2_pos p) - 24)%Z as [|k|k] eqn:Ek; [| lia |].
  - cbv beta iota zeta. fold prec32 emax32.
    rewrite binary_round_aux_exact by lia. unfold prec32.
    exists p, 0%Z. split; [reflexivity|]. split; [lia|].
    split; [lia|reflexivity].
  - assert (Hk : Zpos k = (24 - Zpos (digits2_pos p))%Z) by lia.
    assert (Hdk : Zpos (digits2_pos (Pos.iter xO p k)) = 24%Z)
      by (rewrite digits2_pos_iter_xO; lia).
    cbv beta iota zeta. fold prec32 emax32.
    rewrite binary_round_aux_exact; [|exact Hdk|lia]. unfold prec32.
    exists (Pos.iter xO p k), (Zneg k). split; [reflexivity|].
    split; [exact Hdk|]. split; [lia|].
    change (Zneg k) with (- Zpos k)%Z.
    rewrite Z.shiftl_opp_r, Z.shiftr_div_pow2, Zpos_iter_xO by lia.
    apply Z.div_mul. apply Z.pow_nonzero; lia.
Qed.

(** An integer below 2^24 is a float32, and comes back from it. *)
Lemma f32_of_Z_small j :
  (0 <= j < 2 ^ 24)%Z ->
  valid_binary prec32 emax32 (f32_of_Z j) = true /\
  f32_to_long (f32_of_Z j) = j.
Proof.
  intros Hj. destruct j as [|p|p]; [split; reflexivity| |lia].
  destruct (f32_of_Z_pos_small p ltac:(lia)) as (m & e & -> & Hd & He & Hz).
  split.
  - unfold valid_binary, SpecFloat.bounded, SpecFloat.canonical_mantissa,
      SpecFloat.fexp, SpecFloat.emin, prec32, emax32. rewrite Hd.
    apply andb_true_iff. split; [apply Z.eqb_eq|apply Z.leb_le]; lia.
  - unfold f32_to_long. cbn [cond_Zopp]. rewrite Hz.
    unfold in_int64, int64_min, int64_max.
    destruct (Z.leb_spec (- 2 ^ 63) (Zpos p)); [|lia].
    destruct (Z.leb_spec (Zpos p) (2 ^ 63 - 1)); [reflexivity|lia].
Qed.

(** X18. With the default scale 1.0, a length of at most 2^24 (up to
    which float32 counts exactly) and starts for which start + length
    stays within 64 bits, [get_pos_embed_indices] returns the positions
    start[i] + j, capped at max_pos - 1: entry (i, j) is
    min(start[i] + j, max_pos - 1). *)
Theorem get_pos_embed_indices_default_scale (start : tensor Z) (batch : nat)
    (length max_pos : Z)
    (Hshape : shape start = [batch]) (Hwf : wf start)
    (Hlen : (0 <= length <= 2 ^ 24)%Z)
    (Hmax : (0 < max_pos <= int64_max)%Z)
    (Hstart : forall i st, get start [i] = Some st ->
                (int64_min <= st /\ st + length <= int64_max)%Z) :
  exists pos,
    get_pos_embed_indices start length max_pos (ScaleFloat f64_one) = Ok pos /\
    shape pos = [batch; Z.to_nat length] /\ wf pos /\
    forall i j st, get start [i] = Some st -> j < Z.to_nat length ->
      get pos [i; j] = Some (Z.min (st + Z.of_nat j) (max_pos - 1)).
Proof.
  destruct (get_pos_embed_indices_spec start batch length max_pos
              (ScaleFloat f64_one))
    as (pos & Hpos & Hps & Hpw & Hget); try assumption; try lia.
  { unfold int64_min. lia. }
  { exact I. }
  exists pos. split; [exact Hpos|]. split; [exact Hps|]. split; [exact Hpw|].
  intros i j st Hst Hj.
  rewrite (Hget i j st (f32_of_f64 f64_one) Hst eq_refl Hj). f_equal.
  change (f32_mul (f32_of_f64 f64_one) f32_one) with f32_one.
  unfold pos_entry. cbv zeta.
  assert (Hj' : (0 <= Z.of_nat j < 2 ^ 24)%Z) by lia.
  destruct (f32_of_Z_small (Z.of_nat j) Hj') as [Hv Hl].
  rewrite (f32_mul_one_r _ Hv), Hl.
  destruct (Hstart i st Hst) as [Hs1 Hs2].
  rewrite wrap64_id.
  - destruct (Z.ltb_spec (st + Z.of_nat j) max_pos); lia.
  - unfold in_int64. apply andb_true_iff. split; apply Z.leb_le; lia.
Qed.

Lemma get_pos_embed_indices_default_scale_witness :
  exists pos,
    get_pos_embed_indices (vec [0; 10]%Z) 4 12 (ScaleFloat f64_one) = Ok pos /\
    shape pos = [2; 4] /\
    get pos [1; 3] = Some (Z.min (10 + 3) (12 - 1)).
Proof.
  destruct (get_pos_embed_indices_default_scale (vec [0; 10]%Z) 2 4 12
              eq_refl eq_refl)
    as (pos & Hpos & Hs & _ & Hg).
  - lia.
  - unfold int64_max. lia.
  - intros i st Hi. unfold int64_min, int64_max.
    destruct i as [|[|i]]; cbn in Hi; try discriminate;
      injection Hi as <-; lia.
  - exists pos. split; [exact Hpos|]. split; [exact Hs|].
    apply (Hg 1 3 10%Z); [reflexivity|cbn; lia].
Defined.
